(** * sima.motion.frame_align: a shallow embedding and its properties

    The development follows [sima/motion/frame_align.py]: NumPy arrays are
    a stored shape together with nested lists in C order, Python exceptions
    are an explicit error type, the process-shared [namespace] is a record
    threaded through the per-plane steps, and the floating-point and SciPy
    primitives the module calls are the fields of two interfaces.

    Conventions.
    - NumPy [int] entries (offsets, displacements, shifts, bounds) are
      mathematical integers: no array of this program is large enough to
      reach the 64-bit limits.
    - The module is Python 2 code ([itertools.imap], [future_builtins]):
      [/] between integers is floor division. *)

From Stdlib Require Import ZArith QArith Lia String.
From stdpp Require Import base option list.

Local Open Scope Z_scope.
Local Open Scope nat_scope.

(** ** Exceptions *)

(** The [assert] statements of the module, by source line. *)
Inductive assertion : Type :=
  | AssertBoundsOrdered      (* pyramid_align, line 440 *)
  | AssertLenBounds          (* within_bounds, line 424 *)
  | AssertNoCandidate        (* pyramid_align, line 459 *)
  | AssertShiftInBounds.     (* _align_frame, lines 234-236 *)

Inductive value_error : Type :=
  | Broadcast                (* NumPy: operands could not be broadcast *)
  | EmptyReduction           (* NumPy: reduction of an empty array *)
  | PoolSize                 (* multiprocessing: fewer than one process *)
  | UnrecognizedMethod.      (* 'Unrecognized alignment method' *)

Inductive exn : Type :=
  | IndexError
  | ValueError (v : value_error)
  | NotImplementedError
  | AssertionError (a : assertion)
  | RecursionError           (* Python's recursion limit *)
  | PrimitiveError.          (* raised inside a primitive of [PyramidEnv] *)

Inductive result (A : Type) : Type :=
  | Ok (a : A)
  | Raise (e : exn).
Arguments Ok {A} a.
Arguments Raise {A} e.

#[export] Instance result_ret : MRet result := fun A a => Ok a.
#[export] Instance result_bind : MBind result := fun A B f m =>
  match m with Ok a => f a | Raise e => Raise e end.
#[export] Instance result_fmap : FMap result := fun A B f m =>
  match m with Ok a => Ok (f a) | Raise e => Raise e end.

Definition of_option {A} (e : exn) (o : option A) : result A :=
  match o with Some a => Ok a | None => Raise e end.

(** ** One-dimensional NumPy arithmetic *)

(** Elementwise binary operation on two 1-D arrays with NumPy broadcasting:
    equal lengths, or one operand of length 1. *)
Definition np2 {A B C} (f : A -> B -> C) (a : list A) (b : list B)
  : result (list C) :=
  if length a =? length b then Ok (zip_with f a b)
  else match a, b with
       | _, [y] => Ok ((fun x => f x y) <$> a)
       | [x], _ => Ok (f x <$> b)
       | _, _ => Raise (ValueError Broadcast)
       end.

(** [target[:k] = value] for a 1-D value: the value has [k] entries or is
    broadcast from one. *)
Definition assign_rows {A} (k : nat) (v : list A) : result (list A) :=
  if length v =? k then Ok v
  else match v with
       | [x] => Ok (replicate k x)
       | _ => Raise (ValueError Broadcast)
       end.

(** Python's [slice(start, stop).indices(len)] for step 1. *)
Definition slice_norm (len : nat) (z : Z) : nat :=
  Z.to_nat (if (z <? 0)%Z then Z.max 0 (z + Z.of_nat len)
            else Z.min z (Z.of_nat len)).

Definition slice_indices (start stop : Z) (len : nat) : nat * nat :=
  (slice_norm len start, slice_norm len stop).

(** ** N-dimensional arrays *)

(** The elements of a rank-[n] array in C order. *)
Fixpoint nd (A : Type) (n : nat) : Type :=
  match n with
  | O => A
  | S m => list (nd A m)
  end.

Record ndarray (A : Type) (n : nat) : Type := NDArray {
  shape : list nat;
  data : nd A n
}.
Arguments NDArray {A n} shape data.
Arguments shape {A n} _.
Arguments data {A n} _.

Section Arrays.
Context {A : Type}.

(** The data agree with the stored shape. *)
Fixpoint nd_shaped (n : nat) (sh : list nat) : nd A n -> bool :=
  match n return nd A n -> bool with
  | O => fun _ => match sh with [] => true | _ => false end
  | S m => fun a : list (nd A m) =>
      match sh with
      | [] => false
      | s :: sh' => (length a =? s) && forallb (nd_shaped m sh') a
      end
  end.

Definition wf_array {n} (a : ndarray A n) : bool :=
  (length (shape a) =? n) && nd_shaped n (shape a) (data a).

(** [a[i0, i1, ...]] for in-range non-negative indices. *)
Fixpoint nd_get (n : nat) (idx : list nat) : nd A n -> option A :=
  match n return nd A n -> option A with
  | O => fun a => match idx with [] => Some a | _ => None end
  | S m => fun a : list (nd A m) =>
      match idx with
      | [] => None
      | i :: idx' => a !! i ≫= nd_get m idx'
      end
  end.

Definition get {n} (a : ndarray A n) (idx : list nat) : option A :=
  nd_get n idx (data a).

Fixpoint nd_full (n : nat) (sh : list nat) (x : A) : nd A n :=
  match n return nd A n with
  | O => x
  | S m => replicate (hd 0 sh) (nd_full m (tl sh) x)
  end.

(** The shape after [np.pad] with the given (before, after) widths. *)
Definition padded_shape (pw : list (nat * nat)) (sh : list nat) : list nat :=
  zip_with (fun s w => w.1 + s + w.2) sh pw.

(** [np.pad(a, pw, 'constant')] on the elements: along each axis the
    array is preceded and followed by blocks filled with [fill]. *)
Fixpoint nd_pad (fill : A) (n : nat) (pw : list (nat * nat)) (sh : list nat)
  : nd A n -> nd A n :=
  match n return nd A n -> nd A n with
  | O => fun a => a
  | S m => fun a : list (nd A m) =>
      let w := hd (0, 0) pw in
      let blk := nd_full m (padded_shape (tl pw) (tl sh)) fill in
      replicate w.1 blk ++ (nd_pad fill m (tl pw) (tl sh) <$> a)
                        ++ replicate w.2 blk
  end.

Definition np_pad (fill : A) {n} (a : ndarray A n) (pw : list (nat * nat))
  : ndarray A n :=
  NDArray (padded_shape pw (shape a)) (nd_pad fill n pw (shape a) (data a)).

(** [np.any] over all the elements. *)
Fixpoint nd_any (truthy : A -> bool) (n : nat) : nd A n -> bool :=
  match n return nd A n -> bool with
  | O => truthy
  | S m => fun a : list (nd A m) => existsb (nd_any truthy m) a
  end.
End Arrays.

Section ArrayMaps.
Context {A B : Type}.

Fixpoint nd_map (f : A -> B) (n : nat) : nd A n -> nd B n :=
  match n return nd A n -> nd B n with
  | O => f
  | S m => fun a : list (nd A m) => nd_map f m <$> a
  end.

Definition np_map (f : A -> B) {n} (a : ndarray A n) : ndarray B n :=
  NDArray (shape a) (nd_map f n (data a)).

(** Pairing a slice of the target with the operand of an in-place
    operation: an operand of length 1 is broadcast along the axis. *)
Definition zip_bc {X Y} (g : X -> Y -> X) (xs : list X) (ys : list Y)
  : list X :=
  match ys with
  | [y] => (fun x => g x y) <$> xs
  | _ => zip_with g xs ys
  end.

(** [a[s0:e0, s1:e1, ...] op= b] on the elements; axes without a slice
    are taken whole. *)
Fixpoint nd_iop (g : A -> B -> A) (n : nat) (sl : list (nat * nat))
  : nd A n -> nd B n -> nd A n :=
  match n return nd A n -> nd B n -> nd A n with
  | O => g
  | S m => fun (a : list (nd A m)) (b : list (nd B m)) =>
      let s := match sl with [] => (0, length a) | s :: _ => s end in
      let len := s.2 - s.1 in
      take s.1 a
        ++ zip_bc (nd_iop g m (tl sl)) (take len (drop s.1 a)) b
        ++ drop (s.1 + len) a
  end.
End ArrayMaps.

(** The shape of [a[s0:e0, s1:e1, ...]]. *)
Fixpoint sliced_shape (sh : list nat) (sl : list (nat * nat)) : list nat :=
  match sh with
  | [] => []
  | s :: sh' =>
      match sl with
      | [] => sh
      | w :: sl' => (w.2 - w.1) :: sliced_shape sh' sl'
      end
  end.

(** An operand of shape [rhs] can be added in place into a target of shape
    [lhs] of the same rank. *)
Fixpoint inplace_ok (lhs rhs : list nat) : bool :=
  match lhs, rhs with
  | [], [] => true
  | l :: lhs', e :: rhs' => ((e =? l) || (e =? 1)) && inplace_ok lhs' rhs'
  | _, _ => false
  end.

(** ** The interface to floating point *)

(** float64 values and the operations the module applies to them. *)
Class FloatOps (F : Type) : Type := {
  f_zero : F;                      (* 0.0 *)
  f_one : F;                       (* 1.0 *)
  f_add : F -> F -> F;
  f_div : F -> F -> F;
  f_nan_to_num : F -> F;           (* np.nan_to_num *)
  f_isfinite : F -> bool;          (* np.isfinite *)
  f_of_bool : bool -> F;           (* True -> 1.0, False -> 0.0 *)
  f_truthy : F -> bool;            (* nonzero test of np.any *)
  f_sigma : F                      (* 1.05 *)
}.

(** ** The reference accumulator *)

Section Accumulator.
Context {F : Type} `{FloatOps F}.

(** [array1[o0:o0+e0, ...] += array2], lines 266-279. The slices pair the
    entries of [offset] with the leading extents of [array2]; the target
    is returned as updated. *)
Definition _add_with_offset {B} (g : F -> B -> F)
    (array1 : ndarray F 4) (array2 : ndarray B 4) (offset : list Z)
  : result (ndarray F 4) :=
  let slices :=
    zip_with (fun '(o, e) len => slice_indices o (o + Z.of_nat e) len)
             (zip offset (shape array2)) (shape array1) in
  if inplace_ok (sliced_shape (shape array1) slices) (shape array2)
  then Ok (NDArray (shape array1)
                   (nd_iop g 4 slices (data array1) (data array2)))
  else Raise (ValueError Broadcast).

(** Lines 282-307. [np.isfinite(image)] is a boolean array; adding it
    into the float counts adds 1.0 or 0.0. *)
Definition _update_sums_and_counts
    (pixel_sums pixel_counts : ndarray F 4) (offset shift : list Z)
    (image : ndarray F 4)
  : result (ndarray F 4 * ndarray F 4) :=
  disp ← np2 Z.add offset shift;
  sums ← _add_with_offset f_add pixel_sums (np_map f_nan_to_num image) disp;
  counts ← _add_with_offset (fun c b => f_add c (f_of_bool b))
                            pixel_counts (np_map f_isfinite image) disp;
  Ok (sums, counts).

(** Lines 310-329. Rows [:3] of the pad widths are assigned, the channel
    row stays zero. *)
Definition pad_widths (ashape : list nat) (displacement : list Z)
    (frame_shape : list nat) : result (list (nat * nat)) :=
  lo ← assign_rows 3 ((fun d => Z.to_nat (- Z.min 0 d)) <$> displacement);
  t ← np2 Z.add displacement (Z.of_nat <$> removelast frame_shape);
  t' ← np2 Z.sub t (Z.of_nat <$> removelast ashape);
  hi ← assign_rows 3 ((fun x => Z.to_nat (Z.max 0 x)) <$> t');
  Ok (zip lo hi ++ [(0, 0)]).

Definition _resize_array (array : ndarray F 4) (displacement : list Z)
    (frame_shape : list nat) : result (ndarray F 4) :=
  pad_width ← pad_widths (shape array) displacement frame_shape;
  if existsb (fun w => negb (w.1 =? 0) || negb (w.2 =? 0)) pad_width
  then Ok (np_pad f_zero array pad_width)
  else Ok array.

(** Lines 256-263. *)
Definition _update_reference
    (sums counts : ndarray F 4) (offset displacement : list Z)
    (image : ndarray F 4)
  : result (ndarray F 4 * ndarray F 4 * list Z) :=
  at_ ← np2 Z.add displacement offset;
  sums ← _resize_array sums at_ (shape image);
  counts ← _resize_array counts at_ (shape image);
  offset ← np2 Z.max offset (Z.opp <$> displacement);
  sc ← _update_sums_and_counts sums counts offset displacement image;
  Ok (sc.1, sc.2, offset).
End Accumulator.

(** ** The pyramid alignment engine *)

(** A (2, D) bounds array, column by column: entry [j] is
    [(bounds[0][j], bounds[1][j])]. *)
Definition bounds_t : Type := list (Z * Z).

(** The primitives the engine calls. [align_cross_correlation] is the
    external base alignment primitive (its displacement component; it is
    taken to leave its arguments as they are) and [gaussian_filter] is
    SciPy's, which returns a new array; [shifted_corr] is the floating-point
    scorer of lines 380-396, which subtracts the channel means from the
    overlapping views of both arguments in place: it yields the finite
    correlation together with the two images as it leaves them, and
    [None] when it raises. [score_gt] is [>] on finite floats. *)
Class PyramidEnv (F Score : Type) : Type := {
  gaussian_filter : ndarray F 4 -> list F -> ndarray F 4;
  align_cross_correlation :
    ndarray F 4 -> ndarray F 4 -> option bounds_t -> option (list Z);
  shifted_corr :
    ndarray F 4 -> ndarray F 4 -> list Z ->
    option (Score * ndarray F 4 * ndarray F 4);
  score_gt : Score -> Score -> bool
}.

(** [l[::2]] *)
Fixpoint every_other {X} (l : list X) : list X :=
  match l with
  | [] => []
  | x :: l' => x :: match l' with [] => [] | _ :: l'' => every_other l'' end
  end.

Fixpoint nd_stride2 {X} (n : nat) (flags : list bool) : nd X n -> nd X n :=
  match n return nd X n -> nd X n with
  | O => fun a => a
  | S m => fun a : list (nd X m) =>
      let a' := nd_stride2 m (tl flags) <$> a in
      if hd false flags then every_other a' else a'
  end.

Definition strided_shape (sh : list nat) (flags : list bool) : list nat :=
  zip_with (fun s (f : bool) => if f then Nat.div2 (S s) else s) sh flags.

(** [np.nonzero(axes_bool)[0]] *)
Definition nonzero (axes_bool : list bool) : list nat :=
  (filter (fun p => p.2 = true) (zip (seq 0 (length axes_bool)) axes_bool)).*1.

(** [itertools.product] of the lists [ls]: lexicographic, the last
    position varying fastest. *)
Fixpoint product {X} (ls : list (list X)) : list (list X) :=
  match ls with
  | [] => [[]]
  | l :: ls' => x ← l; (fun t => x :: t) <$> product ls'
  end.

Definition bool_to_Z (b : bool) : Z := if b then 1%Z else 0%Z.

(** Lines 421-426. *)
Definition within_bounds (displacement : list Z) (bounds : option bounds_t)
  : result bool :=
  match bounds with
  | None => Ok true
  | Some b =>
      if length displacement =? length b
      then Ok (forallb id (zip_with (fun w d => (w.1 <=? d)%Z) b displacement)
               && forallb id (zip_with (fun w d => (w.2 >=? d)%Z) b displacement))
      else Raise (AssertionError AssertLenBounds)
  end.

Definition image (F : Type) : Type := ndarray F 4.

(** The state of the refinement loop: [best_corr] and [best_displacement]
    ([None] is the initial [-inf], [None] pair) and the two images, which
    [shifted_corr] updates in place. *)
Definition refine_state (F Score : Type) : Type :=
  option (Score * list Z) * image F * image F.

Section Pyramid.
Context {F Score : Type} `{FloatOps F} `{PyramidEnv F Score}.

(** Lines 399-414. *)
Definition pyr_down_3d (img : image F) (axes : list nat) : image F :=
  let in_axes := (fun i => bool_decide (i ∈ axes)) <$> seq 0 4 in
  let stdevs := (fun b : bool => if b then f_sigma else f_zero) <$> in_axes in
  let filtered_image := gaussian_filter img stdevs in
  NDArray (strided_shape (shape filtered_image) in_axes)
          (nd_stride2 4 in_axes (data filtered_image)).

(** Lines 417-418. *)
Definition base_alignment (reference target : image F)
    (bounds : option bounds_t) : result (list Z) :=
  of_option PrimitiveError (align_cross_correlation reference target bounds).

(** The body of the loop of lines 451-458. *)
Definition refine_step (axes_bool : list bool) (disp : list Z)
    (bounds : option bounds_t) (st : refine_state F Score) (adjustment : list Z)
  : result (refine_state F Score) :=
  let '(best, reference, target) := st in
  up ← np2 Z.mul ((fun a => 1 + bool_to_Z a)%Z <$> axes_bool) disp;
  displacement ← np2 Z.add up adjustment;
  ok ← within_bounds displacement bounds;
  if ok : bool then
    match shifted_corr reference target displacement with
    | None => Raise PrimitiveError
    | Some (corr, reference', target') =>
        let better :=
          match best with
          | None => true
          | Some (best_corr, _) => score_gt corr best_corr
          end in
        Ok (if better then Some (corr, displacement) else best,
            reference', target')
    end
  else Ok st.

Fixpoint refine_loop (axes_bool : list bool) (disp : list Z)
    (bounds : option bounds_t) (adjustments : list (list Z))
    (st : refine_state F Score) : result (refine_state F Score) :=
  match adjustments with
  | [] => Ok st
  | adjustment :: rest =>
      st' ← refine_step axes_bool disp bounds st adjustment;
      refine_loop axes_bool disp bounds rest st'
  end.

Definition adjustments (axes_bool : list bool) : list (list Z) :=
  product ((fun a : bool => if a then [-1; 0; 1]%Z else [0%Z]) <$> axes_bool).

(** [max_levels]: [None] is [np.inf] (the default [None] is replaced by
    it on entry, and [np.inf - 1] is [np.inf]). *)
Definition levels_positive (max_levels : option Z) : bool :=
  match max_levels with None => true | Some k => (0 <? k)%Z end.
Definition levels_pred (max_levels : option Z) : option Z :=
  (fun k => k - 1)%Z <$> max_levels.

Definition bounds_ordered (bounds : option bounds_t) : bool :=
  match bounds with
  | None => true
  | Some b => forallb (fun w => (w.1 <? w.2)%Z) b
  end.

(** [smallest_shape >= 2 * np.array(min_shape)]; an [int] [min_shape]
    is the one-entry list. *)
Definition axes_of (reference target : image F) (min_shape : list Z)
  : result (list bool) :=
  smallest_shape ← np2 Nat.min (removelast (shape reference))
                               (removelast (shape target));
  np2 (fun s m => (2 * m <=? Z.of_nat s)%Z) smallest_shape min_shape.

(** [bounds / (1 + axes_bool)] *)
Definition halve_bounds (bounds : option bounds_t) (axes_bool : list bool)
  : result (option bounds_t) :=
  match bounds with
  | None => Ok None
  | Some b =>
      Some <$> np2 (fun (w : Z * Z) (a : bool) =>
                      (w.1 / (1 + bool_to_Z a), w.2 / (1 + bool_to_Z a))%Z)
                   b axes_bool
  end.

(** Lines 438-462, with [rec] standing for the recursive call of lines
    446-448; the result carries the two images as the call leaves
    them. *)
Definition pyramid_level
    (rec : image F -> image F -> list Z -> option Z -> option bounds_t ->
           result (list Z * image F * image F))
    (reference target : image F) (min_shape : list Z)
    (max_levels : option Z) (bounds : option bounds_t)
  : result (list Z * image F * image F) :=
  if negb (bounds_ordered bounds)
  then Raise (AssertionError AssertBoundsOrdered)
  else
    axes_bool ← axes_of reference target min_shape;
    if levels_positive max_levels && existsb id axes_bool then
      let axes := nonzero axes_bool in
      new_bounds ← halve_bounds bounds axes_bool;
      coarse ← rec (pyr_down_3d reference axes) (pyr_down_3d target axes)
                   min_shape (levels_pred max_levels) new_bounds;
      let disp := coarse.1.1 in
      st ← refine_loop axes_bool disp bounds (adjustments axes_bool)
             (None, reference, target);
      match st.1.1 with
      | None => Raise (AssertionError AssertNoCandidate)
      | Some (_, best_displacement) => Ok (best_displacement, st.1.2, st.2)
      end
    else
      d ← base_alignment reference target bounds;
      Ok (d, reference, target).

(** Lines 429-462. [depth] is the number of nested calls Python still
    allows. *)
Fixpoint pyramid_align (depth : nat)
  : image F -> image F -> list Z -> option Z -> option bounds_t ->
    result (list Z * image F * image F) :=
  match depth with
  | O => fun _ _ _ _ _ => Raise RecursionError
  | S depth' => pyramid_level (pyramid_align depth')
  end.
End Pyramid.

(** ** Elementwise binary operations on arrays *)

Fixpoint broadcast_shape (s1 s2 : list nat) : option (list nat) :=
  match s1, s2 with
  | [], [] => Some []
  | a :: s1', b :: s2' =>
      t ← broadcast_shape s1' s2';
      if a =? b then Some (a :: t)
      else if b =? 1 then Some (a :: t)
      else if a =? 1 then Some (b :: t)
      else None
  | _, _ => None
  end.

Fixpoint nd_op2 {A B C} (f : A -> B -> C) (n : nat)
  : nd A n -> nd B n -> nd C n :=
  match n return nd A n -> nd B n -> nd C n with
  | O => f
  | S m => fun (a : list (nd A m)) (b : list (nd B m)) =>
      if length a =? length b then zip_with (nd_op2 f m) a b
      else match a, b with
           | _, [y] => (fun x => nd_op2 f m x y) <$> a
           | [x], _ => nd_op2 f m x <$> b
           | _, _ => []
           end
  end.

Definition np_op2 {A B C n} (f : A -> B -> C) (a : ndarray A n)
    (b : ndarray B n) : result (ndarray C n) :=
  match broadcast_shape (shape a) (shape b) with
  | Some sh => Ok (NDArray sh (nd_op2 f n (data a) (data b)))
  | None => Raise (ValueError Broadcast)
  end.

(** [a[i]] along the first axis, and [np.expand_dims(a, 0)]. *)
Definition np_index {A n} (a : ndarray A (S n)) (i : nat)
  : result (ndarray A n) :=
  match (data a : list (nd A n)) !! i with
  | Some x => Ok (NDArray (tl (shape a)) x)
  | None => Raise IndexError
  end.

Definition expand_dims0 {A n} (a : ndarray A n) : ndarray A (S n) :=
  @NDArray A (S n) (1 :: shape a) [data a].

(** [l[i] = f(l[i])] with Python's range check. *)
Definition update_at {X} (i : nat) (f : X -> result X) (l : list X)
  : result (list X) :=
  match l !! i with
  | Some x => x' ← f x; Ok (<[i := x']> l)
  | None => Raise IndexError
  end.

(** [np.min(rows, axis=0)] and [np.max(rows, axis=0)] over the rows of a
    2-D array. *)
Definition col_reduce (f : Z -> Z -> Z) (rows : list (list Z))
  : result (list Z) :=
  match rows with
  | [] => Raise (ValueError EmptyReduction)
  | r :: rs => Ok (foldl (zip_with f) r rs)
  end.

(** ** The frame alignment coordinator *)

(** The process-shared namespace of lines 102-111: field [ns_x] is
    [namespace.x]. Every access to it is made under the global lock, so
    the steps of the workers are interleaved, never simultaneous; the
    model runs the planes and frames one after another. *)
Record Namespace (F : Type) : Type := MkNamespace {
  ns_offset : list Z;
  ns_pixel_counts : ndarray F 4;
  ns_pixel_sums : ndarray F 4;
  ns_shifts : list (list (list (list Z)));      (* [cycle][frame][plane] *)
  ns_correlations : list (list (list F))        (* [cycle][frame][plane] *)
}.
Arguments MkNamespace {F} _ _ _ _ _.
Arguments ns_offset {F} _.
Arguments ns_pixel_counts {F} _.
Arguments ns_pixel_sums {F} _.
Arguments ns_shifts {F} _.
Arguments ns_correlations {F} _.

(** A computation on the namespace that may raise; what was already
    assigned to the namespace stays assigned when it does. *)
Definition Shared (F A : Type) : Type := Namespace F -> Namespace F * result A.

Definition sh_ret {F A} (a : A) : Shared F A := fun ns => (ns, Ok a).
Definition sh_bind {F A B} (m : Shared F A) (k : A -> Shared F B)
  : Shared F B :=
  fun ns => match m ns with
            | (ns', Ok a) => k a ns'
            | (ns', Raise e) => (ns', Raise e)
            end.
Definition sh_lift {F A} (r : result A) : Shared F A := fun ns => (ns, r).
Definition sh_read {F A} (f : Namespace F -> A) : Shared F A :=
  fun ns => (ns, Ok (f ns)).
Definition sh_write {F} (f : Namespace F -> Namespace F) : Shared F unit :=
  fun ns => (f ns, Ok tt).

Notation "x <~ m ;; k" := (sh_bind m (fun x => k))
  (at level 100, m at next level, right associativity).

Definition set_correlations {F} (c : list (list (list F))) (ns : Namespace F) :=
  MkNamespace (ns_offset ns) (ns_pixel_counts ns) (ns_pixel_sums ns)
              (ns_shifts ns) c.
Definition set_shifts {F} (s : list (list (list (list Z)))) (ns : Namespace F) :=
  MkNamespace (ns_offset ns) (ns_pixel_counts ns) (ns_pixel_sums ns)
              s (ns_correlations ns).
Definition set_reference {F}
    (r : ndarray F 4 * ndarray F 4 * list Z) (ns : Namespace F) :=
  MkNamespace r.2 r.1.2 r.1.1 (ns_shifts ns) (ns_correlations ns).

(** The search as the coordinator calls it: reference, target, bounds. *)
Definition search_t (F : Type) : Type :=
  image F -> image F -> option bounds_t -> result (list Z * image F * image F).

Section Coordinator.
Context {F Score : Type} `{FloatOps F} `{PyramidEnv F Score}.

(** Lines 219-229. *)
Definition displacement_bounds (max_displacement : option (list Z))
    (shifts : list (list (list (list Z)))) (p_offset : list Z)
  : result (option bounds_t) :=
  match max_displacement with
  | None => Ok None
  | Some md =>
      if forallb (fun m => (m >=? 0)%Z) md then
        let rows := concat (concat shifts) in
        min_shift ← col_reduce Z.min rows;
        max_shift ← col_reduce Z.max rows;
        a ← np2 Z.sub max_shift md;
        lower ← np2 Z.min a min_shift;
        b ← np2 Z.add min_shift md;
        upper ← np2 Z.max b max_shift;
        lo ← np2 Z.add p_offset lower;
        hi ← np2 Z.add p_offset upper;
        Ok (Some (zip lo hi))
      else Ok None
  end.

(** Lines 233-236. *)
Definition check_shift (shift : list Z) (bounds : option bounds_t)
    (p_offset : list Z) (max_displacement : option (list Z))
  : result unit :=
  match bounds with
  | None => Ok tt
  | Some b =>
      ge ← np2 Z.geb shift b.*1;
      le ← np2 Z.leb shift b.*2;
      d ← np2 Z.sub shift p_offset;
      near ← np2 Z.leb (Z.abs <$> d) (default [] max_displacement);
      if forallb id ge && forallb id le && forallb id near then Ok tt
      else Raise (AssertionError AssertShiftInBounds)
  end.

(** The seed branch, lines 197-207. *)
Definition seed_plane (frame_idx cycle_idx p : nat) (plane : ndarray F 3)
  : Shared F unit :=
  corrs <~ sh_read ns_correlations;;
  corrs <~ sh_lift (update_at cycle_idx (update_at frame_idx
             (update_at p (fun _ => Ok f_one))) corrs);;
  _ <~ sh_write (set_correlations corrs);;
  s <~ sh_read ns_shifts;;
  s <~ sh_lift (update_at cycle_idx (update_at frame_idx
             (update_at p (fun row => Ok ((fun _ => 0%Z) <$> row)))) s);;
  _ <~ sh_write (set_shifts s);;
  ns <~ sh_read id;;
  r <~ sh_lift (_update_reference (ns_pixel_sums ns) (ns_pixel_counts ns)
             (ns_offset ns) [Z.of_nat p; 0%Z; 0%Z] (expand_dims0 plane));;
  sh_write (set_reference r).

(** The search branch, lines 208-253. *)
Definition search_plane (search : search_t F) (frame_idx cycle_idx p : nat)
    (plane : ndarray F 3) (method : string)
    (max_displacement : option (list Z)) : Shared F unit :=
  ns <~ sh_read id;;
  p_sums <~ sh_lift (np_index (ns_pixel_sums ns) p);;
  p_counts <~ sh_lift (np_index (ns_pixel_counts ns) p);;
  let p_offset := ns_offset ns in
  let shifts := ns_shifts ns in
  reference <~ sh_lift (np_op2 f_div p_sums p_counts);;
  found <~ sh_lift (
    if String.eqb method "correlation" then
      bounds ← displacement_bounds max_displacement shifts p_offset;
      r ← search (expand_dims0 reference) (expand_dims0 plane) bounds;
      _ ← check_shift r.1.1 bounds p_offset max_displacement;
      Ok r
    else if String.eqb method "ECC" then Raise NotImplementedError
    else Raise (ValueError UnrecognizedMethod));;
  let shift := found.1.1 in
  (* the target passed to the search is a view of the plane *)
  let plane_after := found.2 in
  s <~ sh_read ns_shifts;;
  rel <~ sh_lift (np2 Z.sub shift p_offset);;
  s <~ sh_lift (update_at cycle_idx (update_at frame_idx
             (update_at p (fun row => assign_rows (length row) rel))) s);;
  _ <~ sh_write (set_shifts s);;
  ns <~ sh_read id;;
  shift <~ sh_lift (
    c ← of_option IndexError (ns_shifts ns !! cycle_idx);
    f ← of_option IndexError (c !! frame_idx);
    of_option IndexError (f !! p));;
  r <~ sh_lift (_update_reference (ns_pixel_sums ns) (ns_pixel_counts ns)
             (ns_offset ns) (Z.of_nat p :: tl shift) plane_after);;
  sh_write (set_reference r).

(** The body of the loop over the planes of a frame, lines 191-253. *)
Definition align_plane (search : search_t F) (frame_idx cycle_idx : nat)
    (method : string) (max_displacement : option (list Z))
    (p : nat) (plane : ndarray F 3) : Shared F unit :=
  counts <~ sh_read ns_pixel_counts;;
  p_counts <~ sh_lift (np_index counts p);;
  let any_check := nd_any f_truthy 3 (data p_counts) in
  if any_check
  then search_plane search frame_idx cycle_idx p plane method max_displacement
  else seed_plane frame_idx cycle_idx p plane.

Fixpoint align_planes_from (search : search_t F) (frame_idx cycle_idx : nat)
    (method : string) (max_displacement : option (list Z))
    (p : nat) (planes : list (ndarray F 3)) : Shared F unit :=
  match planes with
  | [] => sh_ret tt
  | plane :: rest =>
      _ <~ align_plane search frame_idx cycle_idx method max_displacement
             p plane;;
      align_planes_from search frame_idx cycle_idx method max_displacement
             (S p) rest
  end.

(** The planes of a frame in order. *)
Definition planes_of (frame : ndarray F 4) : list (ndarray F 3) :=
  @NDArray F 3 (tl (shape frame)) <$> (data frame : list (nd F 3)).

(** Lines 161-253, for [inputs = (frame_idx, frame, cycle_idx, method,
    max_displacement)]. *)
Definition align_frame_with (search : search_t F)
    (frame_idx : nat) (frame : ndarray F 4) (cycle_idx : nat)
    (method : string) (max_displacement : option (list Z))
  : Shared F unit :=
  let max_displacement := (fun md => 0%Z :: md) <$> max_displacement in
  align_planes_from search frame_idx cycle_idx method max_displacement
                    0 (planes_of frame).

(** The call of line 230: default [min_shape=32], [max_levels=None]. *)
Definition default_search (recursion_limit : nat) : search_t F :=
  fun reference target bounds =>
    pyramid_align recursion_limit reference target [32%Z] None bounds.

Definition _align_frame (recursion_limit : nat) :=
  align_frame_with (default_search recursion_limit).
End Coordinator.

(** ** Plane drift correction *)

(** [astype(int)] of a float: truncation toward zero. Means of integer
    shifts are taken as exact rationals. *)
Definition Qtrunc (q : Q) : Z := Z.quot (Qnum q) (Zpos (Qden q)).

(** [nanmean(rows, axis=0)] for rows of integers (which hold no NaN). *)
Definition nanmean_rows (rows : list (list Z)) : result (list Q) :=
  sums ← col_reduce Z.add rows;
  Ok (fmap (M:=list) (fun s => Qmake s (Pos.of_nat (length rows))) sums).

(** Lines 141-147. The list handed to [nanmean] chains the cycles and
    then the frames, so its rows are the shifts of all frames and planes. *)
Definition _align_planes (shifts : list (list (list (list Z))))
  : result (list (list (list (list Z)))) :=
  mean_shift ← nanmean_rows (concat (concat shifts));
  m0 ← of_option IndexError (mean_shift !! 0);
  let alteration := fmap (M:=list) (fun m => Qtrunc (m - m0)) mean_shift in
  mapM (mapM (mapM (fun row => np2 Z.sub row alteration))) shifts.

(** The correction in the words of the specification: one mean per
    plane, over all cycles and frames, and each plane moved by the
    integer part of the difference between its mean and that of plane
    zero. *)
Definition plane_rows (shifts : list (list (list (list Z)))) (p : nat)
  : list (list Z) :=
  omap (fun frame : list (list Z) => frame !! p) (concat shifts).

Definition plane_alteration (shifts : list (list (list (list Z)))) (p : nat)
  : result (list Z) :=
  mean_p ← nanmean_rows (plane_rows shifts p);
  mean_0 ← nanmean_rows (plane_rows shifts 0);
  np2 (fun m m0 => Qtrunc (m - m0)) mean_p mean_0.

Definition drift_correction_spec (shifts : list (list (list (list Z))))
  : result (list (list (list (list Z)))) :=
  mapM (mapM (fun frame : list (list Z) =>
    mapM (fun pr : nat * list Z =>
            alteration ← plane_alteration shifts pr.1;
            np2 Z.sub pr.2 alteration)
         (zip (seq 0 (length frame)) frame))) shifts.

(** ** The engine, lines 74-158 *)

(** Lines 95-100; [cpu_count] is [multiprocessing.cpu_count()]. *)
Definition n_pools (n_processes : option Z) (cpu_count : Z) : Z :=
  match n_processes with
  | None => (cpu_count / 2)%Z
  | Some n => if (n =? 0)%Z then 1%Z else n
  end.

Record Dataset (F : Type) : Type := MkDataset {
  frame_shape : list nat;               (* planes, rows, columns, channels *)
  cycles : list (list (ndarray F 4))
}.
Arguments MkDataset {F} _ _.
Arguments frame_shape {F} _.
Arguments cycles {F} _.

Section Engine.
Context {F Score : Type} `{FloatOps F} `{PyramidEnv F Score}.

(** Lines 104-111; [uninit] is what [np.empty] leaves in the
    correlation records. *)
Definition initial_namespace (uninit : F) (dataset : Dataset F)
  : Namespace F :=
  let planes := hd 0 (frame_shape dataset) in
  MkNamespace
    [0; 0; 0]%Z
    (NDArray (frame_shape dataset) (nd_full 4 (frame_shape dataset) f_zero))
    (NDArray (frame_shape dataset) (nd_full 4 (frame_shape dataset) f_zero))
    ((fun seq => replicate (length seq) (replicate planes [0; 0; 0]%Z))
       <$> cycles dataset)
    ((fun seq => replicate (length seq) (replicate planes uninit))
       <$> cycles dataset).

(** The frames of one cycle, taken in order (the [it.imap] path of a
    single worker). *)
Fixpoint align_cycle (recursion_limit : nat) (method : string)
    (max_displacement : option (list Z)) (cycle_idx frame_idx : nat)
    (frames : list (ndarray F 4)) : Shared F unit :=
  match frames with
  | [] => sh_ret tt
  | frame :: rest =>
      _ <~ _align_frame recursion_limit frame_idx frame cycle_idx method
             max_displacement;;
      align_cycle recursion_limit method max_displacement cycle_idx
             (S frame_idx) rest
  end.

Fixpoint align_cycles (recursion_limit : nat) (method : string)
    (max_displacement : option (list Z)) (cycle_idx : nat)
    (cs : list (list (ndarray F 4))) : Shared F unit :=
  match cs with
  | [] => sh_ret tt
  | cycle :: rest =>
      _ <~ align_cycle recursion_limit method max_displacement cycle_idx 0
             cycle;;
      align_cycles recursion_limit method max_displacement (S cycle_idx) rest
  end.

(** Lines 74-158 with the frames aligned in dispatch order.
    [multiprocessing.Pool] refuses a size below one. *)
Definition _frame_alignment_base (recursion_limit : nat) (cpu_count : Z)
    (uninit : F) (dataset : Dataset F) (max_displacement : option (list Z))
    (method : string) (n_processes : option Z)
  : result (list (list (list (list Z))) * list (list (list F))) :=
  let ns0 := initial_namespace uninit dataset in
  if (n_pools n_processes cpu_count <? 1)%Z then Raise (ValueError PoolSize)
  else
    let '(ns, r) := align_cycles recursion_limit method max_displacement 0
                      (cycles dataset) ns0 in
    _ ← r;
    shifts ← _align_planes (fmap (M:=list) (fmap (M:=list) (fmap (M:=list) tl)) (ns_shifts ns));
    Ok (shifts, ns_correlations ns).
End Engine.

(** * The vocabulary of the statements *)

(** ** Arrays *)

(** The element of the operand that an in-place operation at the given
    starts pairs with index [idx] of the target. *)
Fixpoint nd_get_rel {B} (n : nat) (starts idx : list nat) : nd B n -> option B :=
  match n return nd B n -> option B with
  | O => fun b => match idx with [] => Some b | _ => None end
  | S m => fun b : list (nd B m) =>
      match idx with
      | [] => None
      | i :: idx' =>
          if hd 0 starts <=? i
          then b !! (i - hd 0 starts) ≫= nd_get_rel m (tl starts) idx'
          else None
      end
  end.

(** The slices select a block of the operand's shape inside the target. *)
Fixpoint fits (sh eb : list nat) (sl : list (nat * nat)) : Prop :=
  match sh, eb with
  | [], [] => True
  | s :: sh', e :: eb' =>
      let w := match sl with [] => (0, s) | w :: _ => w end in
      w.2 - w.1 = e /\ w.1 + e <= s /\ fits sh' eb' (tl sl)
  | _, _ => False
  end.

(** ** The accumulator *)

(** The element at coordinate [x] of the reference frame and channel [c]:
    the array index is [x + offset]. *)
Definition cell {A} (a : ndarray A 4) (offset x : list Z) (c : nat) : option A :=
  let pos := zip_with Z.add x offset in
  if forallb (Z.leb 0) pos then get a ((Z.to_nat <$> pos) ++ [c]) else None.

(** What an update with displacement [d] adds at coordinate [x]: the
    element of the image at [x - d], when there is one. *)
Definition deposit {A B} (g : A -> B -> A) (img : ndarray B 4)
    (d x : list Z) (c : nat) (v : A) : A :=
  match cell img (Z.opp <$> d) x c with
  | Some b => g v b
  | None => v
  end.

(** The extent of an axis of extent [s] after it is resized for a block
    of extent [e] inserted at [at_]. *)
Definition grown (s e : nat) (at_ : Z) : nat :=
  Z.to_nat (- Z.min 0 at_) + s
  + Z.to_nat (Z.max 0 (at_ + Z.of_nat e - Z.of_nat s)).

(** A sequence of calls of [_update_reference], each on the result of
    the one before. *)
Fixpoint update_all {F} `{FloatOps F} (sums counts : ndarray F 4)
    (offset : list Z) (ups : list (list Z * ndarray F 4))
  : result (ndarray F 4 * ndarray F 4 * list Z) :=
  match ups with
  | [] => Ok (sums, counts, offset)
  | u :: rest =>
      r ← _update_reference sums counts offset u.1 u.2;
      update_all r.1.1 r.1.2 r.2 rest
  end.

(** An image that [_update_reference] can add into an accumulator whose
    channel axis has extent [channels]. *)
Definition compatible {F} (channels : option nat) (u : list Z * ndarray F 4)
  : Prop :=
  length u.1 = 3 /\ wf_array u.2 = true /\ last (shape u.2) = channels.

(** The block written by an update lies inside the resized array. *)
Definition write_in_range (at_ : list Z) (extent size : list nat) : Prop :=
  Forall (fun pes : Z * (nat * nat) =>
            (0 <= pes.1 /\ pes.1 + Z.of_nat pes.2.1 <= Z.of_nat pes.2.2)%Z)
         (zip at_ (zip extent size)).

Section Deposits.
Context {F : Type} `{FloatOps F}.

Definition sums_deposit (u : list Z * ndarray F 4) (x : list Z) (c : nat)
    (v : F) : F :=
  deposit f_add (np_map f_nan_to_num u.2) u.1 x c v.

Definition counts_deposit (u : list Z * ndarray F 4) (x : list Z) (c : nat)
    (v : F) : F :=
  deposit (fun n b => f_add n (f_of_bool b)) (np_map f_isfinite u.2) u.1 x c v.
End Deposits.

(** ** The pyramid *)

(** The extent of an axis after [pyr_down_3d]: halved, rounding up, when
    the axis is downsampled. *)
Definition halved (b : bool) (r : nat) : nat := if b then Nat.div2 (S r) else r.

(** The sum of the spatial extents of an image. *)
Definition spatial_extent {F} (img : image F) : nat :=
  sum_list (removelast (shape img)).

(** The coarse displacement brought to the current resolution: doubled
    on the downsampled axes. *)
Definition upscaled (axes_bool : list bool) (disp : list Z) : list Z :=
  zip_with (fun (a : bool) x => if a then (2 * x)%Z else x) axes_bool disp.

(** An adjustment of the local refinement: -1, 0 or +1 on a downsampled
    axis and 0 on the others. *)
Definition is_adjustment (axes_bool : list bool) (adj : list Z) : Prop :=
  Forall2 (fun (a : bool) x => if a then x ∈ [-1; 0; 1]%Z else x = 0%Z)
          axes_bool adj.

Definition candidates (axes_bool : list bool) (disp : list Z)
    (adjs : list (list Z)) : list (list Z) :=
  zip_with Z.add (upscaled axes_bool disp) <$> adjs.

Definition in_bounds (bounds : option bounds_t) (d : list Z) : bool :=
  match within_bounds d bounds with Ok true => true | _ => false end.

(** No displacement of the right length makes [within_bounds] fail its
    own assertion. *)
Definition bounds_fit (bounds : option bounds_t) (n : nat) : Prop :=
  match bounds with Some b => length b = n | None => True end.

Section Scores.
Context {F Score : Type} `{FloatOps F} `{PyramidEnv F Score}.

(** The candidate kept by the refinement loop has passed the bounds
    test. *)
Definition kept_in_bounds (bounds : option bounds_t) (st : refine_state F Score)
  : Prop :=
  forall c d, st.1.1 = Some (c, d) -> within_bounds d bounds = Ok true.

(** The scores [shifted_corr] gives to the displacements [cs] in order,
    each computed on the images as the call before left them; and the
    images after the last call. *)
Fixpoint score_all (reference target : image F) (cs : list (list Z))
  : option (list Score * image F * image F) :=
  match cs with
  | [] => Some ([], reference, target)
  | c :: cs' =>
      match shifted_corr reference target c with
      | None => None
      | Some (s, reference', target') =>
          match score_all reference' target' cs' with
          | None => None
          | Some (ss, r, t) => Some (s :: ss, r, t)
          end
      end
  end.

(** Lines 456-458. *)
Definition take_better (best : option (Score * list Z))
    (sd : Score * list Z) : option (Score * list Z) :=
  match best with
  | None => Some sd
  | Some (best_corr, _) => if score_gt sd.1 best_corr then Some sd else best
  end.
End Scores.

(** ** The coordinator *)

(** The record of a (cycle, frame, plane). *)
Definition slot {X} (cycle_idx frame_idx p : nat) (l : list (list (list X)))
  : option X :=
  l !! cycle_idx ≫= (fun c => c !! frame_idx ≫= (fun f => f !! p)).

(** ** Drift correction *)

(** The alteration [_align_planes] computes from column sums [sums] over
    [n] rows. *)
Definition alteration_of (sums : list Z) (n : positive) : list Z :=
  (fun s => Z.quot (s - hd 0%Z sums) (Zpos n)) <$> sums.

(** Every frame of [shifts] has [planes] rows of [dim] entries. *)
Definition rectangular (planes dim : nat) (shifts : list (list (list (list Z))))
  : Prop :=
  Forall (fun frame : list (list Z) =>
            length frame = planes /\ Forall (fun row => length row = dim) frame)
         (concat shifts).

(** The column sums of the shifts of plane [p]. *)
Definition plane_sums (shifts : list (list (list (list Z)))) (p : nat)
  : list Z :=
  match plane_rows shifts p with
  | [] => []
  | r :: rs => foldl (zip_with Z.add) r rs
  end.

(** The alteration of plane [p] from the column sums, over the number of
    frames. *)
Definition plane_alt (shifts : list (list (list (list Z)))) (p : nat)
  : list Z :=
  zip_with (fun s s0 =>
              Z.quot (s - s0) (Zpos (Pos.of_nat (length (concat shifts)))))
           (plane_sums shifts p) (plane_sums shifts 0).

(** Removing the alterations [alt] from the planes of every frame. *)
Definition shift_planes (alt : nat -> list Z)
    (shifts : list (list (list (list Z)))) : list (list (list (list Z))) :=
  fmap (M:=list) (fmap (M:=list)
    (imap (fun p (row : list Z) => zip_with Z.sub row (alt p)))) shifts.

(** * Examples: an instance over the integers *)

(** A float interface over the integers, for evaluating the model. *)
#[export] Instance Z_float : FloatOps Z := {|
  f_zero := 0%Z; f_one := 1%Z; f_add := Z.add; f_div := Z.div;
  f_nan_to_num := id; f_isfinite := fun _ => true;
  f_of_bool := fun b => if b then 1%Z else 0%Z;
  f_truthy := fun x => negb (x =? 0)%Z; f_sigma := 1%Z
|}.

(** An environment over the integers: no smoothing, a base primitive that
    answers with the lower bounds (or zero), and a score that prefers
    displacements of small magnitude. *)
#[export] Instance demo_env : PyramidEnv Z Z := {|
  gaussian_filter := fun img _ => img;
  align_cross_correlation := fun _ _ bounds =>
    match bounds with
    | None => Some [0; 0; 0]%Z
    | Some b => if forallb (fun w : Z * Z => (w.1 <=? w.2)%Z) b
                then Some b.*1 else None
    end;
  shifted_corr := fun r t d => Some ((- foldr Z.add 0 (Z.abs <$> d))%Z, r, t);
  score_gt := Z.gtb
|}.

Definition demo_frame : image Z :=
  NDArray [1; 4; 4; 1] (nd_full 4 [1; 4; 4; 1] 3%Z).

Definition demo_zeros : ndarray Z 4 := NDArray [1; 2; 2; 1] (nd_full 4 [1; 2; 2; 1] 0%Z).

Definition demo_image : ndarray Z 4 := NDArray [1; 2; 2; 1] (nd_full 4 [1; 2; 2; 1] 7%Z).

Definition demo_updates : list (list Z * ndarray Z 4) :=
  [([0; -1; 1]%Z, demo_image); ([0; 2; -3]%Z, demo_image)].

Definition demo_bounds : bounds_t := [(0, 1); (-3, 3); (1, 5)]%Z.

Definition demo_axes : list bool := [false; true; true].

Definition demo_coarse : list Z * image Z * image Z :=
  ([0; -2; 0]%Z, pyr_down_3d demo_frame (nonzero demo_axes),
   pyr_down_3d demo_frame (nonzero demo_axes)).

Definition demo_dataset : Dataset Z := MkDataset [1; 4; 4; 1] [[demo_frame]].

Definition demo_dataset2 : Dataset Z :=
  MkDataset [1; 4; 4; 1] [[demo_frame; demo_frame]].

Definition demo_namespace : Namespace Z := initial_namespace 0%Z demo_dataset2.

Definition demo_shifts : list (list (list (list Z))) :=
  [[ [[0; 0]; [0; 0]]; [[0; 0]; [4; 8]] ]]%Z.

Definition failing_search : search_t Z := fun _ _ _ => Raise PrimitiveError.

Definition demo_plane : ndarray Z 3 := NDArray [4; 4; 1] (nd_full 3 [4; 4; 1] 3%Z).

Definition demo_seeded : Namespace Z :=
  (_align_frame 10 0 demo_frame 0 "ECC" None demo_namespace).1.

(** * Further functions and vocabulary *)

(** ** Resized arrays *)

(** The index of the original array that index [idx] of the padded array
    comes from, when it is not in a low-side pad. *)
Definition unpad (pw : list (nat * nat)) (idx : list nat) : option (list nat) :=
  if forallb id (zip_with (fun (w : nat * nat) i => w.1 <=? i) pw idx)
  then Some (zip_with (fun (w : nat * nat) i => i - w.1) pw idx)
  else None.

(** The low-side pad width of an axis for a block placed at [at_]. *)
Definition pad_before (at_ : Z) : nat := Z.to_nat (- Z.min 0 at_).

(** ** The extent of the accumulator *)

(** The interval of reference-frame coordinates each spatial axis of the
    accumulator covers: array index [i] is the coordinate [i - offset]. *)
Definition extent (offset : list Z) (sh : list nat) : list (Z * Z) :=
  zip_with (fun o (s : nat) => (- o, - o + Z.of_nat s)%Z) offset sh.

(** The interval an image of shape [sh] covers when placed at [d]. *)
Definition placed (d : list Z) (sh : list nat) : list (Z * Z) :=
  zip_with (fun x (e : nat) => (x, x + Z.of_nat e)%Z) d sh.

(** The smallest intervals that contain both. *)
Definition hull (b1 b2 : list (Z * Z)) : list (Z * Z) :=
  zip_with (fun x y : Z * Z => (Z.min x.1 y.1, Z.max x.2 y.2)) b1 b2.

(** ** Slices with a negative start *)

(** Where a block of extent [e] placed at [p] on an axis of extent [s] is
    written: Python counts a negative slice bound from the end of the
    axis, so a block that lies before the end of the axis after that
    shift is written there. *)
Definition wrapped (s e : nat) (p : Z) : Z :=
  if ((- Z.of_nat s <=? p) && (p + Z.of_nat e <? 0))%Z
  then (p + Z.of_nat s)%Z else p.

(** The block does not fit the axis and must not be broadcast. *)
Definition sticks_out (s e : nat) (p : Z) : Prop :=
  (0 <= p)%Z /\ 2 <= e /\ (Z.of_nat s < p + Z.of_nat e)%Z.

(** ** Downsampling *)

(** Which of the four axes of an image [pyr_down_3d] downsamples. *)
Definition downsampled_axes (axes : list nat) : list bool :=
  (fun i => bool_decide (i ∈ axes)) <$> seq 0 4.

(** The index of the filtered image that [pyr_down_3d] reads for index
    [idx] of its result. *)
Definition doubled (flags : list bool) (idx : list nat) : list nat :=
  zip_with (fun (f : bool) i => if f then 2 * i else i) flags idx.

(** ** Drift correction, by columns *)


(** ** VolumeTranslation, lines 332-377 *)

(** What [_estimate] ends with: its result, the [StopIteration] of
    [next(iter(...))] on a dataset without a first frame, or another
    exception. *)
Inductive outcome (A : Type) : Type :=
  | Estimated (a : A)
  | StopIteration
  | Failed (e : exn).
Arguments Estimated {A} a.
Arguments StopIteration {A}.
Arguments Failed {A} e.

(** The variables of the loop of lines 354-376: the accumulator, the two
    rows of [disp_range] and the reference. *)
Record volume_state (F : Type) : Type := MkVolumeState {
  vs_sums : ndarray F 4;
  vs_counts : ndarray F 4;
  vs_offset : list Z;
  vs_lo : list Z;                         (* disp_range[0] *)
  vs_hi : list Z;                         (* disp_range[1] *)
  vs_reference : ndarray F 4
}.
Arguments MkVolumeState {F} _ _ _ _ _ _.
Arguments vs_sums {F} _.
Arguments vs_counts {F} _.
Arguments vs_offset {F} _.
Arguments vs_lo {F} _.
Arguments vs_hi {F} _.
Arguments vs_reference {F} _.

(** Lines 357-366. *)
Definition volume_bounds (max_displacement : option (list Z))
    (lo hi offset : list Z) : result (option bounds_t) :=
  match max_displacement with
  | None => Ok None
  | Some md =>
      a ← np2 Z.sub hi md;
      lower ← np2 Z.min a lo;
      b ← np2 Z.add lo md;
      upper ← np2 Z.max b hi;
      lower' ← np2 Z.add lower offset;
      upper' ← np2 Z.add upper offset;
      Ok (Some (zip lower' upper'))
  end.

Section VolumeTranslation.
Context {F Score : Type} `{FloatOps F} `{PyramidEnv F Score}.

(** The body of the loop over the frames, lines 357-375.  The frame is
    an array nothing else refers to (a sequence reads each frame anew);
    [pyramid_align] is called with its default [min_shape=32] and
    [max_levels=None], and the frame it leaves is the one added to the
    accumulator. *)
Definition volume_frame (recursion_limit : nat)
    (max_displacement : option (list Z)) (st : volume_state F)
    (frame : image F) : result (list Z * volume_state F) :=
  bounds ← volume_bounds max_displacement (vs_lo st) (vs_hi st) (vs_offset st);
  found ← pyramid_align recursion_limit (vs_reference st) frame [32%Z] None
             bounds;
  d ← np2 Z.sub found.1.1 (vs_offset st);
  lo ← (m ← np2 Z.min (vs_lo st) d; assign_rows 3 m);
  hi ← (m ← np2 Z.max (vs_hi st) d; assign_rows 3 m);
  r ← _update_reference (vs_sums st) (vs_counts st) (vs_offset st) d found.2;
  reference ← np_op2 f_div r.1.1 r.1.2;
  Ok (d, MkVolumeState r.1.1 r.1.2 r.2 lo hi reference).

(** The loop over the frames of a sequence, lines 355-376. *)
Fixpoint volume_sequence (recursion_limit : nat)
    (max_displacement : option (list Z)) (st : volume_state F)
    (frames : list (image F)) : result (list (list Z) * volume_state F) :=
  match frames with
  | [] => Ok ([], st)
  | frame :: rest =>
      r ← volume_frame recursion_limit max_displacement st frame;
      rs ← volume_sequence recursion_limit max_displacement r.2 rest;
      Ok (r.1 :: rs.1, rs.2)
  end.

(** The loop over the sequences, lines 354-376. *)
Fixpoint volume_sequences (recursion_limit : nat)
    (max_displacement : option (list Z)) (st : volume_state F)
    (sequences : list (list (image F)))
  : result (list (list (list Z)) * volume_state F) :=
  match sequences with
  | [] => Ok ([], st)
  | sequence :: rest =>
      r ← volume_sequence recursion_limit max_displacement st sequence;
      rs ← volume_sequences recursion_limit max_displacement r.2 rest;
      Ok (r.1 :: rs.1, rs.2)
  end.

(** Lines 348-353. *)
Definition volume_start (reference : image F) : volume_state F :=
  let zeros := NDArray (shape reference)
                       (nd_full 4 (shape reference) f_zero) in
  MkVolumeState zeros zeros [0; 0; 0]%Z [0; 0; 0]%Z [0; 0; 0]%Z reference.

(** [VolumeTranslation._estimate], lines 347-377. *)
Definition VolumeTranslation_estimate (recursion_limit : nat)
    (max_displacement : option (list Z)) (dataset : list (list (image F)))
  : outcome (list (list (list Z))) :=
  match dataset with
  | (reference :: _) :: _ =>
      match volume_sequences recursion_limit max_displacement
              (volume_start reference) dataset with
      | Ok r => Estimated r.1
      | Raise e => Failed e
      end
  | _ => StopIteration
  end.
End VolumeTranslation.

(** The range of displacements recorded so far on one axis, [l] to [h],
    contains 0 and is no wider than the maximal displacement [m]. *)
Definition axis_ok (l h m : Z) : Prop := (l <= 0 <= h /\ h - l <= m)%Z.

(** The invariant of the loop of [VolumeTranslation._estimate] under a
    maximal displacement. *)
Definition range_ok {F} (md : list Z) (st : volume_state F) : Prop :=
  exists l0 l1 l2 h0 h1 h2 m0 m1 m2 : Z,
    vs_lo st = [l0; l1; l2] /\ vs_hi st = [h0; h1; h2] /\
    md = [m0; m1; m2] /\ length (vs_offset st) = 3 /\
    axis_ok l0 h0 m0 /\ axis_ok l1 h1 m1 /\ axis_ok l2 h2 m2.

(** Displacement [d] lies within the recorded range. *)
Definition in_range {F} (st : volume_state F) (d : list Z) : Prop :=
  Forall2 (fun (lh : Z * Z) x => (lh.1 <= x <= lh.2)%Z)
          (zip (vs_lo st) (vs_hi st)) d.

(** ** The correlation of shifted images, lines 380-396 *)

(** The floating-point operations of [shifted_corr] beyond [FloatOps];
    the reductions are functions of the elements in C order. *)
Class CorrOps (F : Type) : Type := {
  f_sub : F -> F -> F;
  f_mul : F -> F -> F;
  f_sqrt : F -> F;                 (* np.sqrt *)
  f_sum : list F -> F;             (* np.sum *)
  f_mean : list F -> F;            (* np.mean *)
  f_nanmean : list F -> F          (* nanmean of one column *)
}.

(** What [shifted_corr] raises. *)
Inductive corr_exn : Type :=
  | CorrIndexError           (* ref_cuts[k], lines 382 and 384 *)
  | CorrReshape              (* reshape(-1, 0), lines 388 and 390 *)
  | CorrInputsNotFinite      (* the assertion of line 392 *)
  | CorrNotFinite.           (* the assertion of line 395 *)

(** Lines 381-387 on the shapes: the slices of the reference and of the
    image, axis by axis, as (start, stop) pairs.  A start beyond the end
    of an axis selects nothing. *)
Definition overlap_windows (rshape ishape : list nat) (displacement : list Z)
  : option (list (nat * nat) * list (nat * nat)) :=
  match displacement with
  | d0 :: d1 :: d2 :: _ =>
      let ref_cuts := (fun d => Z.to_nat (Z.max 0 d)) <$> [d0; d1; d2] in
      let im_cuts := (fun d => Z.to_nat (Z.max 0 (- d))) <$> [d0; d1; d2] in
      let ref_shape := zip_with (fun s c => s - c) rshape ref_cuts in
      let im_shape := zip_with (fun s c => s - c) ishape im_cuts in
      let s := zip_with Nat.min im_shape ref_shape in
      Some (zip_with (fun c e => (c, c + e)) ref_cuts s,
            zip_with (fun c e => (c, c + e)) im_cuts s)
  | _ => None
  end.

(** [a[s0:e0, s1:e1, ...]] on the elements; axes without a slice are
    taken whole. *)
Fixpoint nd_window {A} (n : nat) (sl : list (nat * nat)) : nd A n -> nd A n :=
  match n return nd A n -> nd A n with
  | O => fun a => a
  | S m => fun a : list (nd A m) =>
      let s := match sl with [] => (0, length a) | s :: _ => s end in
      nd_window m (tl sl) <$> take (s.2 - s.1) (drop s.1 a)
  end.

(** [l[w.1:w.2]] replaced, element by element, by its image under [f]. *)
Definition splice_map {X} (w : nat * nat) (f : X -> X) (l : list X) : list X :=
  take w.1 l ++ (f <$> take (w.2 - w.1) (drop w.1 l)) ++ drop w.2 l.

(** [a[s0:e0, s1:e1, s2:e2] = f(...)] applied to every pixel (the entries
    along the last axis) of the window of a rank-4 array. *)
Definition on_window {A} (sl : list (nat * nat)) (f : list A -> list A)
    (a : nd A 4) : nd A 4 :=
  splice_map (nth 0 sl (0, 0))
    (splice_map (nth 1 sl (0, 0)) (splice_map (nth 2 sl (0, 0)) f))
    (a : list (list (list (list A)))).

(** [a.reshape(-1, a.shape[-1])]: the pixels in C order. *)
Definition pixels {A} (a : nd A 4) : list (list A) :=
  concat (concat (a : list (list (list (list A))))).

(** Column [c] of the pixels: the elements of channel [c] in C order. *)
Definition channel {A} (c : nat) (pxs : list (list A)) : list A :=
  omap (fun px : list A => px !! c) pxs.

Module Scorer.
Section Scorer.
Context {F : Type} `{FloatOps F} `{CorrOps F}.

(** [nanmean(a.reshape(-1, a.shape[-1]), axis=0)] *)
Definition channel_means (channels : nat) (pxs : list (list F)) : list F :=
  (fun c => f_nanmean (channel c pxs)) <$> seq 0 channels.

(** The term of one channel in line 393. *)
Definition channel_corr (i r : list F) : F :=
  f_div (f_sum (zip_with f_mul i r))
        (f_sqrt (f_mul (f_sum (zip_with f_mul i i))
                       (f_sum (zip_with f_mul r r)))).

(** Lines 380-396.  The views [ref] and [im] are windows of the two
    arguments, so the in-place subtractions of lines 388 and 390 change
    the arguments; [np.nan_to_num] returns new arrays.  The result is the
    correlation with the two arguments as the call leaves them. *)
Definition shifted_corr (reference image : ndarray F 4)
    (displacement : list Z)
  : corr_exn + (F * ndarray F 4 * ndarray F 4) :=
  match overlap_windows (shape reference) (shape image) displacement with
  | None => inl CorrIndexError
  | Some (rw, iw) =>
      let rc := default 0 (last (shape reference)) in
      let ic := default 0 (last (shape image)) in
      if rc =? 0 then inl CorrReshape else
      let ref_means :=
        channel_means rc (pixels (nd_window 4 rw (data reference))) in
      let reference' :=
        NDArray (shape reference)
          (on_window rw (fun px => zip_with f_sub px ref_means)
                     (data reference)) in
      let ref := nd_map f_nan_to_num 4 (nd_window 4 rw (data reference')) in
      if ic =? 0 then inl CorrReshape else
      let im_means :=
        channel_means ic (pixels (nd_window 4 iw (data image))) in
      let image' :=
        NDArray (shape image)
          (on_window iw (fun px => zip_with f_sub px im_means)
                     (data image)) in
      let im := nd_map f_nan_to_num 4 (nd_window 4 iw (data image')) in
      if nd_any (fun x => negb (f_isfinite x)) 4 ref
         || nd_any (fun x => negb (f_isfinite x)) 4 im
      then inl CorrInputsNotFinite
      else
        let corr :=
          f_mean (zip_with channel_corr
                    ((fun c => channel c (pixels im)) <$> seq 0 ic)
                    ((fun c => channel c (pixels ref)) <$> seq 0 rc)) in
        if f_isfinite corr then inr (corr, reference', image')
        else inl CorrNotFinite
  end.
End Scorer.
End Scorer.

(** Index [x] of an axis of the reference, of extent [r], has a partner
    in the image, of extent [i], displaced by [d]: the index [x - d]. *)
Definition overlaps (r i : nat) (d x : Z) : Prop :=
  (0 <= x < Z.of_nat r /\ 0 <= x - d < Z.of_nat i)%Z.

(** The first index that a displacement [d] leaves in use along an axis,
    and the number of indices that the reference, of extent [r], and the
    image, of extent [i], then have in common. *)
Definition axis_cut (d : Z) : nat := Z.to_nat (Z.max 0 d).
Definition axis_common (r i : nat) (d : Z) : nat :=
  Nat.min (i - axis_cut (- d)) (r - axis_cut d).

(** ** Examples for the correlation *)

(** The operations on the integers: integer square root and quotient. *)
#[export] Instance Z_corr : CorrOps Z := {|
  f_sub := Z.sub; f_mul := Z.mul; f_sqrt := Z.sqrt;
  f_sum := fun l => foldr Z.add 0%Z l;
  f_mean := fun l => (foldr Z.add 0 l / Z.of_nat (length l))%Z;
  f_nanmean := fun l => (foldr Z.add 0 l / Z.of_nat (length l))%Z
|}.

Definition demo_reference : image Z :=
  NDArray (n:=4) [1; 2; 3; 1] [[[[1]; [2]; [3]]; [[4]; [5]; [6]]]]%Z.

Definition demo_target : image Z :=
  NDArray (n:=4) [1; 2; 3; 1] [[[[10]; [20]; [30]]; [[40]; [50]; [60]]]]%Z.

(** * Properties *)

(** ** Arrays *)

Section ArrayFacts.
Context {A : Type}.
Implicit Types (sh : list nat) (pw : list (nat * nat)).

Lemma nd_shaped_cons m s sh (a : list (nd A m)) :
  nd_shaped (S m) (s :: sh) a = true <->
  length a = s /\ Forall (fun x => nd_shaped m sh x = true) a.
Proof.
  simpl. rewrite andb_true_iff, Nat.eqb_eq, forallb_forall, Forall_forall.
  setoid_rewrite <- list_elem_of_In. reflexivity.
Qed.

Lemma nd_shaped_nil m (a : list (nd A m)) : nd_shaped (S m) [] a = false.
Proof. reflexivity. Qed.
End ArrayFacts.

(** Present the elements of a rank [S m] array as the list they are. *)
Ltac nd_lists :=
  repeat match goal with
         | a : nd ?X (S ?m) |- _ => change (list (nd X m)) in (type of a)
         end.

Section PadFacts.
Context {A : Type}.
Implicit Types (sh : list nat) (pw : list (nat * nat)).

Lemma nd_full_shaped n : forall sh (x : A),
  length sh = n -> nd_shaped n sh (nd_full n sh x) = true.
Proof.
  induction n as [|m IH]; intros sh x Hlen.
  - destruct sh; [reflexivity | discriminate].
  - destruct sh as [|s sh']; [discriminate|].
    apply nd_shaped_cons. simpl. split.
    + apply length_replicate.
    + apply Forall_replicate. apply IH. simpl in Hlen. lia.
Qed.

Lemma padded_shape_length pw sh :
  length pw = length sh -> length (padded_shape pw sh) = length sh.
Proof. intros Hl. unfold padded_shape. rewrite length_zip_with; lia. Qed.

Lemma nd_pad_shaped fill n : forall pw sh (a : nd A n),
  length pw = n -> length sh = n ->
  nd_shaped n sh a = true ->
  nd_shaped n (padded_shape pw sh) (nd_pad fill n pw sh a) = true.
Proof.
  induction n as [|m IH]; intros pw sh a Hpw Hsh Ha.
  - destruct sh; [|discriminate]. destruct pw; reflexivity.
  - destruct sh as [|s sh']; [discriminate|].
    destruct pw as [|[lo hi] pw']; [discriminate|].
    simpl in Hpw, Hsh.
    apply nd_shaped_cons in Ha as [Hlen Hall].
    unfold padded_shape at 1. cbn [zip_with fst snd].
    apply nd_shaped_cons. cbn [nd_pad hd tl fst snd]. split.
    + rewrite !length_app, !length_replicate, length_fmap.
      subst s. rewrite Nat.add_assoc. reflexivity.
    + rewrite !Forall_app. repeat split.
      * apply Forall_replicate, nd_full_shaped.
        rewrite padded_shape_length; lia.
      * apply Forall_fmap. eapply Forall_impl; [exact Hall|].
        intros x Hx. simpl. apply IH; auto with lia.
      * apply Forall_replicate, nd_full_shaped.
        rewrite padded_shape_length; lia.
Qed.

Lemma nd_get_length n : forall idx (a : nd A n) v,
  nd_get n idx a = Some v -> length idx = n.
Proof.
  induction n as [|m IH]; intros idx a v Hg.
  - destruct idx; simpl in *; [reflexivity | discriminate].
  - destruct idx as [|i idx']; simpl in Hg; [discriminate|].
    apply bind_Some in Hg as (x & _ & Hg).
    simpl. f_equal. eauto.
Qed.

(** Padding moves every element by the leading pad widths and changes
    no value. *)
Lemma nd_get_pad fill n : forall pw sh idx (a : nd A n) v,
  length pw = n ->
  nd_get n idx a = Some v ->
  nd_get n (zip_with (fun w i => w.1 + i) pw idx) (nd_pad fill n pw sh a)
    = Some v.
Proof.
  induction n as [|m IH]; intros pw sh idx a v Hpw Hg.
  - destruct idx; simpl in Hg; [|discriminate].
    destruct pw; [|discriminate]. exact Hg.
  - destruct idx as [|i idx']; simpl in Hg; [discriminate|].
    destruct pw as [|[lo hi] pw']; [discriminate|].
    simpl in Hg, Hpw.
    apply bind_Some in Hg as (x & Hx & Hg).
    cbn [zip_with nd_pad nd_get hd tl fst snd].
    rewrite lookup_app_r by (rewrite length_replicate; lia).
    rewrite length_replicate.
    replace (lo + i - lo) with i by lia.
    rewrite lookup_app_l by (rewrite length_fmap; eapply lookup_lt_Some; eauto).
    rewrite list_lookup_fmap, Hx. simpl.
    apply IH; auto with lia.
Qed.
End PadFacts.

Section Splice.
Context {X : Type}.

Lemma lookup_splice (a mid : list X) st len j :
  st + len <= length a -> length mid = len ->
  (take st a ++ mid ++ drop (st + len) a) !! j =
  if (st <=? j) && (j <? st + len) then mid !! (j - st) else a !! j.
Proof.
  intros Hfit Hmid.
  destruct (Nat.leb_spec st j) as [Hle|Hlt]; simpl.
  - rewrite lookup_app_r by (rewrite length_take; lia).
    rewrite length_take, Nat.min_l by lia.
    destruct (Nat.ltb_spec j (st + len)) as [Hin|Hout].
    + rewrite lookup_app_l by lia. reflexivity.
    + rewrite lookup_app_r by lia. rewrite lookup_drop. f_equal. lia.
  - rewrite lookup_app_l by (rewrite length_take; lia).
    apply lookup_take_lt. lia.
Qed.

Lemma length_splice (a mid : list X) st len :
  st + len <= length a -> length mid = len ->
  length (take st a ++ mid ++ drop (st + len) a) = length a.
Proof.
  intros. rewrite !length_app, length_take, length_drop. lia.
Qed.
End Splice.

Lemma zip_bc_same_length {X Y} (g : X -> Y -> X) xs ys :
  length xs = length ys -> zip_bc g xs ys = zip_with g xs ys.
Proof.
  intros Hl. destruct ys as [|y [|y' ys]]; try reflexivity.
  destruct xs as [|x [|x' xs]]; try discriminate. reflexivity.
Qed.
Section InPlaceFacts.
Context {A B : Type} (g : A -> B -> A).

(** One axis of an in-place operation whose slices fit. *)
Lemma nd_iop_unfold m s sh' e eb' sl (a : list (nd A m)) (b : list (nd B m)) :
  length a = s -> fits (s :: sh') (e :: eb') sl ->
  exists st, st = hd 0 sl.*1 /\ st + e <= s /\
    nd_iop g (S m) sl a b =
    take st a ++ zip_bc (nd_iop g m (tl sl)) (take e (drop st a)) b
              ++ drop (st + e) a.
Proof.
  intros Hla Hfit. cbn [fits] in Hfit. cbn [nd_iop]. subst s.
  destruct sl as [|[st en] sl']; cbn [fst snd tl] in *.
  - exists 0. destruct Hfit as (He & Hin & _). rewrite Nat.sub_0_r in *.
    rewrite He. auto.
  - exists st. destruct Hfit as (He & Hin & _). rewrite He. auto.
Qed.

Lemma nd_iop_shaped n : forall sh eb sl (a : nd A n) (b : nd B n),
  nd_shaped n sh a = true -> nd_shaped n eb b = true -> fits sh eb sl ->
  nd_shaped n sh (nd_iop g n sl a b) = true.
Proof.
  induction n as [|m IH]; intros sh eb sl a b Ha Hb Hfit.
  - destruct sh; [reflexivity | discriminate].
  - nd_lists.
    destruct sh as [|s sh']; [discriminate|].
    destruct eb as [|e eb']; [discriminate|].
    apply nd_shaped_cons in Ha as [Hla Ha].
    apply nd_shaped_cons in Hb as [Hlb Hb].
    assert (Hfit' : fits sh' eb' (tl sl)) by (cbn [fits] in Hfit; tauto).
    destruct (nd_iop_unfold m s sh' e eb' sl a b Hla Hfit)
      as (st & _ & Hin & ->).
    assert (Hmid : length (take e (drop st a)) = length b).
    { rewrite length_take, length_drop. lia. }
    rewrite zip_bc_same_length by exact Hmid.
    apply nd_shaped_cons. split.
    + rewrite length_splice; [lia | lia |].
      rewrite length_zip_with. lia.
    + rewrite !Forall_app. repeat split.
      * apply Forall_take; exact Ha.
      * apply Forall_lookup_2. intros i x Hx.
        apply lookup_zip_with_Some in Hx as (x1 & y1 & -> & Hx1 & Hy1).
        eapply IH; [| |exact Hfit'].
        -- eapply (Forall_lookup_1 _ _ _ _ (Forall_take _ _ _
                     (Forall_drop _ _ _ Ha))); exact Hx1.
        -- eapply (Forall_lookup_1 _ _ _ _ Hb); exact Hy1.
      * apply Forall_drop; exact Ha.
Qed.

Lemma nd_get_iop n : forall sh eb sl (a : nd A n) (b : nd B n) idx,
  nd_shaped n sh a = true -> nd_shaped n eb b = true -> fits sh eb sl ->
  nd_get n idx (nd_iop g n sl a b) =
  (v ← nd_get n idx a;
   Some (match nd_get_rel n sl.*1 idx b with
         | Some x => g v x
         | None => v
         end)).
Proof.
  induction n as [|m IH]; intros sh eb sl a b idx Ha Hb Hfit.
  - destruct idx; reflexivity.
  - nd_lists.
    destruct sh as [|s sh']; [discriminate|].
    destruct eb as [|e eb']; [discriminate|].
    apply nd_shaped_cons in Ha as [Hla Ha].
    apply nd_shaped_cons in Hb as [Hlb Hb].
    assert (Hfit' : fits sh' eb' (tl sl)) by (cbn [fits] in Hfit; tauto).
    destruct (nd_iop_unfold m s sh' e eb' sl a b Hla Hfit)
      as (st & Hst & Hin & ->).
    destruct idx as [|i idx']; [reflexivity|].
    assert (Hmid : length (take e (drop st a)) = length b).
    { rewrite length_take, length_drop. lia. }
    rewrite zip_bc_same_length by exact Hmid.
    cbn [nd_get nd_get_rel]. rewrite <- Hst.
    replace (tl sl.*1) with (tl sl).*1 by (destruct sl; reflexivity).
    rewrite (lookup_splice _ _ st e) by (rewrite ?length_zip_with; lia).
    destruct (Nat.leb_spec st i) as [Hle|Hlt]; cbn [andb].
    + destruct (Nat.ltb_spec i (st + e)) as [Hin'|Hout].
      * destruct (lookup_lt_is_Some_2 a i) as [x Hx]; [lia|].
        destruct (lookup_lt_is_Some_2 b (i - st)) as [y Hy]; [lia|].
        rewrite lookup_zip_with, lookup_take_lt, lookup_drop by lia.
        replace (st + (i - st)) with i by lia.
        rewrite Hx, Hy. cbn [mbind option_bind].
        apply (IH sh' eb'); auto.
        -- eapply (Forall_lookup_1 _ _ _ _ Ha); exact Hx.
        -- eapply (Forall_lookup_1 _ _ _ _ Hb); exact Hy.
      * rewrite (lookup_ge_None_2 b) by lia. cbn [mbind option_bind].
        destruct (a !! i) as [x|]; cbn [mbind option_bind]; [|reflexivity].
        destruct (nd_get m idx' x); reflexivity.
    + destruct (a !! i) as [x|]; cbn [mbind option_bind]; [|reflexivity].
      destruct (nd_get m idx' x); reflexivity.
Qed.
End InPlaceFacts.

Lemma bind_Ok {A B} (m : result A) (k : A -> result B) b :
  m ≫= k = Ok b <-> exists a, m = Ok a /\ k a = Ok b.
Proof.
  destruct m as [a|e]; cbn.
  - split; [eauto | intros (? & [= <-] & ?); auto].
  - split; [discriminate | intros (? & [=] & _)].
Qed.

Lemma assign_rows_length {A} k (v r : list A) :
  assign_rows k v = Ok r -> length r = k.
Proof.
  unfold assign_rows. destruct (Nat.eqb_spec (length v) k).
  - intros [= <-]. auto.
  - destruct v as [|x [|]]; try discriminate.
    intros [= <-]. apply length_replicate.
Qed.

Lemma pad_widths_length ashape at_ fs pw :
  pad_widths ashape at_ fs = Ok pw -> length pw = 4.
Proof.
  unfold pad_widths. intros Hpw.
  apply bind_Ok in Hpw as (lo & Hlo & Hpw).
  apply bind_Ok in Hpw as (t & _ & Hpw).
  apply bind_Ok in Hpw as (t' & _ & Hpw).
  apply bind_Ok in Hpw as (hi & Hhi & Hpw).
  injection Hpw as <-.
  apply assign_rows_length in Hlo, Hhi.
  rewrite length_app, length_zip. simpl. lia.
Qed.

Lemma padded_shape_zero pw sh :
  length pw = length sh ->
  existsb (fun w : nat * nat => negb (w.1 =? 0) || negb (w.2 =? 0)) pw = false ->
  padded_shape pw sh = sh.
Proof.
  revert sh. induction pw as [|[lo hi] pw IH]; intros [|s sh] Hl Hz;
    try discriminate; [reflexivity|].
  cbn in Hz. apply orb_false_iff in Hz as [Hw Hz].
  apply orb_false_iff in Hw as [Hlo Hhi].
  apply negb_false_iff, Nat.eqb_eq in Hlo, Hhi. subst lo hi.
  unfold padded_shape in *. cbn. rewrite Nat.add_0_r.
  f_equal. apply IH; auto.
Qed.

Lemma shift_index_zero pw idx :
  existsb (fun w : nat * nat => negb (w.1 =? 0) || negb (w.2 =? 0)) pw = false ->
  length pw = length idx ->
  zip_with (fun (w : nat * nat) i => w.1 + i) pw idx = idx.
Proof.
  revert idx. induction pw as [|[lo hi] pw IH]; intros [|i idx] Hz Hl;
    try discriminate; [reflexivity|].
  cbn in Hz. apply orb_false_iff in Hz as [Hw Hz].
  apply orb_false_iff in Hw as [Hlo _].
  apply negb_false_iff, Nat.eqb_eq in Hlo. subst lo.
  cbn. f_equal. apply IH; auto.
Qed.
Section ResizeFacts.
Context {F : Type} `{FloatOps F}.

Lemma wf_array_iff {A n} (a : ndarray A n) :
  wf_array a = true <->
  length (shape a) = n /\ nd_shaped n (shape a) (data a) = true.
Proof. unfold wf_array. rewrite andb_true_iff, Nat.eqb_eq. reflexivity. Qed.

(** Resizing keeps every element, moved by the low-side pad widths. *)
Lemma resize_array_spec (a : ndarray F 4) at_ fs pw :
  wf_array a = true ->
  pad_widths (shape a) at_ fs = Ok pw ->
  exists r, _resize_array a at_ fs = Ok r /\
    shape r = padded_shape pw (shape a) /\
    wf_array r = true /\
    forall idx v, get a idx = Some v ->
      get r (zip_with (fun (w : nat * nat) i => w.1 + i) pw idx) = Some v.
Proof.
  intros Hwf Hpw. apply wf_array_iff in Hwf as [Hrank Hsh].
  pose proof (pad_widths_length _ _ _ _ Hpw) as Hlen.
  unfold _resize_array. rewrite Hpw. cbn [mbind result_bind].
  destruct (existsb _ pw) eqn:Hany.
  - eexists. split; [reflexivity|]. unfold np_pad. cbn [shape data].
    repeat split.
    + apply wf_array_iff. cbn [shape data]. split.
      * rewrite padded_shape_length; lia.
      * apply nd_pad_shaped; auto.
    + intros idx v Hg. unfold get. cbn [data].
      apply nd_get_pad; auto.
  - exists a. split; [reflexivity|]. repeat split.
    + symmetry. apply padded_shape_zero; auto. lia.
    + apply wf_array_iff; auto.
    + intros idx v Hg. rewrite shift_index_zero; auto.
      apply nd_get_length in Hg. lia.
Qed.
End ResizeFacts.

Lemma slice_norm_inside len z :
  (0 <= z <= Z.of_nat len)%Z -> slice_norm len z = Z.to_nat z.
Proof.
  intros Hz. unfold slice_norm.
  destruct (Z.ltb_spec z 0); [lia|]. f_equal. lia.
Qed.

Lemma nd_get_rel_4 {B} a0 a1 a2 i0 i1 i2 c (b : nd B 4) :
  nd_get_rel 4 [a0; a1; a2] [i0; i1; i2; c] b =
  if (a0 <=? i0) && (a1 <=? i1) && (a2 <=? i2)
  then nd_get 4 [i0 - a0; i1 - a1; i2 - a2; c] b else None.
Proof.
  cbn [nd_get_rel nd_get hd tl]. rewrite Nat.sub_0_r.
  change (0 <=? c) with true. cbn match.
  destruct (a0 <=? i0), (a1 <=? i1), (a2 <=? i2); cbn [andb]; try reflexivity;
    destruct (_ !! (i0 - a0)) as [b1|]; cbn [mbind option_bind];
    try reflexivity;
    destruct (_ !! (i1 - a1)) as [b2|]; cbn [mbind option_bind];
    reflexivity.
Qed.
Section AddWithOffset.
Context {F : Type} `{FloatOps F}.

Lemma add_with_offset_spec {B} (g : F -> B -> F)
    (a : ndarray F 4) (b : ndarray B 4) (p0 p1 p2 : Z)
    (s0 s1 s2 e0 e1 e2 c : nat) :
  wf_array a = true -> wf_array b = true ->
  shape a = [s0; s1; s2; c] -> shape b = [e0; e1; e2; c] ->
  (0 <= p0 /\ p0 + Z.of_nat e0 <= Z.of_nat s0)%Z ->
  (0 <= p1 /\ p1 + Z.of_nat e1 <= Z.of_nat s1)%Z ->
  (0 <= p2 /\ p2 + Z.of_nat e2 <= Z.of_nat s2)%Z ->
  exists r, _add_with_offset g a b [p0; p1; p2] = Ok r /\
    shape r = shape a /\ wf_array r = true /\
    forall idx, get r idx =
      (v ← get a idx;
       Some (match nd_get_rel 4 [Z.to_nat p0; Z.to_nat p1; Z.to_nat p2]
                     idx (data b) with
             | Some x => g v x
             | None => v
             end)).
Proof.
  intros Ha Hb Hsa Hsb H0 H1 H2.
  apply wf_array_iff in Ha as [_ Ha]. apply wf_array_iff in Hb as [_ Hb].
  unfold _add_with_offset. rewrite Hsa, Hsb in *.
  cbn [zip zip_with]. unfold slice_indices.
  rewrite !slice_norm_inside by lia.
  set (sl := [(Z.to_nat p0, Z.to_nat (p0 + Z.of_nat e0));
              (Z.to_nat p1, Z.to_nat (p1 + Z.of_nat e1));
              (Z.to_nat p2, Z.to_nat (p2 + Z.of_nat e2))]).
  assert (Hfit : fits [s0; s1; s2; c] [e0; e1; e2; c] sl).
  { subst sl. cbn. repeat split; lia. }
  assert (Hss : sliced_shape [s0; s1; s2; c] sl = [e0; e1; e2; c]).
  { subst sl. cbn. repeat f_equal; lia. }
  rewrite Hss. cbn [inplace_ok]. rewrite !Nat.eqb_refl. cbn [orb andb].
  eexists. split; [reflexivity|]. cbn [shape data]. repeat split.
  - apply wf_array_iff. cbn [shape data]. split; [reflexivity|].
    eapply nd_iop_shaped; eauto.
  - intros idx. unfold get. cbn [data].
    erewrite nd_get_iop by eauto. reflexivity.
Qed.
End AddWithOffset.

Lemma axis_shift x o d :
  (0 <= x + o)%Z ->
  Z.to_nat (x + Z.max o (- d))
  = Z.to_nat (- Z.min 0 (d + o)) + Z.to_nat (x + o).
Proof. lia. Qed.

Lemma axis_window_leb x o d :
  (0 <= x + o)%Z ->
  (Z.to_nat (Z.max o (- d) + d)
     <=? Z.to_nat (- Z.min 0 (d + o)) + Z.to_nat (x + o))
  = (0 <=? x + - d)%Z.
Proof.
  intros Hx. destruct (Z.leb_spec 0 (x + - d)).
  - apply Nat.leb_le. lia.
  - apply Nat.leb_gt. lia.
Qed.

Lemma axis_window_sub x o d :
  (0 <= x + o)%Z -> (0 <= x + - d)%Z ->
  Z.to_nat (- Z.min 0 (d + o)) + Z.to_nat (x + o)
    - Z.to_nat (Z.max o (- d) + d)
  = Z.to_nat (x + - d).
Proof. lia. Qed.

Lemma axis_fits s e o d :
  (0 <= Z.max o (- d) + d /\
   Z.max o (- d) + d + Z.of_nat e <= Z.of_nat (grown s e (d + o)))%Z.
Proof. unfold grown. lia. Qed.
Section GrowAndAdd.
Context {F : Type} `{FloatOps F}.

Lemma grow_and_add {B} (g : F -> B -> F) (a : ndarray F 4) (b : ndarray B 4)
    (o0 o1 o2 d0 d1 d2 : Z) (s0 s1 s2 e0 e1 e2 c : nat) :
  wf_array a = true -> wf_array b = true ->
  shape a = [s0; s1; s2; c] -> shape b = [e0; e1; e2; c] ->
  exists r r',
    _resize_array a [d0 + o0; d1 + o1; d2 + o2]%Z (shape b) = Ok r /\
    _add_with_offset g r b
      [Z.max o0 (- d0) + d0; Z.max o1 (- d1) + d1; Z.max o2 (- d2) + d2]%Z
      = Ok r' /\
    shape r' = [grown s0 e0 (d0 + o0); grown s1 e1 (d1 + o1);
                grown s2 e2 (d2 + o2); c] /\
    wf_array r' = true /\
    forall x ch v, length x = 3 ->
      cell a [o0; o1; o2] x ch = Some v ->
      cell r' [Z.max o0 (- d0); Z.max o1 (- d1); Z.max o2 (- d2)] x ch
        = Some (deposit g b [d0; d1; d2] x ch v).
Proof.
  intros Ha Hb Hsa Hsb.
  assert (Hpw : pad_widths (shape a) [d0 + o0; d1 + o1; d2 + o2]%Z (shape b)
    = Ok [(Z.to_nat (- Z.min 0 (d0 + o0)),
           Z.to_nat (Z.max 0 (d0 + o0 + Z.of_nat e0 - Z.of_nat s0)));
          (Z.to_nat (- Z.min 0 (d1 + o1)),
           Z.to_nat (Z.max 0 (d1 + o1 + Z.of_nat e1 - Z.of_nat s1)));
          (Z.to_nat (- Z.min 0 (d2 + o2)),
           Z.to_nat (Z.max 0 (d2 + o2 + Z.of_nat e2 - Z.of_nat s2)));
          (0, 0)]).
  { rewrite Hsa, Hsb. reflexivity. }
  destruct (resize_array_spec a _ _ _ Ha Hpw) as (r & Hr & Hsr & Hwr & Hgr).
  rewrite Hsa in Hsr. unfold padded_shape in Hsr. cbn in Hsr.
  rewrite Nat.add_0_r in Hsr.
  fold (grown s0 e0 (d0 + o0)) (grown s1 e1 (d1 + o1))
       (grown s2 e2 (d2 + o2)) in Hsr.
  edestruct (add_with_offset_spec g r b
               (Z.max o0 (- d0) + d0) (Z.max o1 (- d1) + d1)
               (Z.max o2 (- d2) + d2))%Z
    as (r' & Hr' & Hsr' & Hwr' & Hgr'); eauto using axis_fits.
  exists r, r'. repeat split; auto; [congruence|].
  intros x ch v Hx. destruct x as [|x0 [|x1 [|x2 [|]]]]; try discriminate.
  unfold cell, deposit, cell. cbn [zip_with forallb fmap list_fmap app].
  intros Hc.
  destruct (Z.leb_spec 0 (x0 + o0)); [|discriminate].
  destruct (Z.leb_spec 0 (x1 + o1)); [|discriminate].
  destruct (Z.leb_spec 0 (x2 + o2)); [|discriminate].
  cbn [andb] in Hc. apply Hgr in Hc. cbn [zip_with fst] in Hc.
  rewrite !(proj2 (Z.leb_le 0 _)) by lia.
  cbn [andb]. rewrite Hgr'.
  rewrite !axis_shift by lia.
  change (0 + ch) with ch in Hc. rewrite Hc. cbn [mbind option_bind].
  f_equal. rewrite nd_get_rel_4, !axis_window_leb by lia. unfold get.
  destruct (Z.leb_spec 0 (x0 + - d0)); [|reflexivity].
  destruct (Z.leb_spec 0 (x1 + - d1)); [|reflexivity].
  destruct (Z.leb_spec 0 (x2 + - d2)); [|reflexivity].
  cbn [andb]. rewrite !axis_window_sub by lia. reflexivity.
Qed.
End GrowAndAdd.

Lemma shape_4 {A} (a : ndarray A 4) :
  wf_array a = true ->
  exists s0 s1 s2 c, shape a = [s0; s1; s2; c].
Proof.
  intros Hwf. apply wf_array_iff in Hwf as [Hl _].
  destruct (shape a) as [|s0 [|s1 [|s2 [|c [|]]]]]; try discriminate.
  eauto.
Qed.

Lemma np_map_wf {A B} (f : A -> B) n : forall sh (a : nd A n),
  nd_shaped n sh a = true -> nd_shaped n sh (nd_map f n a) = true.
Proof.
  induction n as [|m IH]; intros sh a Ha; [exact Ha|].
  nd_lists. destruct sh as [|s sh']; [discriminate|].
  apply nd_shaped_cons in Ha as [Hl Ha]. cbn [nd_map].
  apply nd_shaped_cons. split.
  - rewrite length_fmap. exact Hl.
  - apply Forall_fmap. eapply Forall_impl; [exact Ha|]. intros x Hx. apply IH, Hx.
Qed.

Lemma np_map_wf_array {A B} (f : A -> B) (a : ndarray A 4) :
  wf_array a = true -> wf_array (np_map f a) = true.
Proof.
  intros Hwf. apply wf_array_iff in Hwf as [Hl Hs].
  apply wf_array_iff. split; [exact Hl|]. apply np_map_wf, Hs.
Qed.
Section UpdateStep.
Context {F : Type} `{FloatOps F}.

Lemma update_reference_step (sums counts : ndarray F 4) offset d img :
  wf_array sums = true -> wf_array counts = true ->
  shape sums = shape counts -> length offset = 3 ->
  compatible (last (shape sums)) (d, img) ->
  exists sums' counts' offset',
    _update_reference sums counts offset d img = Ok (sums', counts', offset') /\
    offset' = zip_with Z.max offset (Z.opp <$> d) /\
    wf_array sums' = true /\ wf_array counts' = true /\
    shape sums' = shape counts' /\
    last (shape sums') = last (shape sums) /\
    write_in_range (zip_with Z.add offset' d) (shape img) (shape sums') /\
    (forall x c v, length x = 3 ->
       cell sums offset x c = Some v ->
       cell sums' offset' x c = Some (sums_deposit (d, img) x c v)) /\
    (forall x c v, length x = 3 ->
       cell counts offset x c = Some v ->
       cell counts' offset' x c = Some (counts_deposit (d, img) x c v)).
Proof.
  intros Hws Hwc Hsh Ho (Hd & Hwi & Hch). cbn [fst snd] in *.
  destruct (shape_4 sums Hws) as (s0 & s1 & s2 & c & Hs).
  destruct (shape_4 img Hwi) as (e0 & e1 & e2 & c' & He).
  rewrite Hs, He in Hch. injection Hch as ->.
  destruct offset as [|o0 [|o1 [|o2 [|]]]]; try discriminate.
  destruct d as [|d0 [|d1 [|d2 [|]]]]; try discriminate.
  destruct (grow_and_add f_add sums (np_map f_nan_to_num img)
              o0 o1 o2 d0 d1 d2 s0 s1 s2 e0 e1 e2 c)
    as (rs & sums' & Hrs & Has & Hss & Hws' & Hcs);
    auto using np_map_wf_array.
  destruct (grow_and_add (fun n b => f_add n (f_of_bool b)) counts
              (np_map f_isfinite img)
              o0 o1 o2 d0 d1 d2 s0 s1 s2 e0 e1 e2 c)
    as (rc & counts' & Hrc & Hac & Hsc & Hwc' & Hcc);
    auto using np_map_wf_array; [congruence|].
  exists sums', counts', [Z.max o0 (- d0); Z.max o1 (- d1); Z.max o2 (- d2)]%Z.
  cbn [np_map shape] in Hrs, Hrc.
  split.
  { unfold _update_reference. cbn [np2 length Nat.eqb zip_with mbind result_bind].
    rewrite Hrs. cbn [mbind result_bind]. rewrite Hrc.
    cbn [mbind result_bind fmap list_fmap np2 length Nat.eqb zip_with].
    unfold _update_sums_and_counts.
    cbn [np2 length Nat.eqb zip_with mbind result_bind].
    rewrite Has. cbn [mbind result_bind]. rewrite Hac. reflexivity. }
  repeat split; auto.
  - congruence.
  - rewrite Hss, Hs. reflexivity.
  - unfold write_in_range. rewrite Hss, He. cbn [zip_with zip].
    repeat (apply Forall_cons; split; [cbn [fst snd]; apply axis_fits|]).
    apply Forall_nil; exact I.
Qed.
End UpdateStep.

Lemma zip_max_le (o d : list Z) :
  length o = length d -> Forall2 Z.le o (zip_with Z.max o d).
Proof.
  revert d. induction o as [|x o IH]; intros [|y d] Hl; try discriminate;
    cbn; constructor; [lia|]. apply IH. auto.
Qed.

Lemma Forall2_le_trans (a b c : list Z) :
  Forall2 Z.le a b -> Forall2 Z.le b c -> Forall2 Z.le a c.
Proof.
  intros Hab. revert c. induction Hab; intros c Hbc; inversion Hbc; subst;
    constructor; [lia | auto].
Qed.

Lemma Forall2_le_refl (a : list Z) : Forall2 Z.le a a.
Proof. induction a; constructor; [lia | auto]. Qed.
Section UpdateSequence.
Context {F : Type} `{FloatOps F}.

Lemma update_all_spec (ups : list (list Z * ndarray F 4)) :
  forall (sums counts : ndarray F 4) offset,
  wf_array sums = true -> wf_array counts = true ->
  shape sums = shape counts -> length offset = 3 ->
  Forall (compatible (last (shape sums))) ups ->
  exists sums' counts' offset',
    update_all sums counts offset ups = Ok (sums', counts', offset') /\
    wf_array sums' = true /\ wf_array counts' = true /\
    shape sums' = shape counts' /\
    last (shape sums') = last (shape sums) /\
    length offset' = 3 /\
    Forall2 Z.le offset offset' /\
    (forall x c v, length x = 3 ->
       cell sums offset x c = Some v ->
       cell sums' offset' x c
         = Some (foldl (fun v u => sums_deposit u x c v) v ups)) /\
    (forall x c v, length x = 3 ->
       cell counts offset x c = Some v ->
       cell counts' offset' x c
         = Some (foldl (fun v u => counts_deposit u x c v) v ups)).
Proof.
  induction ups as [|[d img] rest IH]; intros sums counts offset
    Hws Hwc Hsh Ho Hall.
  - exists sums, counts, offset. cbn [update_all foldl].
    repeat split; auto using Forall2_le_refl.
  - apply Forall_cons in Hall as [Hu Hall].
    destruct (update_reference_step sums counts offset d img)
      as (s1 & c1 & o1 & Hstep & Ho1 & Hws1 & Hwc1 & Hsh1 & Hch1 & _
          & Hcs1 & Hcc1); auto.
    assert (Hlo1 : length o1 = 3).
    { subst o1. destruct Hu as (Hd & _). cbn in Hd.
      rewrite length_zip_with, length_fmap. lia. }
    destruct (IH s1 c1 o1) as (s2 & c2 & o2 & Hrun & Hws2 & Hwc2 & Hsh2
                               & Hch2 & Hlo2 & Hle2 & Hcs2 & Hcc2); auto.
    { rewrite Hch1. exact Hall. }
    exists s2, c2, o2. cbn [update_all fst snd].
    rewrite Hstep. cbn [mbind result_bind fst snd].
    repeat split; auto.
    + congruence.
    + eapply Forall2_le_trans; [|exact Hle2]. subst o1.
      apply zip_max_le. destruct Hu as (Hd & _). cbn in Hd.
      rewrite length_fmap. lia.
    + intros x c v Hx Hc. cbn [foldl]. apply Hcs2; auto.
    + intros x c v Hx Hc. cbn [foldl]. apply Hcc2; auto.
Qed.

(** C1. Accumulator growth. For every sequence of calls of
    [_update_reference] on a well-formed accumulator with images whose
    channel count is the accumulator's, every call succeeds; afterwards
    sums and counts have the same shape, the channel axis has the extent
    it had, and an element that was stored at a coordinate of the
    reference frame is still stored at that coordinate under the new
    offset, increased by exactly what the later updates added there:
    growth loses and overwrites nothing. *)
Theorem accumulator_growth
    (ups : list (list Z * ndarray F 4)) (sums counts : ndarray F 4) offset :
  wf_array sums = true -> wf_array counts = true ->
  shape sums = shape counts -> length offset = 3 ->
  Forall (compatible (last (shape sums))) ups ->
  exists sums' counts' offset',
    update_all sums counts offset ups = Ok (sums', counts', offset') /\
    shape sums' = shape counts' /\
    last (shape sums') = last (shape sums) /\
    (forall x c v, length x = 3 ->
       cell sums offset x c = Some v ->
       cell sums' offset' x c
         = Some (foldl (fun v u => sums_deposit u x c v) v ups)) /\
    (forall x c v, length x = 3 ->
       cell counts offset x c = Some v ->
       cell counts' offset' x c
         = Some (foldl (fun v u => counts_deposit u x c v) v ups)).
Proof.
  intros Hws Hwc Hsh Ho Hall.
  destruct (update_all_spec ups sums counts offset)
    as (s & c & o & Hrun & _ & _ & Hs & Hch & _ & _ & Hcs & Hcc); auto.
  exists s, c, o. auto.
Qed.

(** C5. Offset update. After any sequence of updates, a call of
    [_update_reference] with displacement [d] sets the offset to the
    componentwise maximum of the old offset and [-d]; the offset never
    decreases along the sequence, and the block of the image written at
    [offset' + d] starts at non-negative indices and ends inside the
    resized array. *)
Theorem offset_update
    (ups : list (list Z * ndarray F 4)) (d : list Z) (img : ndarray F 4)
    (sums counts : ndarray F 4) offset :
  wf_array sums = true -> wf_array counts = true ->
  shape sums = shape counts -> length offset = 3 ->
  Forall (compatible (last (shape sums))) ups ->
  compatible (last (shape sums)) (d, img) ->
  exists s1 c1 o1 s2 c2 o2,
    update_all sums counts offset ups = Ok (s1, c1, o1) /\
    _update_reference s1 c1 o1 d img = Ok (s2, c2, o2) /\
    o2 = zip_with Z.max o1 (Z.opp <$> d) /\
    Forall2 Z.le offset o1 /\ Forall2 Z.le o1 o2 /\
    write_in_range (zip_with Z.add o2 d) (shape img) (shape s2).
Proof.
  intros Hws Hwc Hsh Ho Hall Hu.
  destruct (update_all_spec ups sums counts offset)
    as (s1 & c1 & o1 & Hrun & Hws1 & Hwc1 & Hsh1 & Hch1 & Hlo1 & Hle1 & _);
    auto.
  destruct (update_reference_step s1 c1 o1 d img)
    as (s2 & c2 & o2 & Hstep & Ho2 & _ & _ & _ & _ & Hrange & _); auto.
  { rewrite Hch1. exact Hu. }
  exists s1, c1, o1, s2, c2, o2. repeat split; auto.
  subst o2. apply zip_max_le. destruct Hu as (Hd & _). cbn in Hd.
  rewrite length_fmap. lia.
Qed.
End UpdateSequence.

Lemma demo_compatible :
  Forall (compatible (last (shape demo_zeros))) demo_updates.
Proof. repeat constructor. Qed.

Lemma accumulator_growth_witness :
  exists sums' counts' offset',
    update_all demo_zeros demo_zeros [0; 0; 0]%Z demo_updates
      = Ok (sums', counts', offset') /\
    shape sums' = shape counts' /\
    last (shape sums') = last (shape demo_zeros) /\
    (forall x c v, length x = 3 ->
       cell demo_zeros [0; 0; 0]%Z x c = Some v ->
       cell sums' offset' x c
         = Some (foldl (fun v u => sums_deposit u x c v) v demo_updates)) /\
    (forall x c v, length x = 3 ->
       cell demo_zeros [0; 0; 0]%Z x c = Some v ->
       cell counts' offset' x c
         = Some (foldl (fun v u => counts_deposit u x c v) v demo_updates)).
Proof.
  apply (accumulator_growth demo_updates demo_zeros demo_zeros [0; 0; 0]%Z);
    try reflexivity.
  repeat constructor.
Defined.

Lemma within_bounds_true d b :
  within_bounds d (Some b) = Ok true ->
  Forall2 (fun (w : Z * Z) x => (w.1 <= x <= w.2)%Z) b d.
Proof.
  unfold within_bounds. destruct (Nat.eqb_spec (length d) (length b)) as [Hl|];
    [|discriminate].
  intros [= Hb]. apply andb_true_iff in Hb as [Hlo Hhi].
  revert d Hl Hlo Hhi. induction b as [|[lo hi] b IH]; intros [|x d] Hl Hlo Hhi;
    try discriminate; constructor.
  - cbn in Hlo, Hhi. apply andb_true_iff in Hlo as [Hlo _].
    apply andb_true_iff in Hhi as [Hhi _]. cbn. unfold id in *. lia.
  - cbn in Hlo, Hhi. apply andb_true_iff in Hlo as [_ Hlo].
    apply andb_true_iff in Hhi as [_ Hhi]. apply IH; auto.
Qed.

Lemma product_nonempty {X} (ls : list (list X)) :
  Forall (fun l => l <> []) ls -> product ls <> [].
Proof.
  induction 1 as [|l ls Hl _ IH]; [discriminate|].
  cbn [product]. destruct l as [|x l]; [contradiction|].
  destruct (product ls) as [|t ts]; [contradiction|]. discriminate.
Qed.
Section BoundsRespect.
Context {F Score : Type} `{FloatOps F} `{PyramidEnv F Score}.

Lemma adjustments_nonempty axes_bool : adjustments axes_bool <> [].
Proof.
  apply product_nonempty. apply Forall_fmap, Forall_forall.
  intros [] _; discriminate.
Qed.

Lemma refine_step_in_bounds ab disp bounds st adj st' :
  kept_in_bounds bounds st ->
  refine_step ab disp bounds st adj = Ok st' ->
  kept_in_bounds bounds st'.
Proof.
  intros Hinv Hstep. destruct st as [[best r] t].
  unfold refine_step in Hstep.
  apply bind_Ok in Hstep as (up & _ & Hstep).
  apply bind_Ok in Hstep as (dsp & _ & Hstep).
  apply bind_Ok in Hstep as (ok & Hok & Hstep).
  destruct ok.
  - destruct (shifted_corr r t dsp) as [[[corr r'] t']|]; [|discriminate].
    injection Hstep as <-. intros c d Hbest. cbn [fst] in Hbest.
    destruct (match best with
              | Some (best_corr, _) => score_gt corr best_corr
              | None => true
              end).
    + injection Hbest as <- <-. exact Hok.
    + eapply Hinv. exact Hbest.
  - injection Hstep as <-. exact Hinv.
Qed.

Lemma refine_loop_in_bounds ab disp bounds adjs : forall st st',
  kept_in_bounds bounds st ->
  refine_loop ab disp bounds adjs st = Ok st' ->
  kept_in_bounds bounds st'.
Proof.
  induction adjs as [|adj rest IH]; intros st st' Hinv Hloop.
  - injection Hloop as <-. exact Hinv.
  - cbn [refine_loop] in Hloop.
    apply bind_Ok in Hloop as (st1 & Hstep & Hloop).
    eapply IH; [|exact Hloop]. eapply refine_step_in_bounds; eauto.
Qed.

(** C2. Bounds respect. When the base alignment primitive answers
    within the bounds it is given, every displacement that
    [pyramid_align] returns for supplied bounds lies between
    [bounds[0]] and [bounds[1]] componentwise. (That [bounds[0] <
    bounds[1]] is asserted on entry: a call that returns has passed
    it.) *)
Theorem pyramid_align_within_bounds depth reference target min_shape
    max_levels (bounds : bounds_t) d reference' target' :
  (forall r t b d', align_cross_correlation r t (Some b) = Some d' ->
                    within_bounds d' (Some b) = Ok true) ->
  pyramid_align depth reference target min_shape max_levels (Some bounds)
    = Ok (d, reference', target') ->
  Forall2 (fun (w : Z * Z) x => (w.1 <= x <= w.2)%Z) bounds d.
Proof.
  intros Hbase Hrun. apply within_bounds_true.
  destruct depth as [|depth]; [discriminate|].
  cbn [pyramid_align] in Hrun. unfold pyramid_level in Hrun.
  destruct (bounds_ordered (Some bounds)); [|discriminate]. cbn [negb] in Hrun.
  apply bind_Ok in Hrun as (ab & _ & Hrun).
  destruct (levels_positive max_levels && existsb id ab).
  - apply bind_Ok in Hrun as (nb & _ & Hrun).
    apply bind_Ok in Hrun as (coarse & _ & Hrun).
    apply bind_Ok in Hrun as (st & Hloop & Hrun).
    apply refine_loop_in_bounds in Hloop; [|intros ? ? [=]].
    destruct st as [[[[c d']|] r'] t']; [|discriminate].
    injection Hrun as <- <- <-. eapply Hloop. reflexivity.
  - apply bind_Ok in Hrun as (d' & Hd & Hrun). injection Hrun as <- <- <-.
    unfold base_alignment in Hd.
    destruct (align_cross_correlation reference target (Some bounds))
      as [d0|] eqn:Hacc; [|discriminate].
    injection Hd as <-. eapply Hbase; eauto.
Qed.
End BoundsRespect.

Lemma np2_error {A B C} (f : A -> B -> C) a b e :
  np2 f a b = Raise e -> e = ValueError Broadcast.
Proof.
  unfold np2. destruct (length a =? length b); [discriminate|].
  destruct a as [|x [|]], b as [|y [|]]; try discriminate; congruence.
Qed.

Lemma bind_Raise {A B} (m : result A) (k : A -> result B) e :
  m ≫= k = Raise e <->
  m = Raise e \/ exists a, m = Ok a /\ k a = Raise e.
Proof.
  destruct m as [a|e']; cbn.
  - split.
    + intros Hk. right. exists a. auto.
    + intros [[=]|(? & [= <-] & ?)]. auto.
  - split.
    + intros [= ->]. auto.
    + intros [[= ->]|(? & [=] & _)]. reflexivity.
Qed.
Section UnboundedSearch.
Context {F Score : Type} `{FloatOps F} `{PyramidEnv F Score}.

Lemma refine_step_unbounded_error ab disp st adj e :
  refine_step ab disp None st adj = Raise e ->
  e = ValueError Broadcast \/ e = PrimitiveError.
Proof.
  destruct st as [[best r] t]. unfold refine_step. intros Hstep.
  apply bind_Raise in Hstep as [Hup|(up & _ & Hstep)];
    [left; eapply np2_error; eauto|].
  apply bind_Raise in Hstep as [Hd|(dsp & _ & Hstep)];
    [left; eapply np2_error; eauto|].
  cbn in Hstep.
  destruct (shifted_corr r t dsp) as [[[corr r'] t']|]; [discriminate|].
  injection Hstep as <-. auto.
Qed.

Lemma refine_step_unbounded_some ab disp st adj st' :
  refine_step ab disp None st adj = Ok st' -> is_Some st'.1.1.
Proof.
  destruct st as [[best r] t]. unfold refine_step. intros Hstep.
  apply bind_Ok in Hstep as (up & _ & Hstep).
  apply bind_Ok in Hstep as (dsp & _ & Hstep).
  cbn in Hstep.
  destruct (shifted_corr r t dsp) as [[[corr r'] t']|]; [|discriminate].
  injection Hstep as <-. cbn [fst].
  destruct best as [[bc bd]|]; [destruct (score_gt corr bc)|]; eauto.
Qed.

Lemma refine_step_keeps_some ab disp bounds st adj st' :
  is_Some st.1.1 ->
  refine_step ab disp bounds st adj = Ok st' -> is_Some st'.1.1.
Proof.
  destruct st as [[best r] t]. cbn [fst]. intros [[bc bd] ->].
  unfold refine_step. intros Hstep.
  apply bind_Ok in Hstep as (up & _ & Hstep).
  apply bind_Ok in Hstep as (dsp & _ & Hstep).
  apply bind_Ok in Hstep as (ok & _ & Hstep).
  destruct ok; [|injection Hstep as <-; eauto].
  destruct (shifted_corr r t dsp) as [[[corr r'] t']|]; [|discriminate].
  injection Hstep as <-. cbn [fst]. destruct (score_gt corr bc); eauto.
Qed.

Lemma refine_loop_keeps_some ab disp bounds adjs : forall st st',
  is_Some st.1.1 ->
  refine_loop ab disp bounds adjs st = Ok st' -> is_Some st'.1.1.
Proof.
  induction adjs as [|adj rest IH]; intros st st' Hs Hloop.
  - injection Hloop as <-. exact Hs.
  - cbn [refine_loop] in Hloop.
    apply bind_Ok in Hloop as (st1 & Hstep & Hloop).
    eapply IH; [|exact Hloop]. eapply refine_step_keeps_some; eauto.
Qed.

Lemma refine_loop_unbounded_error ab disp adjs : forall st e,
  refine_loop ab disp None adjs st = Raise e ->
  e = ValueError Broadcast \/ e = PrimitiveError.
Proof.
  induction adjs as [|adj rest IH]; intros st e Hloop; [discriminate|].
  cbn [refine_loop] in Hloop.
  apply bind_Raise in Hloop as [Hstep|(st1 & _ & Hloop)]; eauto.
  eapply refine_step_unbounded_error; eauto.
Qed.

Lemma refine_loop_unbounded_some ab disp st st' :
  refine_loop ab disp None (adjustments ab) st = Ok st' -> is_Some st'.1.1.
Proof.
  pose proof (adjustments_nonempty ab) as Hne.
  destruct (adjustments ab) as [|adj rest]; [contradiction|].
  cbn [refine_loop]. intros Hloop.
  apply bind_Ok in Hloop as (st1 & Hstep & Hloop).
  eapply refine_loop_keeps_some; [|exact Hloop].
  eapply refine_step_unbounded_some; eauto.
Qed.

(** C10. Unbounded searches. With [bounds = None] the bounds test
    accepts every displacement, the refinement loop over the non-empty
    product of adjustments ends with a candidate whenever it ends, and
    no call of [pyramid_align], at any level of the recursion, fails
    with the assertion that no candidate survived. *)
Theorem unbounded_search_keeps_candidate :
  (forall d, within_bounds d None = Ok true) /\
  (forall axes_bool, adjustments axes_bool <> []) /\
  (forall axes_bool disp st st',
     refine_loop axes_bool disp None (adjustments axes_bool) st = Ok st' ->
     is_Some st'.1.1) /\
  (forall depth reference target min_shape max_levels,
     pyramid_align depth reference target min_shape max_levels None
     <> Raise (AssertionError AssertNoCandidate)).
Proof.
  split; [reflexivity|]. split; [apply adjustments_nonempty|].
  split; [apply refine_loop_unbounded_some|].
  induction depth as [|depth IH]; intros reference target min_shape max_levels;
    [discriminate|].
  cbn [pyramid_align]. unfold pyramid_level. cbn [bounds_ordered negb halve_bounds]. intros Hrun.
  apply bind_Raise in Hrun as [Hax|(ab & _ & Hrun)].
  { unfold axes_of in Hax.
    apply bind_Raise in Hax as [Hax|(? & _ & Hax)];
      apply np2_error in Hax; discriminate. }
  destruct (levels_positive max_levels && existsb id ab).
  - cbn [mbind result_bind] in Hrun.
    apply bind_Raise in Hrun as [Hrec|(coarse & _ & Hrun)];
      [eapply IH; eauto|].
    apply bind_Raise in Hrun as [Hloop|(st & Hloop & Hrun)].
    + apply refine_loop_unbounded_error in Hloop as [?|?]; discriminate.
    + apply refine_loop_unbounded_some in Hloop as [[c d] Hsome].
      rewrite Hsome in Hrun. discriminate.
  - apply bind_Raise in Hrun as [Hbase|(d & _ & [=])].
    unfold base_alignment in Hbase.
    destruct (align_cross_correlation reference target None); discriminate.
Qed.
End UnboundedSearch.

Lemma div2_S_lt r : 2 <= r -> Nat.div2 (S r) < r.
Proof.
  intros Hr. rewrite Nat.div2_div. apply Nat.Div0.div_lt_upper_bound; lia.
Qed.
Section RecursionDepth.
Context {F Score : Type} `{FloatOps F} `{PyramidEnv F Score}.

Lemma within_bounds_error d bounds e :
  within_bounds d bounds = Raise e -> e = AssertionError AssertLenBounds.
Proof.
  destruct bounds as [b|]; [|discriminate]. unfold within_bounds.
  destruct (length d =? length b); [discriminate | congruence].
Qed.

Lemma refine_step_error ab disp bounds st adj e :
  refine_step ab disp bounds st adj = Raise e ->
  e = ValueError Broadcast \/ e = PrimitiveError \/
  e = AssertionError AssertLenBounds.
Proof.
  destruct st as [[best r] t]. unfold refine_step. intros Hstep.
  apply bind_Raise in Hstep as [Hup|(up & _ & Hstep)];
    [left; eapply np2_error; eauto|].
  apply bind_Raise in Hstep as [Hd|(dsp & _ & Hstep)];
    [left; eapply np2_error; eauto|].
  apply bind_Raise in Hstep as [Hw|(ok & _ & Hstep)];
    [right; right; eapply within_bounds_error; eauto|].
  destruct ok; [|discriminate].
  destruct (shifted_corr r t dsp) as [[[corr r'] t']|]; [discriminate|].
  injection Hstep as <-. auto.
Qed.

Lemma refine_loop_error ab disp bounds adjs : forall st e,
  refine_loop ab disp bounds adjs st = Raise e ->
  e = ValueError Broadcast \/ e = PrimitiveError \/
  e = AssertionError AssertLenBounds.
Proof.
  induction adjs as [|adj rest IH]; intros st e Hloop; [discriminate|].
  cbn [refine_loop] in Hloop.
  apply bind_Raise in Hloop as [Hstep|(st1 & _ & Hloop)]; eauto.
  eapply refine_step_error; eauto.
Qed.

Lemma pyramid_align_unfold depth reference target min_shape max_levels bounds :
  pyramid_align (S depth) reference target min_shape max_levels bounds =
  pyramid_level (pyramid_align depth) reference target min_shape max_levels
                bounds.
Proof. reflexivity. Qed.

(** A call that ends without exhausting the recursion depth gives the
    same result under any larger depth. *)
Lemma pyramid_align_deeper depth : forall reference target min_shape
    max_levels bounds,
  pyramid_align depth reference target min_shape max_levels bounds
    <> Raise RecursionError ->
  pyramid_align (S depth) reference target min_shape max_levels bounds
  = pyramid_align depth reference target min_shape max_levels bounds.
Proof.
  induction depth as [|depth IH]; intros reference target min_shape
    max_levels bounds Hne; [contradiction Hne; reflexivity|].
  rewrite (pyramid_align_unfold (S depth)).
  rewrite (pyramid_align_unfold depth) in Hne |- *.
  unfold pyramid_level in *.
  destruct (negb (bounds_ordered bounds)); [reflexivity|].
  destruct (axes_of reference target min_shape) as [ab|e]; [|reflexivity].
  cbn [mbind result_bind] in *.
  destruct (levels_positive max_levels && existsb id ab); [|reflexivity].
  destruct (halve_bounds bounds ab) as [nb|e]; [|reflexivity].
  cbn [mbind result_bind] in *.
  rewrite IH; [reflexivity|].
  intros Hrec. rewrite Hrec in Hne. apply Hne. reflexivity.
Qed.

Lemma pyramid_align_depth_irrelevant d1 d2 reference target min_shape
    max_levels bounds :
  d1 <= d2 ->
  pyramid_align d1 reference target min_shape max_levels bounds
    <> Raise RecursionError ->
  pyramid_align d2 reference target min_shape max_levels bounds
  = pyramid_align d1 reference target min_shape max_levels bounds.
Proof.
  induction 1 as [|d2 Hle IH]; intros Hne; [reflexivity|].
  rewrite pyramid_align_deeper; [auto|]. rewrite IH; auto.
Qed.
End RecursionDepth.

Section Shrinking.
Context {F Score : Type} `{FloatOps F} `{PyramidEnv F Score}.

Lemma pyr_down_shape (img : image F) b0 b1 b2 r0 r1 r2 c :
  (forall (i : image F) s, shape (gaussian_filter i s) = shape i) ->
  shape img = [r0; r1; r2; c] ->
  shape (pyr_down_3d img (nonzero [b0; b1; b2]))
  = [halved b0 r0; halved b1 r1; halved b2 r2; c].
Proof.
  intros Hg Hs. unfold pyr_down_3d. cbn [shape]. rewrite Hg, Hs.
  destruct b0, b1, b2; reflexivity.
Qed.

Lemma axes_of_3 (reference target : image F) min_shape ab r0 r1 r2 c t0 t1 t2 c' :
  shape reference = [r0; r1; r2; c] -> shape target = [t0; t1; t2; c'] ->
  Forall (Z.le 1) min_shape ->
  axes_of reference target min_shape = Ok ab ->
  exists b0 b1 b2, ab = [b0; b1; b2] /\
    (b0 = true -> 2 <= r0 /\ 2 <= t0) /\
    (b1 = true -> 2 <= r1 /\ 2 <= t1) /\
    (b2 = true -> 2 <= r2 /\ 2 <= t2).
Proof.
  intros Hr Ht Hms Hax. unfold axes_of in Hax. rewrite Hr, Ht in Hax.
  cbn [removelast np2 length Nat.eqb zip_with mbind result_bind] in Hax.
  destruct min_shape as [|m0 [|m1 [|m2 [|m3 ms]]]]; try discriminate.
  - cbn in Hax. injection Hax as <-. apply Forall_cons in Hms as [Hm _].
    eexists _, _, _. split; [reflexivity|].
    repeat apply conj; intros Hb; apply Z.leb_le in Hb; lia.
  - cbn in Hax. injection Hax as <-.
    apply Forall_cons in Hms as [Hm0 Hms].
    apply Forall_cons in Hms as [Hm1 Hms].
    apply Forall_cons in Hms as [Hm2 _].
    eexists _, _, _. split; [reflexivity|].
    repeat apply conj; intros Hb; apply Z.leb_le in Hb; lia.
Qed.

Lemma pyramid_align_no_recursion_error depth : forall
    (reference target : image F) min_shape max_levels bounds,
  (forall (i : image F) s, shape (gaussian_filter i s) = shape i) ->
  length (shape reference) = 4 -> length (shape target) = 4 ->
  Forall (Z.le 1) min_shape ->
  spatial_extent reference < depth ->
  pyramid_align depth reference target min_shape max_levels bounds
    <> Raise RecursionError.
Proof.
  induction depth as [|depth IH]; intros reference target min_shape
    max_levels bounds Hg Hlr Hlt Hms Hlt'; [lia|].
  rewrite pyramid_align_unfold. unfold pyramid_level.
  destruct (negb (bounds_ordered bounds)); [discriminate|].
  destruct (axes_of reference target min_shape) as [ab|e] eqn:Hax.
  2:{ unfold axes_of in Hax.
      apply bind_Raise in Hax as [Hax|(? & _ & Hax)];
        apply np2_error in Hax; subst e; discriminate. }
  cbn [mbind result_bind].
  destruct (levels_positive max_levels && existsb id ab) eqn:Hcond.
  - intros Hrun.
    apply bind_Raise in Hrun as [Hnb|(nb & _ & Hrun)].
    { destruct bounds as [b|]; [|discriminate]. cbn in Hnb.
      destruct (np2 _ b ab) eqn:Hnp; [discriminate|].
      apply np2_error in Hnp. cbn in Hnb. congruence. }
    apply bind_Raise in Hrun as [Hrec|(coarse & _ & Hrun)].
    + revert Hrec.
      destruct (shape reference) as [|r0 [|r1 [|r2 [|c [|]]]]] eqn:Hr;
        try discriminate.
      destruct (shape target) as [|t0 [|t1 [|t2 [|c' [|]]]]] eqn:Ht;
        try discriminate.
      destruct (axes_of_3 reference target min_shape ab _ _ _ _ _ _ _ _
                  Hr Ht Hms Hax) as (b0 & b1 & b2 & -> & H0' & H1' & H2').
      apply andb_true_iff in Hcond as [_ Hany].
      apply IH; auto.
      * erewrite pyr_down_shape by eauto. reflexivity.
      * erewrite pyr_down_shape by eauto. reflexivity.
      * unfold spatial_extent in *.
        erewrite pyr_down_shape by eauto. rewrite Hr in Hlt'.
        cbn [removelast sum_list sum_list_with] in *.
        assert (halved b0 r0 <= r0 /\ halved b1 r1 <= r1 /\ halved b2 r2 <= r2
                /\ (halved b0 r0 < r0 \/ halved b1 r1 < r1 \/ halved b2 r2 < r2)).
        { unfold halved.
          destruct b0, b1, b2; try discriminate;
            repeat match goal with
                   | Hb : true = true -> _ |- _ =>
                       destruct (Hb eq_refl) as [? _]; clear Hb
                   | Hb : false = true -> _ |- _ => clear Hb
                   end;
            repeat match goal with
                   | Hr : 2 <= ?r |- _ =>
                       pose proof (div2_S_lt r Hr); clear Hr
                   end; lia. }
        unfold id in *. lia.
    + apply bind_Raise in Hrun as [Hloop|(st & _ & Hrun)].
      * apply refine_loop_error in Hloop as [?|[?|?]]; discriminate.
      * destruct st.1.1 as [[? ?]|]; discriminate.
  - intros Hrun.
    apply bind_Raise in Hrun as [Hbase|(d & _ & [=])].
    unfold base_alignment in Hbase.
    destruct (align_cross_correlation reference target bounds); discriminate.
Qed.
End Shrinking.

Lemma every_other_spec {X} (P : X -> Prop) (l : list X) :
  length (every_other l) = Nat.div2 (S (length l)) /\
  (Forall P l -> Forall P (every_other l)).
Proof.
  assert (Hstrong : forall n (l : list X), length l <= n ->
            length (every_other l) = Nat.div2 (S (length l)) /\
            (Forall P l -> Forall P (every_other l))).
  { clear l. induction n as [|n IH]; intros [|x [|y l]] Hl; cbn in Hl;
      try lia; try (split; [reflexivity | auto]).
    destruct (IH l ltac:(lia)) as [Hlen Hall]. split.
    - cbn [every_other length]. rewrite Hlen. reflexivity.
    - intros Hf. apply Forall_cons in Hf as [Hx Hf].
      apply Forall_cons in Hf as [_ Hf]. cbn [every_other].
      apply Forall_cons. auto. }
  apply (Hstrong (length l)). lia.
Qed.

(** The shape [pyr_down_3d] stores is the shape of the elements it
    keeps. *)
Lemma nd_stride2_shaped {X} n : forall sh flags (a : nd X n),
  length flags = n ->
  nd_shaped n sh a = true ->
  nd_shaped n (strided_shape sh flags) (nd_stride2 n flags a) = true.
Proof.
  induction n as [|m IH]; intros sh flags a Hfl Ha.
  - destruct sh; [|discriminate]. reflexivity.
  - nd_lists. destruct sh as [|s sh']; [discriminate|].
    destruct flags as [|f flags']; [discriminate|].
    apply nd_shaped_cons in Ha as [Hlen Ha].
    unfold strided_shape. cbn [zip_with]. fold (strided_shape sh' flags').
    cbn [nd_stride2 hd tl].
    assert (Hmap : Forall (fun x => nd_shaped m (strided_shape sh' flags') x = true)
                          (nd_stride2 m flags' <$> a)).
    { apply Forall_fmap. eapply Forall_impl; [exact Ha|]. intros x Hx.
      apply IH; auto. }
    apply nd_shaped_cons. destruct f.
    + destruct (every_other_spec
                  (fun x => nd_shaped m (strided_shape sh' flags') x = true)
                  (nd_stride2 m flags' <$> a)) as [Hl Hf].
      split; [|auto]. etransitivity; [exact Hl|].
      rewrite length_fmap, Hlen. reflexivity.
    + split; [|exact Hmap]. rewrite length_fmap. exact Hlen.
Qed.

Lemma pyr_down_3d_wf {F Score : Type} `{FloatOps F} `{PyramidEnv F Score}
    (img : image F) axes :
  (forall (i : image F) s, wf_array i = true ->
                           wf_array (gaussian_filter i s) = true) ->
  wf_array img = true -> wf_array (pyr_down_3d img axes) = true.
Proof.
  intros Hg Hwf. unfold pyr_down_3d.
  set (flags := (fun i => bool_decide (i ∈ axes)) <$> seq 0 4).
  set (filtered := gaussian_filter img _).
  assert (Hf : wf_array filtered = true) by (apply Hg, Hwf).
  apply wf_array_iff in Hf as [Hl Hs]. apply wf_array_iff. cbn [shape data].
  split.
  - unfold strided_shape. rewrite length_zip_with, Hl. reflexivity.
  - apply nd_stride2_shaped; [reflexivity | exact Hs].
Qed.
Section Termination.
Context {F Score : Type} `{FloatOps F} `{PyramidEnv F Score}.

Lemma halved_axes (reference target : image F) min_shape ab k :
  (forall (i : image F) s, shape (gaussian_filter i s) = shape i) ->
  length (shape reference) = 4 -> length (shape target) = 4 ->
  Forall (Z.le 1) min_shape ->
  axes_of reference target min_shape = Ok ab ->
  ab !! k = Some true ->
  exists r t,
    shape reference !! k = Some r /\ shape target !! k = Some t /\
    shape (pyr_down_3d reference (nonzero ab)) !! k = Some (Nat.div2 (S r)) /\
    shape (pyr_down_3d target (nonzero ab)) !! k = Some (Nat.div2 (S t)) /\
    Nat.div2 (S r) < r /\ Nat.div2 (S t) < t.
Proof.
  intros Hg Hlr Hlt Hms Hax Hk.
  destruct (shape reference) as [|r0 [|r1 [|r2 [|c [|]]]]] eqn:Hr;
    try discriminate.
  destruct (shape target) as [|t0 [|t1 [|t2 [|c' [|]]]]] eqn:Ht;
    try discriminate.
  destruct (axes_of_3 reference target min_shape ab _ _ _ _ _ _ _ _
              Hr Ht Hms Hax) as (b0 & b1 & b2 & -> & H0' & H1' & H2').
  rewrite (pyr_down_shape reference b0 b1 b2 r0 r1 r2 c Hg Hr).
  rewrite (pyr_down_shape target b0 b1 b2 t0 t1 t2 c' Hg Ht).
  destruct k as [|[|[|k]]]; cbn in Hk; try discriminate;
    injection Hk as ->; cbn [lookup list_lookup halved];
    [destruct H0' as [? ?] | destruct H1' as [? ?] | destruct H2' as [? ?]];
    auto; eexists _, _; repeat apply conj; try reflexivity;
    apply div2_S_lt; assumption.
Qed.

(** C6. Termination. For images of rank four, [min_shape >= 1] and any
    [max_levels], a recursion depth of one more than the sum of the
    spatial extents of the reference is never exhausted, and every
    larger depth gives the same result. The call recurses only when
    [max_levels > 0] and some axis has extent at least [2 * min_shape]
    in both images: otherwise it returns the result of the base
    alignment primitive under the bounds it was given; and when it
    recurses every downsampled axis of both images is strictly shorter
    in the recursive call. *)
Theorem pyramid_align_terminates (reference target : image F) min_shape
    max_levels bounds :
  (forall (i : image F) s, shape (gaussian_filter i s) = shape i) ->
  length (shape reference) = 4 -> length (shape target) = 4 ->
  Forall (Z.le 1) min_shape ->
  let enough := S (spatial_extent reference) in
  pyramid_align enough reference target min_shape max_levels bounds
    <> Raise RecursionError /\
  (forall depth, enough <= depth ->
     pyramid_align depth reference target min_shape max_levels bounds
     = pyramid_align enough reference target min_shape max_levels bounds) /\
  (forall depth ab,
     bounds_ordered bounds = true ->
     axes_of reference target min_shape = Ok ab ->
     levels_positive max_levels && existsb id ab = false ->
     pyramid_align (S depth) reference target min_shape max_levels bounds
     = (d ← base_alignment reference target bounds;
        Ok (d, reference, target))) /\
  (forall ab k,
     axes_of reference target min_shape = Ok ab ->
     ab !! k = Some true ->
     exists r t,
       shape reference !! k = Some r /\ shape target !! k = Some t /\
       shape (pyr_down_3d reference (nonzero ab)) !! k
         = Some (Nat.div2 (S r)) /\
       shape (pyr_down_3d target (nonzero ab)) !! k
         = Some (Nat.div2 (S t)) /\
       Nat.div2 (S r) < r /\ Nat.div2 (S t) < t).
Proof.
  intros Hg Hlr Hlt Hms enough.
  assert (Hne : pyramid_align enough reference target min_shape max_levels
                  bounds <> Raise RecursionError).
  { apply pyramid_align_no_recursion_error; auto. }
  repeat apply conj.
  - exact Hne.
  - intros depth Hle. apply pyramid_align_depth_irrelevant; auto.
  - intros depth ab Hord Hax Hcond. rewrite pyramid_align_unfold.
    unfold pyramid_level. rewrite Hord, Hax. cbn [negb mbind result_bind].
    rewrite Hcond. reflexivity.
  - intros ab k Hax Hk. eapply halved_axes; eauto.
Qed.
End Termination.

Lemma pyramid_align_terminates_witness :
  pyramid_align (S (spatial_extent demo_frame)) demo_frame demo_frame [2%Z]
                None None <> Raise RecursionError.
Proof.
  refine (proj1 (pyramid_align_terminates demo_frame demo_frame [2%Z] None
                   None _ _ _ _)).
  - intros i s. reflexivity.
  - reflexivity.
  - reflexivity.
  - apply Forall_cons. split; [lia | apply Forall_nil; exact I].
Defined.

Lemma elem_of_product {X} (ls : list (list X)) t :
  t ∈ product ls <-> Forall2 (fun l x => x ∈ l) ls t.
Proof.
  revert t. induction ls as [|l ls IH]; intros t; cbn [product].
  - rewrite list_elem_of_singleton. split; [intros ->; constructor|].
    intros Hf. inversion Hf. reflexivity.
  - rewrite list_elem_of_bind. split.
    + intros (x & Ht & Hx). apply list_elem_of_fmap in Ht as (t' & -> & Ht').
      constructor; [exact Hx | apply IH, Ht'].
    + intros Hf. inversion Hf as [|? x ? t' Hx Ht']; subst.
      exists x. split; [|exact Hx]. apply list_elem_of_fmap.
      exists t'. split; [reflexivity | apply IH, Ht'].
Qed.

Lemma NoDup_product {X} (ls : list (list X)) :
  Forall NoDup ls -> NoDup (product ls).
Proof.
  induction 1 as [|l ls Hl _ IH]; cbn [product].
  - apply NoDup_singleton.
  - apply NoDup_bind; [| |exact Hl].
    + intros x1 x2 t _ _ H1 H2.
      apply list_elem_of_fmap in H1 as (t1 & -> & _).
      apply list_elem_of_fmap in H2 as (t2 & [= -> _] & _). reflexivity.
    + intros x _. apply NoDup_fmap_2; [|exact IH].
      intros t1 t2 [= ->]. reflexivity.
Qed.
Section RefinementLoop.
Context {F Score : Type} `{FloatOps F} `{PyramidEnv F Score}.

Lemma adjustments_spec axes_bool adj :
  adj ∈ adjustments axes_bool <-> is_adjustment axes_bool adj.
Proof.
  unfold adjustments, is_adjustment. rewrite elem_of_product.
  rewrite Forall2_fmap_l.
  split; intros Hf; (eapply Forall2_impl; [exact Hf|]);
    intros [] x; unfold compose; rewrite ?list_elem_of_singleton; auto.
Qed.

Lemma adjustments_NoDup axes_bool : NoDup (adjustments axes_bool).
Proof.
  apply NoDup_product, Forall_fmap, Forall_forall. intros [] _; cbn.
  - repeat (apply NoDup_cons; split;
            [rewrite ?elem_of_cons, ?elem_of_nil; intuition discriminate|]).
    apply NoDup_nil; exact I.
  - apply NoDup_singleton.
Qed.

Lemma adjustments_length axes_bool adj :
  adj ∈ adjustments axes_bool -> length adj = length axes_bool.
Proof.
  intros Hadj. apply adjustments_spec in Hadj.
  symmetry. eapply Forall2_length; eauto.
Qed.

Lemma np2_same_length {A B C} (f : A -> B -> C) a b :
  length a = length b -> np2 f a b = Ok (zip_with f a b).
Proof. intros Hl. unfold np2. rewrite Hl, Nat.eqb_refl. reflexivity. Qed.

Lemma upscaled_eq axes_bool disp :
  zip_with Z.mul ((fun a => 1 + bool_to_Z a)%Z <$> axes_bool) disp
  = upscaled axes_bool disp.
Proof.
  unfold upscaled. revert disp.
  induction axes_bool as [|a ab IH]; intros [|x disp]; cbn; try reflexivity.
  rewrite IH. f_equal. destruct a; cbn [bool_to_Z]; lia.
Qed.

Lemma upscaled_length axes_bool disp :
  length disp = length axes_bool ->
  length (upscaled axes_bool disp) = length axes_bool.
Proof. intros Hl. unfold upscaled. rewrite length_zip_with. lia. Qed.

Lemma within_bounds_in_bounds bounds d :
  bounds_fit bounds (length d) ->
  within_bounds d bounds = Ok (in_bounds bounds d).
Proof.
  unfold in_bounds, within_bounds, bounds_fit.
  destruct bounds as [b|]; [|reflexivity].
  intros ->. rewrite Nat.eqb_refl. destruct (_ && _); reflexivity.
Qed.

Lemma refine_step_spec ab disp bounds best r t adj :
  length disp = length ab -> length adj = length ab ->
  bounds_fit bounds (length ab) ->
  refine_step ab disp bounds (best, r, t) adj =
  let d := zip_with Z.add (upscaled ab disp) adj in
  if in_bounds bounds d then
    match shifted_corr r t d with
    | None => Raise PrimitiveError
    | Some (s, r', t') => Ok (take_better best (s, d), r', t')
    end
  else Ok (best, r, t).
Proof.
  intros Hd Ha Hb. unfold refine_step.
  rewrite np2_same_length by (rewrite length_fmap; lia).
  cbn [mbind result_bind]. rewrite upscaled_eq.
  rewrite np2_same_length by (rewrite upscaled_length; lia).
  cbn [mbind result_bind].
  rewrite within_bounds_in_bounds
    by (rewrite length_zip_with, upscaled_length by lia;
        rewrite Ha, Nat.min_id; exact Hb).
  cbn [mbind result_bind]. cbv zeta.
  destruct (in_bounds bounds _); [|reflexivity].
  destruct (shifted_corr r t _) as [[[s r'] t']|]; [|reflexivity].
  unfold take_better. cbn [fst]. destruct best as [[bc bd]|]; reflexivity.
Qed.

Lemma refine_loop_spec ab disp bounds adjs : forall best r t,
  length disp = length ab ->
  Forall (fun adj => length adj = length ab) adjs ->
  bounds_fit bounds (length ab) ->
  let kept := List.filter (in_bounds bounds) (candidates ab disp adjs) in
  refine_loop ab disp bounds adjs (best, r, t) =
  match score_all r t kept with
  | None => Raise PrimitiveError
  | Some (ss, r', t') => Ok (foldl take_better best (zip ss kept), r', t')
  end.
Proof.
  induction adjs as [|adj rest IH]; intros best r t Hd Hall Hb; [reflexivity|].
  apply Forall_cons in Hall as [Ha Hall].
  cbn [refine_loop]. rewrite refine_step_spec by auto. cbv zeta.
  unfold candidates. cbn [fmap list_fmap List.filter].
  fold (candidates ab disp rest).
  destruct (in_bounds bounds _); cbn [mbind result_bind].
  - cbn [score_all].
    destruct (shifted_corr r t _) as [[[s r'] t']|]; [|reflexivity].
    cbn [mbind result_bind]. rewrite IH by auto. cbv zeta.
    destruct (score_all r' t' _) as [[[ss r''] t'']|]; reflexivity.
  - rewrite IH by auto. reflexivity.
Qed.

(** The candidate the loop keeps scores at least as high as every
    other one. *)
Lemma take_better_max (l : list (Score * list Z)) :
  (forall s, score_gt s s = false) ->
  (forall a b c, score_gt a b = true -> score_gt b c = true ->
                 score_gt a c = true) ->
  match foldl take_better None l with
  | None => l = []
  | Some (s, d) =>
      (exists i, l !! i = Some (s, d)) /\
      forall j s' d', l !! j = Some (s', d') -> score_gt s' s = false
  end.
Proof.
  intros Hirr Htr. induction l as [|[sx dx] l IH] using rev_ind;
    [reflexivity|].
  rewrite foldl_snoc.
  destruct (foldl take_better None l) as [[s d]|]; cbn [take_better fst].
  - destruct IH as [[i Hi] Hmax].
    destruct (score_gt sx s) eqn:Hgt.
    + split.
      * exists (length l). apply list_lookup_middle. reflexivity.
      * intros j s' d' Hj. apply lookup_snoc_Some in Hj as [[_ Hj]|[_ [= <- <-]]];
          [|apply Hirr].
        destruct (score_gt s' sx) eqn:Hgt'; [|reflexivity].
        rewrite <- (Hmax j s' d' Hj). symmetry. eapply Htr; eauto.
    + split.
      * exists i. apply lookup_app_l_Some. exact Hi.
      * intros j s' d' Hj.
        apply lookup_snoc_Some in Hj as [[_ Hj]|[_ [= <- <-]]]; eauto.
  - subst l. split.
    + exists 0. reflexivity.
    + intros [|j] s' d' Hj; [|discriminate]. injection Hj as <- <-. apply Hirr.
Qed.
End RefinementLoop.

Section RefinementLevel.
Context {F Score : Type} `{FloatOps F} `{PyramidEnv F Score}.

Lemma score_all_length cs : forall (r t : image F) ss r' t',
  score_all r t cs = Some (ss, r', t') -> length ss = length cs.
Proof.
  induction cs as [|c cs IH]; intros r t ss r' t' Hs.
  - injection Hs as <- _ _. reflexivity.
  - cbn [score_all] in Hs.
    destruct (shifted_corr r t c) as [[[s r1] t1]|]; [|discriminate].
    destruct (score_all r1 t1 cs) as [[[ss1 r2] t2]|] eqn:Hrest;
      [|discriminate].
    injection Hs as <- _ _. cbn. f_equal. eauto.
Qed.

(** C3. Local refinement. At a level of [pyramid_align] that
    downsamples, with [disp] the displacement returned by the recursive
    call: the adjustments tried are exactly, and each once, the vectors
    with -1, 0 or +1 on the downsampled axes and 0 on the others; each is
    added to [disp] doubled on the downsampled axes; the candidates
    outside the bounds of this level are dropped; when none is left the
    call fails with the assertion of line 459; otherwise it returns a
    remaining candidate to which [shifted_corr] gave a score that no
    other remaining candidate exceeds. *)
Theorem refinement_level depth (reference target : image F) min_shape
    max_levels bounds ab nb coarse :
  (forall s, score_gt s s = false) ->
  (forall a b c, score_gt a b = true -> score_gt b c = true ->
                 score_gt a c = true) ->
  bounds_ordered bounds = true ->
  axes_of reference target min_shape = Ok ab ->
  levels_positive max_levels && existsb id ab = true ->
  halve_bounds bounds ab = Ok nb ->
  pyramid_align depth (pyr_down_3d reference (nonzero ab))
    (pyr_down_3d target (nonzero ab)) min_shape (levels_pred max_levels) nb
    = Ok coarse ->
  length coarse.1.1 = length ab ->
  bounds_fit bounds (length ab) ->
  let disp := coarse.1.1 in
  let kept := List.filter (in_bounds bounds)
                          (candidates ab disp (adjustments ab)) in
  let outcome :=
    pyramid_align (S depth) reference target min_shape max_levels bounds in
  (forall adj, adj ∈ adjustments ab <-> is_adjustment ab adj) /\
  NoDup (adjustments ab) /\
  (forall d b, In d kept -> bounds = Some b ->
     Forall2 (fun (w : Z * Z) x => (w.1 <= x <= w.2)%Z) b d) /\
  (kept = [] -> outcome = Raise (AssertionError AssertNoCandidate)) /\
  (score_all reference target kept = None -> outcome = Raise PrimitiveError) /\
  (forall ss r' t',
     score_all reference target kept = Some (ss, r', t') -> kept <> [] ->
     exists i d s,
       outcome = Ok (d, r', t') /\
       kept !! i = Some d /\ ss !! i = Some s /\
       forall j s', ss !! j = Some s' -> score_gt s' s = false).
Proof.
  intros Hirr Htr Hord Hax Hcond Hnb Hrec Hlen Hfit disp kept outcome.
  assert (Hout : outcome =
    match score_all reference target kept with
    | None => Raise PrimitiveError
    | Some (ss, r', t') =>
        match foldl take_better None (zip ss kept) with
        | None => Raise (AssertionError AssertNoCandidate)
        | Some (_, d) => Ok (d, r', t')
        end
    end).
  { subst outcome. rewrite pyramid_align_unfold. unfold pyramid_level.
    rewrite Hord, Hax. cbn [negb mbind result_bind]. rewrite Hcond, Hnb.
    cbn [mbind result_bind]. rewrite Hrec. cbn [mbind result_bind].
    rewrite refine_loop_spec; auto.
    - cbv zeta. fold disp. fold kept.
      destruct (score_all reference target kept) as [[[ss r'] t']|];
        [|reflexivity].
      cbn [mbind result_bind fst snd].
      destruct (foldl take_better None (zip ss kept)) as [[s d]|]; reflexivity.
    - apply Forall_forall. intros adj Hadj. apply adjustments_length, Hadj. }
  repeat apply conj.
  - apply adjustments_spec.
  - apply adjustments_NoDup.
  - intros d b Hd ->. apply filter_In in Hd as [_ Hd].
    unfold in_bounds in Hd. apply within_bounds_true.
    destruct (within_bounds d (Some b)) as [[]|]; congruence.
  - intros Hk. rewrite Hout, Hk. reflexivity.
  - intros Hs. rewrite Hout, Hs. reflexivity.
  - intros ss r' t' Hs Hne. rewrite Hout, Hs.
    pose proof (score_all_length _ _ _ _ _ _ Hs) as Hl.
    pose proof (take_better_max (zip ss kept) Hirr Htr) as Hmax.
    destruct (foldl take_better None (zip ss kept)) as [[s d]|].
    + destruct Hmax as [[i Hi] Hmax].
      apply lookup_zip_with_Some in Hi as (s0 & d0 & [= <- <-] & Hsi & Hdi).
      exists i, d, s. repeat split; auto.
      intros j s' Hj.
      destruct (lookup_lt_is_Some_2 kept j) as [d' Hd'].
      { rewrite <- Hl. eapply lookup_lt_Some; eauto. }
      apply (Hmax j s' d'). apply lookup_zip_with_Some. eauto.
    + destruct kept; [contradiction|]. destruct ss; discriminate.
Qed.
End RefinementLevel.

Lemma Z_gtb_irrefl s : Z.gtb s s = false.
Proof. rewrite Z.gtb_ltb. apply Z.ltb_irrefl. Qed.

Lemma Z_gtb_trans a b c :
  Z.gtb a b = true -> Z.gtb b c = true -> Z.gtb a c = true.
Proof. rewrite !Z.gtb_ltb, !Z.ltb_lt. lia. Qed.

Lemma refinement_level_witness :
  NoDup (adjustments demo_axes) /\
  exists d r t,
    pyramid_align 6 demo_frame demo_frame [2%Z] None (Some demo_bounds)
    = Ok (d, r, t).
Proof.
  pose proof (refinement_level 5 demo_frame demo_frame [2%Z] None
                (Some demo_bounds) demo_axes
                (Some [(0, 1); (-2, 1); (0, 2)]%Z) demo_coarse
                Z_gtb_irrefl Z_gtb_trans eq_refl eq_refl eq_refl eq_refl
                eq_refl eq_refl eq_refl) as Hlevel.
  cbv zeta in Hlevel.
  destruct Hlevel as (_ & Hnd & _ & _ & _ & Hbest).
  split; [exact Hnd|].
  edestruct Hbest as (i & d & s & Hrun & _); [reflexivity | discriminate |].
  eauto.
Defined.


Lemma expand_dims0_wf {A} (a : ndarray A 3) :
  wf_array a = true -> wf_array (expand_dims0 a) = true.
Proof.
  intros Hwf. apply wf_array_iff in Hwf as [Hl Hs].
  apply wf_array_iff. unfold expand_dims0. cbn [shape data]. split.
  - cbn. lia.
  - apply nd_shaped_cons. split; [reflexivity|].
    apply Forall_cons. split; [exact Hs | apply Forall_nil; exact I].
Qed.

Lemma broadcast_shape_refl sh : broadcast_shape sh sh = Some sh.
Proof.
  induction sh as [|s sh IH]; [reflexivity|]. cbn [broadcast_shape].
  rewrite IH. cbn. rewrite Nat.eqb_refl. reflexivity.
Qed.
Section CoordinatorFacts.
Context {F : Type} `{FloatOps F}.


(** C8, as the module has it. A plane whose counts are not all zero
    is where the method is examined: there ['ECC'] raises
    [NotImplementedError] and a method that is neither ['correlation']
    nor ['ECC'] raises the [ValueError] of line 241, a different
    exception; in both cases the namespace is as it was before the plane
    and the search was not called. *)
Theorem unsupported_method_fails (search : search_t F)
    (frame_idx cycle_idx p : nat) (method : string)
    (max_displacement : option (list Z)) (plane : ndarray F 3)
    (ns : Namespace F) (p_counts : ndarray F 3) :
  np_index (ns_pixel_counts ns) p = Ok p_counts ->
  nd_any f_truthy 3 (data p_counts) = true ->
  wf_array (ns_pixel_sums ns) = true ->
  wf_array (ns_pixel_counts ns) = true ->
  shape (ns_pixel_sums ns) = shape (ns_pixel_counts ns) ->
  method <> "correlation"%string ->
  align_plane search frame_idx cycle_idx method max_displacement p plane ns
  = (ns, Raise (if String.eqb method "ECC" then NotImplementedError
                else ValueError UnrecognizedMethod)) /\
  NotImplementedError <> ValueError UnrecognizedMethod.
Proof.
  intros Hidx Hany Hws Hwc Hsh Hm. split; [|discriminate].
  unfold align_plane, sh_bind, sh_read, sh_lift. rewrite Hidx, Hany.
  unfold search_plane, sh_bind, sh_read, sh_lift. cbn [id].
  rewrite Hidx.
  assert (exists p_sums, np_index (ns_pixel_sums ns) p = Ok p_sums /\
                         shape p_sums = shape p_counts) as (p_sums & Hps & Hshp).
  { unfold np_index in *.
    destruct (_ !! p) as [x|] eqn:Hx in Hidx; [|discriminate].
    injection Hidx as <-.
    apply wf_array_iff in Hws as [Hls Hss].
    apply wf_array_iff in Hwc as [Hlc Hsc].
    rewrite Hsh in *.
    destruct (shape (ns_pixel_counts ns)) as [|s0 sh']; [discriminate|].
    apply nd_shaped_cons in Hss as [Hlen _].
    apply nd_shaped_cons in Hsc as [Hlen' _].
    destruct (lookup_lt_is_Some_2 (data (ns_pixel_sums ns) : list (nd F 3)) p)
      as [y Hy].
    { rewrite Hlen, <- Hlen'. eapply lookup_lt_Some; eauto. }
    rewrite Hy. eexists. split; [reflexivity|]. reflexivity. }
  rewrite Hps. unfold np_op2. rewrite Hshp, broadcast_shape_refl.
  apply String.eqb_neq in Hm. rewrite Hm.
  destruct (String.eqb method "ECC"); reflexivity.
Qed.
End CoordinatorFacts.

Lemma mapM_Ok {A B} (f : A -> result B) (g : A -> B) (l : list A) :
  Forall (fun x => f x = Ok (g x)) l -> mapM f l = Ok (g <$> l).
Proof.
  induction 1 as [|x l Hx _ IH]; [reflexivity|].
  cbn [mapM]. rewrite Hx. cbn [mbind result_bind]. rewrite IH. reflexivity.
Qed.

Lemma concat_fmap_fmap {A B} (g : A -> B) (ll : list (list A)) :
  concat (fmap (M:=list) (fmap (M:=list) g) ll) = fmap (M:=list) g (concat ll).
Proof.
  induction ll as [|l ll IH]; [reflexivity|].
  cbn. rewrite fmap_app, IH. reflexivity.
Qed.

Lemma Forall_concat {A} (P : A -> Prop) (ll : list (list A)) :
  Forall P (concat ll) <-> Forall (Forall P) ll.
Proof.
  induction ll as [|l ll IH]; cbn.
  - split; constructor.
  - rewrite Forall_app, Forall_cons, IH. reflexivity.
Qed.

(** Subtracting [a] from every row subtracts it, once per row, from the
    column sums. *)
Lemma col_sums_sub (a : list Z) (rs : list (list Z)) : forall acc k,
  foldl (zip_with Z.add) (zip_with (fun s x => s - k * x)%Z acc a)
        ((fun row => zip_with Z.sub row a) <$> rs)
  = zip_with (fun s x => s - (k + Z.of_nat (length rs)) * x)%Z
             (foldl (zip_with Z.add) acc rs) a.
Proof.
  induction rs as [|r rs IH]; intros acc k.
  - cbn. apply zip_with_ext; [|reflexivity..]. intros s x. f_equal. lia.
  - cbn [fmap list_fmap foldl length].
    replace (zip_with Z.add (zip_with (fun s x => s - k * x)%Z acc a)
                            (zip_with Z.sub r a))
      with (zip_with (fun s x => s - (k + 1) * x)%Z (zip_with Z.add acc r) a).
    + rewrite IH. apply zip_with_ext; [|reflexivity..]. intros s x. lia.
    + clear. revert r a. induction acc as [|s acc IH]; intros [|y r] [|x a];
        cbn; try reflexivity. rewrite IH. f_equal. lia.
Qed.

Lemma Qtrunc_diff x y n :
  Qtrunc (Qmake x n - Qmake y n) = Z.quot (x - y) (Zpos n).
Proof.
  unfold Qtrunc, Qminus, Qplus, Qopp. cbn [Qnum Qden].
  replace (x * Zpos n + - y * Zpos n)%Z with ((x - y) * Zpos n)%Z by lia.
  rewrite Pos2Z.inj_mul. apply Z.quot_mul_cancel_r; lia.
Qed.

Lemma quot_of_rem x n : (0 < n)%Z -> Z.quot (x - n * Z.quot x n) n = 0%Z.
Proof.
  intros Hn. apply Z.quot_small_iff; [lia|].
  pose proof (Z.quot_rem' x n) as Hq.
  pose proof (Z.rem_bound_abs x n ltac:(lia)) as Hr.
  replace (x - n * Z.quot x n)%Z with (Z.rem x n) by lia. exact Hr.
Qed.

Lemma length_col_sums dim (rs : list (list Z)) : forall acc,
  length acc = dim -> Forall (fun row => length row = dim) rs ->
  length (foldl (zip_with Z.add) acc rs) = dim.
Proof.
  induction rs as [|r rs IH]; intros acc Ha Hall; [exact Ha|].
  apply Forall_cons in Hall as [Hr Hall]. cbn. apply IH; auto.
  rewrite length_zip_with. lia.
Qed.

Lemma align_planes_unfold shifts :
  _align_planes shifts =
  match concat (concat shifts) with
  | [] => Raise (ValueError EmptyReduction)
  | r :: rs =>
      let sums := foldl (zip_with Z.add) r rs in
      match sums with
      | [] => Raise IndexError
      | _ => mapM (mapM (mapM (fun row =>
               np2 Z.sub row (alteration_of sums (Pos.of_nat (S (length rs)))))))
                  shifts
      end
  end.
Proof.
  unfold _align_planes, nanmean_rows, col_reduce.
  destruct (concat (concat shifts)) as [|r rs]; [reflexivity|].
  cbn [mbind result_bind length]. cbv zeta.
  destruct (foldl (zip_with Z.add) r rs) as [|s0 sums] eqn:Hs; [reflexivity|].
  cbn [fmap list_fmap lookup list_lookup of_option mbind result_bind].
  match goal with
  | |- mapM (mapM (mapM (fun row => np2 Z.sub row ?x))) _ = _ =>
      replace x with (alteration_of (s0 :: sums) (Pos.of_nat (S (length rs))))
  end; [reflexivity|].
  unfold alteration_of. cbn [hd fmap list_fmap].
  f_equal; [symmetry; apply Qtrunc_diff|].
  rewrite <- list_fmap_compose. apply list_fmap_ext.
  intros _ s _. symmetry. apply Qtrunc_diff.
Qed.

(** Plane drift correction as the module computes it is idempotent (the
    means taken as exact rationals): on rows of one length, a second
    application computes the zero alteration and changes nothing. *)
Lemma align_planes_idempotent shifts shifts' dim :
  Forall (fun row => length row = dim) (concat (concat shifts)) ->
  _align_planes shifts = Ok shifts' ->
  _align_planes shifts' = Ok shifts'.
Proof.
  intros Hrows Hrun. rewrite align_planes_unfold in Hrun.
  destruct (concat (concat shifts)) as [|r rs] eqn:Hcc; [discriminate|].
  cbv zeta in Hrun.
  remember (foldl (zip_with Z.add) r rs) as sums eqn:Hfold.
  set (n := Pos.of_nat (S (length rs))) in *.
  assert (Hn : Zpos n = (1 + Z.of_nat (length rs))%Z) by (subst n; lia).
  apply Forall_cons in Hrows as [Hr Hrs].
  assert (Hls : length sums = dim)
    by (rewrite Hfold; apply length_col_sums; auto).
  destruct sums as [|s0 sums0]; [discriminate|].
  set (sums := s0 :: sums0) in *.
  set (a := alteration_of sums n) in *.
  assert (Hla : length a = dim) by (subst a; unfold alteration_of;
                                    rewrite length_fmap; exact Hls).
  assert (Hall : Forall (Forall (Forall (fun row => length row = dim))) shifts).
  { apply (proj1 (Forall_concat _ _)), (proj1 (Forall_concat _ _)).
    rewrite Hcc. apply Forall_cons. auto. }
  assert (Hs' : shifts' = fmap (M:=list) (fmap (M:=list) (fmap (M:=list)
                            (fun row => zip_with Z.sub row a))) shifts).
  { rewrite (mapM_Ok _ (fmap (M:=list) (fmap (M:=list)
                          (fun row => zip_with Z.sub row a)))) in Hrun.
    - congruence.
    - eapply Forall_impl; [exact Hall|]. intros c Hc.
      apply mapM_Ok. eapply Forall_impl; [exact Hc|]. intros f Hf.
      apply mapM_Ok. eapply Forall_impl; [exact Hf|]. intros row Hrow.
      apply np2_same_length. congruence. }
  assert (Hrows' : concat (concat shifts')
                   = zip_with (fun s x => s - 1 * x)%Z r a
                     :: (fmap (M:=list) (fun row => zip_with Z.sub row a) rs)).
  { rewrite Hs', !concat_fmap_fmap, Hcc. cbn [fmap list_fmap]. f_equal.
    apply zip_with_ext; [|reflexivity..]. intros s x. lia. }
  rewrite align_planes_unfold, Hrows'. cbv zeta.
  rewrite col_sums_sub, length_fmap, <- Hfold. fold n. rewrite <- Hn.
  assert (Hsums' : zip_with (fun s x => s - Zpos n * x)%Z sums a
                   = (fun s => s - Zpos n * Z.quot (s - hd 0 sums) (Zpos n))%Z
                       <$> sums).
  { subst a. unfold alteration_of. generalize (hd 0%Z sums). intros h.
    clear. induction sums as [|s sums IH]; [reflexivity|].
    cbn. rewrite IH. reflexivity. }
  rewrite Hsums'.
  assert (Halt : alteration_of
                   ((fun s => s - Zpos n * Z.quot (s - hd 0 sums) (Zpos n))%Z
                      <$> sums) n
                 = replicate dim 0%Z).
  { unfold alteration_of. rewrite <- Hls.
    assert (Hhd : hd 0%Z ((fun s => s - Zpos n * Z.quot (s - hd 0 sums) (Zpos n))%Z
                           <$> sums) = hd 0%Z sums).
    { destruct sums as [|t sums1]; [reflexivity|]. cbn [fmap list_fmap hd].
      replace (t - t)%Z with 0%Z by lia. rewrite Z.quot_0_l by lia. lia. }
    rewrite Hhd. generalize (hd 0%Z sums). intros h.
    clear. induction sums as [|s sums IH]; [reflexivity|].
    cbn [fmap list_fmap length replicate]. rewrite IH. f_equal.
    replace (s - Zpos n * Z.quot (s - h) (Zpos n) - h)%Z
      with ((s - h) - Zpos n * Z.quot (s - h) (Zpos n))%Z by lia.
    apply quot_of_rem. lia. }
  rewrite Halt.
  destruct (_ <$> sums) as [|z0 zs] eqn:Hne.
  { subst sums. discriminate. }
  clear Hne.
  assert (Hid : forall row, length row = dim ->
                  np2 Z.sub row (replicate dim 0%Z) = Ok row).
  { intros row Hrow. rewrite np2_same_length by (rewrite length_replicate; lia).
    f_equal. rewrite <- Hrow. clear. induction row as [|x row IH]; [reflexivity|].
    cbn. rewrite IH. f_equal. lia. }
  assert (HidM : forall {X} (f : X -> result X) xs,
                   Forall (fun x => f x = Ok x) xs -> mapM f xs = Ok xs).
  { intros X f xs Hf. rewrite (mapM_Ok f id) by exact Hf.
    rewrite list_fmap_id. reflexivity. }
  apply HidM. rewrite Hs'. apply Forall_fmap.
  eapply Forall_impl; [exact Hall|]. intros c Hc. cbv beta.
  apply HidM. apply Forall_fmap.
  eapply Forall_impl; [exact Hc|]. intros f Hf. cbv beta.
  apply HidM. apply Forall_fmap.
  eapply Forall_impl; [exact Hf|]. intros row Hrow. cbv beta.
  apply Hid. cbv beta in Hrow. rewrite length_zip_with, Hrow, Hla.
  apply Nat.min_id.
Qed.

Lemma mapM_indexed {A B} (l : list A) : forall (k : nat)
    (f : nat * A -> result B) (g : nat -> A -> B),
  (forall i x, l !! i = Some x -> f (k + i, x) = Ok (g i x)) ->
  mapM f (zip (seq k (length l)) l) = Ok (imap g l).
Proof.
  induction l as [|x l IH]; intros k f g Hf; [reflexivity|].
  cbn [length seq zip zip_with mapM imap].
  pose proof (Hf 0 x eq_refl) as H0. rewrite Nat.add_0_r in H0.
  rewrite H0. cbn [mbind result_bind].
  rewrite (IH (S k) f (g ∘ S)); [reflexivity|].
  intros i z Hz. unfold compose. rewrite <- (Hf (S i) z Hz).
  do 2 f_equal. lia.
Qed.

Lemma plane_rows_spec planes dim shifts p :
  rectangular planes dim shifts -> p < planes ->
  length (plane_rows shifts p) = length (concat shifts) /\
  Forall (fun row => length row = dim) (plane_rows shifts p).
Proof.
  unfold rectangular, plane_rows. intros Hrect Hp.
  induction Hrect as [|frame frames [Hlen Hrows] _ [IH1 IH2]];
    [split; [reflexivity|constructor]|].
  cbn [omap list_omap length].
  destruct (frame !! p) as [row|] eqn:Hrow.
  - cbn [length]. split; [congruence|]. constructor; [|exact IH2].
    rewrite Forall_lookup in Hrows. exact (Hrows p row Hrow).
  - apply lookup_ge_None in Hrow. lia.
Qed.

Lemma plane_sums_length planes dim shifts p :
  rectangular planes dim shifts -> p < planes -> concat shifts <> [] ->
  length (plane_sums shifts p) = dim.
Proof.
  intros Hrect Hp Hne. destruct (plane_rows_spec _ _ _ _ Hrect Hp) as [Hl Hr].
  unfold plane_sums. destruct (plane_rows shifts p) as [|r rs].
  - destruct (concat shifts); [congruence|discriminate].
  - apply Forall_cons in Hr as [Hr Hrs]. apply length_col_sums; assumption.
Qed.

Lemma plane_alt_length planes dim shifts p :
  rectangular planes dim shifts -> p < planes -> concat shifts <> [] ->
  length (plane_alt shifts p) = dim.
Proof.
  intros Hrect Hp Hne. unfold plane_alt.
  rewrite length_zip_with,
    (plane_sums_length _ _ _ _ Hrect Hp Hne),
    (plane_sums_length planes dim shifts 0 Hrect ltac:(lia) Hne).
  apply Nat.min_id.
Qed.

Lemma nanmean_rows_spec planes dim shifts p :
  rectangular planes dim shifts -> p < planes -> concat shifts <> [] ->
  nanmean_rows (plane_rows shifts p)
  = Ok (fmap (M:=list)
          (fun s => Qmake s (Pos.of_nat (length (concat shifts))))
          (plane_sums shifts p)).
Proof.
  intros Hrect Hp Hne. destruct (plane_rows_spec _ _ _ _ Hrect Hp) as [Hl _].
  unfold nanmean_rows, plane_sums, col_reduce. rewrite <- Hl.
  destruct (plane_rows shifts p) as [|r rs]; [|reflexivity].
  destruct (concat shifts); [congruence|discriminate].
Qed.

(** On rectangular shifts the alteration of an existing plane is computed
    without error and is [plane_alt]. *)
Lemma plane_alteration_spec planes dim shifts p :
  rectangular planes dim shifts -> p < planes -> concat shifts <> [] ->
  plane_alteration shifts p = Ok (plane_alt shifts p).
Proof.
  intros Hrect Hp Hne. unfold plane_alteration.
  rewrite (nanmean_rows_spec _ _ _ _ Hrect Hp Hne),
    (nanmean_rows_spec planes dim shifts 0 Hrect ltac:(lia) Hne).
  cbn [mbind result_bind].
  rewrite np2_same_length
    by (rewrite !length_fmap, (plane_sums_length _ _ _ _ Hrect Hp Hne),
          (plane_sums_length planes dim shifts 0 Hrect ltac:(lia) Hne);
        reflexivity).
  f_equal. unfold plane_alt. rewrite zip_with_fmap_l, zip_with_fmap_r.
  apply zip_with_ext; [|reflexivity..]. intros s s0. apply Qtrunc_diff.
Qed.

(** The correction of the specification, run on rectangular shifts. *)
Lemma drift_correction_spec_run planes dim shifts :
  rectangular planes dim shifts ->
  drift_correction_spec shifts = Ok (shift_planes (plane_alt shifts) shifts).
Proof.
  intros Hrect. unfold drift_correction_spec, shift_planes.
  assert (Hall : Forall (Forall (fun frame : list (list Z) =>
                   In frame (concat shifts))) shifts).
  { apply Forall_concat. apply Forall_forall. intros x Hx.
    apply list_elem_of_In. exact Hx. }
  apply mapM_Ok. eapply Forall_impl; [exact Hall|]. intros c Hc.
  apply mapM_Ok. eapply Forall_impl; [exact Hc|]. intros frame Hin.
  cbv beta in *.
  assert (Hne : concat shifts <> []).
  { intros Hnil. rewrite Hnil in Hin. destruct Hin. }
  unfold rectangular in Hrect. rewrite Forall_forall in Hrect.
  destruct (Hrect frame (proj2 (list_elem_of_In _ _) Hin)) as [Hlen Hrows].
  apply mapM_indexed. intros i row Hrow. cbn [fst snd Nat.add].
  assert (Hi : i < planes).
  { apply lookup_lt_Some in Hrow. lia. }
  assert (Hrect' : rectangular planes dim shifts).
  { unfold rectangular. apply Forall_forall. exact Hrect. }
  rewrite (plane_alteration_spec _ _ _ _ Hrect' Hi Hne).
  cbn [mbind result_bind]. apply np2_same_length.
  rewrite (plane_alt_length _ _ _ _ Hrect' Hi Hne).
  rewrite Forall_lookup in Hrows. exact (Hrows i row Hrow).
Qed.

Lemma concat_shift_planes alt shifts :
  concat (shift_planes alt shifts)
  = fmap (M:=list) (imap (fun p (row : list Z) => zip_with Z.sub row (alt p)))
         (concat shifts).
Proof. unfold shift_planes. apply concat_fmap_fmap. Qed.

Lemma plane_rows_shift_planes alt shifts p :
  plane_rows (shift_planes alt shifts) p
  = fmap (M:=list) (fun row => zip_with Z.sub row (alt p)) (plane_rows shifts p).
Proof.
  unfold plane_rows. rewrite concat_shift_planes.
  induction (concat shifts) as [|frame frames IH]; [reflexivity|].
  cbn [fmap list_fmap omap list_omap].
  rewrite list_lookup_imap.
  fold (@fmap list _ _ _
          (imap (fun p (row : list Z) => zip_with Z.sub row (alt p))) frames).
  rewrite IH. destruct (frame !! p); reflexivity.
Qed.

Lemma plane_sums_shift_planes alt shifts p :
  plane_sums (shift_planes alt shifts) p
  = zip_with (fun s x => s - Z.of_nat (length (plane_rows shifts p)) * x)%Z
             (plane_sums shifts p) (alt p).
Proof.
  unfold plane_sums. rewrite plane_rows_shift_planes.
  destruct (plane_rows shifts p) as [|r rs]; [reflexivity|].
  cbn [fmap list_fmap length].
  replace (zip_with Z.sub r (alt p))
    with (zip_with (fun s x => s - 1 * x)%Z r (alt p))
    by (apply zip_with_ext; [|reflexivity..]; intros s x; lia).
  fold (@fmap list _ _ _ (fun row => zip_with Z.sub row (alt p)) rs).
  rewrite col_sums_sub. apply zip_with_ext; [|reflexivity..].
  intros s x. f_equal. lia.
Qed.

Lemma rectangular_shift_planes planes dim alt shifts :
  rectangular planes dim shifts ->
  (forall p, p < planes -> concat shifts <> [] -> length (alt p) = dim) ->
  rectangular planes dim (shift_planes alt shifts).
Proof.
  unfold rectangular. intros Hrect Halt. rewrite concat_shift_planes.
  apply Forall_fmap. rewrite Forall_forall in Hrect. apply Forall_forall.
  intros frame Hin. destruct (Hrect frame Hin) as [Hlen Hrows]. cbv beta.
  split; [rewrite length_imap; exact Hlen|].
  apply Forall_lookup. intros i row' Hrow'.
  rewrite list_lookup_imap in Hrow'.
  destruct (frame !! i) as [row|] eqn:Hrow; [|discriminate].
  injection Hrow' as <-. rewrite length_zip_with.
  rewrite Forall_lookup in Hrows. rewrite (Hrows i row Hrow).
  rewrite Halt; [apply Nat.min_id| |].
  - apply lookup_lt_Some in Hrow. lia.
  - intros Hnil. rewrite Hnil in Hin. inversion Hin.
Qed.

Lemma quot_zero_zip (n : Z) (a b : list Z) : (0 < n)%Z -> length a = length b ->
  zip_with (fun s s0 => Z.quot (s - s0) n)
    (zip_with (fun s x => s - n * x)%Z a
       (zip_with (fun s s0 => Z.quot (s - s0) n) a b))
    (zip_with (fun s x => s - n * x)%Z b
       (zip_with (fun s s0 => Z.quot (s - s0) n) b b))
  = replicate (length a) 0%Z.
Proof.
  intros Hn. revert b. induction a as [|x a IH]; intros [|y b] Hl;
    try discriminate; [reflexivity|].
  cbn [zip_with length replicate]. rewrite IH by (cbn in Hl; lia). f_equal.
  replace (y - y)%Z with 0%Z by lia. rewrite Z.quot_0_l by lia.
  replace (x - n * Z.quot (x - y) n - (y - n * 0))%Z
    with ((x - y) - n * Z.quot (x - y) n)%Z by lia.
  apply quot_of_rem. exact Hn.
Qed.

(** After the correction of the specification every plane's alteration is
    zero. *)
Lemma plane_alt_after planes dim shifts p :
  rectangular planes dim shifts -> p < planes -> concat shifts <> [] ->
  plane_alt (shift_planes (plane_alt shifts) shifts) p = replicate dim 0%Z.
Proof.
  intros Hrect Hp Hne.
  assert (H0 : 0 < planes) by lia.
  destruct (plane_rows_spec _ _ _ _ Hrect Hp) as [Hlp _].
  destruct (plane_rows_spec _ _ _ _ Hrect H0) as [Hl0 _].
  unfold plane_alt at 1. rewrite !plane_sums_shift_planes, Hlp, Hl0.
  rewrite concat_shift_planes, length_fmap.
  assert (Hn : Z.of_nat (length (concat shifts))
               = Zpos (Pos.of_nat (length (concat shifts)))).
  { destruct (concat shifts); [congruence|]. cbn [length]. lia. }
  rewrite Hn. unfold plane_alt. rewrite <- Hn.
  rewrite <- (plane_sums_length _ _ _ _ Hrect Hp Hne).
  apply quot_zero_zip.
  - destruct (concat shifts); [congruence|]. cbn [length]. lia.
  - rewrite (plane_sums_length _ _ _ _ Hrect Hp Hne),
      (plane_sums_length _ _ _ _ Hrect H0 Hne). reflexivity.
Qed.

(** The correction the specification describes is idempotent (the means
    taken as exact rationals): on shifts whose frames all have the same
    planes and row length it is computed without error, and computing it
    again from its result changes nothing. *)
Lemma drift_correction_spec_idempotent planes dim shifts :
  rectangular planes dim shifts ->
  exists shifts',
    drift_correction_spec shifts = Ok shifts' /\
    drift_correction_spec shifts' = Ok shifts'.
Proof.
  intros Hrect. exists (shift_planes (plane_alt shifts) shifts).
  split; [exact (drift_correction_spec_run _ _ _ Hrect)|].
  set (s' := shift_planes (plane_alt shifts) shifts).
  assert (Hrect' : rectangular planes dim s').
  { apply rectangular_shift_planes; [exact Hrect|].
    intros p Hp Hne. exact (plane_alt_length _ _ _ _ Hrect Hp Hne). }
  rewrite (drift_correction_spec_run _ _ _ Hrect').
  f_equal. unfold shift_planes at 1.
  assert (Hall : Forall (Forall (fun frame : list (list Z) =>
                   In frame (concat s'))) s').
  { apply Forall_concat. apply Forall_forall. intros x Hx.
    apply list_elem_of_In. exact Hx. }
  rewrite <- (list_fmap_id s') at 2.
  apply Forall_fmap_ext. eapply Forall_impl; [exact Hall|]. intros c Hc.
  cbv beta. rewrite <- (list_fmap_id c) at 2.
  apply Forall_fmap_ext. eapply Forall_impl; [exact Hc|]. intros frame Hin.
  cbv beta.
  assert (Hne' : concat s' <> []).
  { intros Hnil. rewrite Hnil in Hin. destruct Hin. }
  assert (Hne : concat shifts <> []).
  { intros Hnil. apply Hne'. subst s'. rewrite concat_shift_planes, Hnil.
    reflexivity. }
  pose proof Hrect' as Hr. unfold rectangular in Hr.
  rewrite Forall_forall in Hr.
  destruct (Hr frame (proj2 (list_elem_of_In _ _) Hin)) as [Hlen Hrows].
  unfold id. apply list_eq. intros i. rewrite list_lookup_imap.
  destruct (frame !! i) as [row|] eqn:Hrow; [|reflexivity].
  cbn [fmap option_fmap option_map]. f_equal.
  assert (Hi : i < planes) by (apply lookup_lt_Some in Hrow; lia).
  subst s'. rewrite (plane_alt_after _ _ _ _ Hrect Hi Hne).
  rewrite Forall_lookup in Hrows. rewrite <- (Hrows i row Hrow).
  clear. induction row as [|x row IH]; [reflexivity|].
  cbn. rewrite IH. f_equal. lia.
Qed.

(** C8, as stated, fails. A run over one frame with method ['ECC'], and
    one with an unrecognized method, end without any error; over two
    frames the run with ['ECC'] fails only at the second frame, when the
    correlation of the first and the accumulator have been assigned. *)
Lemma unsupported_method_not_immediate :
  _frame_alignment_base 10 4 0%Z demo_dataset None "ECC" (Some 1%Z)
    = Ok ([[[[0; 0]]]]%Z, [[[1%Z]]]) /\
  _frame_alignment_base 10 4 0%Z demo_dataset None "bogus" (Some 1%Z)
    = Ok ([[[[0; 0]]]]%Z, [[[1%Z]]]) /\
  (_align_frame 10 0 demo_frame 0 "ECC" None demo_namespace).2 = Ok tt /\
  (let r := align_cycles 10 "ECC" None 0 (cycles demo_dataset2) demo_namespace in
   r.2 = Raise NotImplementedError /\
   ns_correlations r.1 <> ns_correlations demo_namespace /\
   ns_pixel_counts r.1 <> ns_pixel_counts demo_namespace).
Proof.
  repeat split; try (vm_compute; reflexivity); vm_compute; discriminate.
Qed.

Lemma unsupported_method_fails_witness :
  align_plane failing_search 1 0 "ECC" None 0 demo_plane demo_seeded
  = (demo_seeded, Raise NotImplementedError).
Proof.
  refine (proj1 (unsupported_method_fails failing_search 1 0 0 "ECC" None
                   demo_plane demo_seeded
                   (NDArray [4; 4; 1] (nd_full 3 [4; 4; 1] 1%Z)) _ _ _ _ _ _)).
  - vm_compute. reflexivity.
  - vm_compute. reflexivity.
  - vm_compute. reflexivity.
  - vm_compute. reflexivity.
  - vm_compute. reflexivity.
  - discriminate.
Defined.


(** C9. On a machine with one processor and [n_processes] unspecified,
    the pool size is 0, not 1, and the pool cannot be created; an explicit
    0 becomes 1 and any other explicit value is kept. *)
Theorem n_pools_single_cpu :
  n_pools None 1 = 0%Z /\
  (forall recursion_limit uninit (dataset : Dataset Z) max_displacement method,
     _frame_alignment_base recursion_limit 1 uninit dataset max_displacement
                           method None
     = Raise (ValueError PoolSize)) /\
  (forall cpu_count, n_pools (Some 0%Z) cpu_count = 1%Z) /\
  (forall n cpu_count,
     n_pools (Some n) cpu_count = if (n =? 0)%Z then 1%Z else n) /\
  (forall cpu_count, n_pools None cpu_count = (cpu_count / 2)%Z).
Proof. repeat split; reflexivity. Qed.

(** C7. Two frames of two planes, plane 1 displaced by (4, 8) in the
    second: [_align_planes] takes one mean over all planes, (1, 2), and
    subtracts (0, 1) from every shift, those of plane zero included; the
    correction by plane means leaves plane zero alone and moves plane 1
    by (2, 4). *)
Theorem align_planes_not_per_plane :
  _align_planes demo_shifts
    = Ok [[ [[0; -1]; [0; -1]]; [[0; -1]; [4; 7]] ]]%Z /\
  drift_correction_spec demo_shifts
    = Ok [[ [[0; 0]; [-2; -4]]; [[0; 0]; [2; 4]] ]]%Z.
Proof. split; vm_compute; reflexivity. Qed.

Lemma demo_base_in_bounds (r t : image Z) b d' :
  align_cross_correlation r t (Some b) = Some d' ->
  within_bounds d' (Some b) = Ok true.
Proof.
  cbn [align_cross_correlation demo_env].
  destruct (forallb _ b) eqn:Hb; [|discriminate]. intros [= <-].
  unfold within_bounds. rewrite length_fmap, Nat.eqb_refl. f_equal.
  apply andb_true_iff. split.
  - clear Hb. induction b as [|[lo hi] b IH]; [reflexivity|].
    cbn. apply andb_true_iff. split; [apply Z.leb_le; lia | exact IH].
  - induction b as [|[lo hi] b IH]; [reflexivity|].
    cbn in Hb |- *. apply andb_true_iff in Hb as [Hw Hb].
    apply andb_true_iff. split; [|exact (IH Hb)].
    apply Z.geb_le. apply Z.leb_le in Hw. exact Hw.
Qed.

Lemma pyramid_align_within_bounds_witness :
  Forall2 (fun (w : Z * Z) x => (w.1 <= x <= w.2)%Z) demo_bounds [0; -3; 1]%Z.
Proof.
  refine (pyramid_align_within_bounds 6 demo_frame demo_frame [2%Z] None
            demo_bounds [0; -3; 1]%Z demo_frame demo_frame
            demo_base_in_bounds _).
  vm_compute. reflexivity.
Defined.

Lemma offset_update_witness :
  exists s1 c1 o1 s2 c2 o2,
    update_all demo_zeros demo_zeros [0; 0; 0]%Z demo_updates = Ok (s1, c1, o1) /\
    _update_reference s1 c1 o1 [0; -5; 2]%Z demo_image = Ok (s2, c2, o2) /\
    o2 = zip_with Z.max o1 (Z.opp <$> [0; -5; 2]%Z) /\
    Forall2 Z.le [0; 0; 0]%Z o1 /\ Forall2 Z.le o1 o2 /\
    write_in_range (zip_with Z.add o2 [0; -5; 2]%Z) (shape demo_image) (shape s2).
Proof.
  apply (offset_update demo_updates [0; -5; 2]%Z demo_image demo_zeros
           demo_zeros [0; 0; 0]%Z); try reflexivity.
  - exact demo_compatible.
  - repeat split; reflexivity.
Defined.

Lemma unbounded_search_keeps_candidate_witness :
  pyramid_align 6 demo_frame demo_frame [2%Z] None None
  <> Raise (AssertionError AssertNoCandidate).
Proof.
  exact (proj2 (proj2 (proj2 unbounded_search_keeps_candidate))
           6 demo_frame demo_frame [2%Z] None).
Defined.

(** * Further properties *)

(** ** Resizing *)

Section PaddedCells.
Context {A : Type}.

Lemma nd_get_full n : forall sh idx (x : A),
  length sh = n -> Forall2 lt idx sh ->
  nd_get n idx (nd_full n sh x) = Some x.
Proof.
  induction n as [|m IH]; intros sh idx x Hl Hidx.
  - destruct sh; [|discriminate]. inversion Hidx. reflexivity.
  - destruct Hidx as [|i s idx' sh' Hi Hidx]; [discriminate|].
    cbn [nd_full nd_get hd tl].
    rewrite lookup_replicate_2 by exact Hi. cbn [mbind option_bind].
    apply IH; [cbn in Hl; lia|exact Hidx].
Qed.

Lemma nd_get_in_range n : forall sh idx (a : nd A n),
  nd_shaped n sh a = true -> Forall2 lt idx sh ->
  is_Some (nd_get n idx a).
Proof.
  induction n as [|m IH]; intros sh idx a Ha Hidx.
  - destruct sh; [|discriminate]. inversion Hidx. eexists. reflexivity.
  - nd_lists. destruct Hidx as [|i s idx' sh' Hi Hidx]; [discriminate|].
    apply nd_shaped_cons in Ha as [Hl Ha]. cbn [nd_get].
    destruct (lookup_lt_is_Some_2 a i) as [child Hc]; [lia|].
    rewrite Hc. cbn [mbind option_bind]. rewrite Forall_lookup in Ha.
    eapply IH; eauto.
Qed.

Lemma unpad_cons (w : nat * nat) pw i idx :
  unpad (w :: pw) (i :: idx) =
  if w.1 <=? i then (fun j => (i - w.1) :: j) <$> unpad pw idx else None.
Proof.
  unfold unpad. cbn [zip_with forallb id].
  destruct (w.1 <=? i); [|reflexivity]. cbn [andb].
  destruct (forallb _ _); reflexivity.
Qed.

(** Every element of a padded array: the element of the original it comes
    from, or the fill value. *)
Lemma nd_get_pad_all (fill : A) n : forall pw sh idx (a : nd A n),
  length pw = n -> length sh = n -> nd_shaped n sh a = true ->
  Forall2 lt idx (padded_shape pw sh) ->
  nd_get n idx (nd_pad fill n pw sh a)
  = Some (default fill (unpad pw idx ≫= fun j => nd_get n j a)).
Proof.
  induction n as [|m IH]; intros pw sh idx a Hpw Hsh Ha Hidx.
  - destruct pw; [|discriminate]. destruct sh; [|discriminate].
    inversion Hidx. reflexivity.
  - nd_lists. destruct pw as [|w pw']; [discriminate|].
    destruct sh as [|s sh']; [discriminate|].
    apply nd_shaped_cons in Ha as [Hla Ha].
    unfold padded_shape in Hidx. cbn [zip_with] in Hidx.
    fold (padded_shape pw' sh') in Hidx.
    destruct idx as [|i idx']; [inversion Hidx|].
    apply Forall2_cons in Hidx as [Hi Hidx].
    cbn [nd_pad nd_get hd tl]. rewrite unpad_cons.
    assert (Hblk : nd_get m idx' (nd_full m (padded_shape pw' sh') fill)
                   = Some fill).
    { apply nd_get_full; [|exact Hidx].
      rewrite padded_shape_length; cbn in Hpw, Hsh; lia. }
    destruct (Nat.leb_spec w.1 i) as [Hlo|Hlo].
    + rewrite lookup_app_r by (rewrite length_replicate; exact Hlo).
      rewrite length_replicate.
      destruct (Nat.lt_ge_cases (i - w.1) s) as [Hin|Hout].
      * rewrite lookup_app_l by (rewrite length_fmap; lia).
        rewrite list_lookup_fmap.
        destruct (lookup_lt_is_Some_2 a (i - w.1)) as [child Hc]; [lia|].
        rewrite Hc. cbn [fmap option_fmap option_map mbind option_bind].
        rewrite Forall_lookup in Ha.
        rewrite (IH pw' sh' idx' child); [|cbn in Hpw, Hsh; lia..|eauto|exact Hidx].
        destruct (unpad pw' idx') as [j|]; cbn [fmap option_fmap option_map
          mbind option_bind nd_get default]; [|reflexivity].
        rewrite Hc. reflexivity.
      * rewrite lookup_app_r by (rewrite length_fmap; lia).
        rewrite length_fmap, lookup_replicate_2 by lia.
        cbn [mbind option_bind]. rewrite Hblk.
        destruct (unpad pw' idx') as [j|]; cbn [fmap option_fmap option_map
          mbind option_bind nd_get default]; [|reflexivity].
        rewrite (lookup_ge_None_2 a) by lia. reflexivity.
    + rewrite lookup_app_l by (rewrite length_replicate; exact Hlo).
      rewrite lookup_replicate_2 by exact Hlo. cbn [mbind option_bind].
      exact Hblk.
Qed.
End PaddedCells.

Lemma grown_pads s e at_ :
  grown s e at_
  = pad_before at_ + s + Z.to_nat (Z.max 0 (at_ + Z.of_nat e - Z.of_nat s)).
Proof. reflexivity. Qed.

Section Resizing.
Context {F : Type} `{FloatOps F}.

Lemma pad_widths_3 (s0 s1 s2 c e0 e1 e2 c' : nat) (p0 p1 p2 : Z) :
  pad_widths [s0; s1; s2; c] [p0; p1; p2] [e0; e1; e2; c']
  = Ok [(pad_before p0, Z.to_nat (Z.max 0 (p0 + Z.of_nat e0 - Z.of_nat s0)));
        (pad_before p1, Z.to_nat (Z.max 0 (p1 + Z.of_nat e1 - Z.of_nat s1)));
        (pad_before p2, Z.to_nat (Z.max 0 (p2 + Z.of_nat e2 - Z.of_nat s2)));
        (0, 0)].
Proof. reflexivity. Qed.

Lemma resize_array_shape (a : ndarray F 4) (p0 p1 p2 : Z)
    (s0 s1 s2 c e0 e1 e2 c' : nat) :
  shape a = [s0; s1; s2; c] ->
  exists r, _resize_array a [p0; p1; p2] [e0; e1; e2; c'] = Ok r /\
    shape r = [grown s0 e0 p0; grown s1 e1 p1; grown s2 e2 p2; c] /\
    (existsb (fun w : nat * nat => negb (w.1 =? 0) || negb (w.2 =? 0))
       [(pad_before p0, Z.to_nat (Z.max 0 (p0 + Z.of_nat e0 - Z.of_nat s0)));
        (pad_before p1, Z.to_nat (Z.max 0 (p1 + Z.of_nat e1 - Z.of_nat s1)));
        (pad_before p2, Z.to_nat (Z.max 0 (p2 + Z.of_nat e2 - Z.of_nat s2)));
        (0, 0)] = false -> r = a).
Proof.
  intros Hs. unfold _resize_array. rewrite Hs, pad_widths_3.
  cbn [mbind result_bind].
  destruct (existsb _ _) eqn:Hany.
  - eexists. split; [reflexivity|]. split; [|discriminate].
    unfold np_pad. cbn [shape]. rewrite Hs. unfold padded_shape.
    cbn [zip_with fst snd]. rewrite !grown_pads, Nat.add_0_r. reflexivity.
  - exists a. split; [reflexivity|]. split; [|reflexivity].
    rewrite Hs, !grown_pads.
    cbn [existsb fst snd] in Hany.
    repeat (apply orb_false_iff in Hany as [?%orb_false_iff Hany]).
    repeat match goal with
           | Hx : _ /\ _ |- _ => destruct Hx as [?%negb_false_iff%Nat.eqb_eq
                                                  ?%negb_false_iff%Nat.eqb_eq]
           end.
    repeat f_equal; lia.
Qed.

(** X1 (lines 310-329, [_resize_array]): the array is enlarged only when
    necessary.  No axis ever shrinks, the channel axis keeps its extent,
    and the array handed in is returned as it is exactly when the block
    of the frame's shape placed at the displacement already lies inside
    it. *)
Theorem resize_array_only_when_needed (a : ndarray F 4) (p0 p1 p2 : Z)
    (s0 s1 s2 c e0 e1 e2 c' : nat) :
  shape a = [s0; s1; s2; c] ->
  exists r, _resize_array a [p0; p1; p2] [e0; e1; e2; c'] = Ok r /\
    shape r = [grown s0 e0 p0; grown s1 e1 p1; grown s2 e2 p2; c] /\
    (s0 <= grown s0 e0 p0 /\ s1 <= grown s1 e1 p1 /\ s2 <= grown s2 e2 p2) /\
    (r = a <-> write_in_range [p0; p1; p2] [e0; e1; e2] [s0; s1; s2]).
Proof.
  intros Hs.
  destruct (resize_array_shape a p0 p1 p2 s0 s1 s2 c e0 e1 e2 c' Hs)
    as (r & Hr & Hsr & Hsame).
  exists r. split; [exact Hr|]. split; [exact Hsr|].
  split; [unfold grown; lia|].
  unfold write_in_range. cbn [zip zip_with].
  rewrite !Forall_cons. cbn [fst snd]. split.
  - intros ->. rewrite Hs in Hsr. injection Hsr as H0 H1 H2.
    unfold grown in *. repeat split; try lia. constructor.
  - intros ((Ha0 & Hb0) & (Ha1 & Hb1) & (Ha2 & Hb2) & _).
    apply Hsame. unfold pad_before. cbn [existsb fst snd].
    repeat match goal with
           | |- context [negb (?x =? 0)] =>
               replace x with 0 by lia; cbn [Nat.eqb negb orb]
           end.
    reflexivity.
Qed.

(** X2 (lines 321-329, [_resize_array]): the contents after a resize.
    Every element of the result is the element of the original array at
    the index moved back by the low-side pad widths, and 0.0 where the
    original has no such element. *)
Theorem resize_array_contents (a : ndarray F 4) (p0 p1 p2 : Z)
    (s0 s1 s2 c e0 e1 e2 c' : nat) :
  wf_array a = true ->
  shape a = [s0; s1; s2; c] ->
  exists r, _resize_array a [p0; p1; p2] [e0; e1; e2; c'] = Ok r /\
    forall i0 i1 i2 ch,
      i0 < grown s0 e0 p0 -> i1 < grown s1 e1 p1 -> i2 < grown s2 e2 p2 ->
      ch < c ->
      get r [i0; i1; i2; ch]
      = Some (if (pad_before p0 <=? i0) && (pad_before p1 <=? i1)
                 && (pad_before p2 <=? i2)
              then default f_zero
                     (get a [i0 - pad_before p0; i1 - pad_before p1;
                             i2 - pad_before p2; ch])
              else f_zero).
Proof.
  intros Hwf Hs. apply wf_array_iff in Hwf as [_ Hsh].
  unfold _resize_array. rewrite Hs, pad_widths_3. cbn [mbind result_bind].
  set (pw := [(pad_before p0, _); (pad_before p1, _); (pad_before p2, _);
              (0, 0)]).
  assert (Hpad : forall i0 i1 i2 ch,
    i0 < grown s0 e0 p0 -> i1 < grown s1 e1 p1 -> i2 < grown s2 e2 p2 ->
    ch < c ->
    nd_get 4 [i0; i1; i2; ch] (nd_pad f_zero 4 pw (shape a) (data a))
    = Some (if (pad_before p0 <=? i0) && (pad_before p1 <=? i1)
               && (pad_before p2 <=? i2)
            then default f_zero
                   (get a [i0 - pad_before p0; i1 - pad_before p1;
                           i2 - pad_before p2; ch])
            else f_zero)).
  { intros i0 i1 i2 ch H0 H1 H2 Hc.
    rewrite (nd_get_pad_all f_zero 4 pw (shape a)); [|reflexivity|
      rewrite Hs; reflexivity|exact Hsh|].
    - subst pw. rewrite !unpad_cons. cbn [fst].
      change (unpad [] []) with (Some (@nil nat)).
      change (0 <=? ch) with true. cbv iota.
      cbn [fmap option_fmap option_map]. rewrite Nat.sub_0_r.
      destruct (pad_before p0 <=? i0), (pad_before p1 <=? i1),
        (pad_before p2 <=? i2); reflexivity.
    - rewrite Hs. subst pw. unfold padded_shape. cbn [zip_with fst snd].
      rewrite <- !grown_pads.
      repeat (apply Forall2_cons; split; [assumption || lia|]).
      constructor. }
  destruct (existsb _ pw) eqn:Hany.
  - eexists. split; [reflexivity|]. intros i0 i1 i2 ch H0 H1 H2 Hc.
    unfold get, np_pad. cbn [data]. apply Hpad; assumption.
  - exists a. split; [reflexivity|]. intros i0 i1 i2 ch H0 H1 H2 Hc.
    assert (Hz : pad_before p0 = 0 /\ pad_before p1 = 0 /\ pad_before p2 = 0
                 /\ grown s0 e0 p0 = s0 /\ grown s1 e1 p1 = s1
                 /\ grown s2 e2 p2 = s2).
    { subst pw. cbn [existsb fst snd] in Hany. rewrite !grown_pads.
      repeat (apply orb_false_iff in Hany as [?%orb_false_iff Hany]).
      repeat match goal with
             | Hx : _ /\ _ |- _ =>
                 destruct Hx as [?%negb_false_iff%Nat.eqb_eq
                                 ?%negb_false_iff%Nat.eqb_eq]
             end.
      lia. }
    destruct Hz as (Hz0 & Hz1 & Hz2 & Hg0 & Hg1 & Hg2).
    rewrite Hz0, Hz1, Hz2. cbn [Nat.leb andb]. rewrite !Nat.sub_0_r.
    destruct (nd_get_in_range 4 (shape a) [i0; i1; i2; ch] (data a))
      as [v Hv]; [exact Hsh|rewrite Hs|].
    { repeat (apply Forall2_cons; split; [lia|]). constructor. }
    unfold get. rewrite Hv. reflexivity.
Qed.
End Resizing.

(** ** Adding at an offset *)

Lemma nd_get_range {A} n : forall sh idx (a : nd A n) v,
  nd_shaped n sh a = true -> nd_get n idx a = Some v -> Forall2 lt idx sh.
Proof.
  induction n as [|m IH]; intros sh idx a v Ha Hv.
  - destruct sh; [|discriminate]. destruct idx; [constructor|discriminate].
  - nd_lists. destruct sh as [|s sh']; [discriminate|].
    apply nd_shaped_cons in Ha as [Hl Ha].
    destruct idx as [|i idx']; [discriminate|]. cbn [nd_get] in Hv.
    destruct (a !! i) as [child|] eqn:Hc; [|discriminate].
    cbn [mbind option_bind] in Hv. constructor.
    + apply lookup_lt_Some in Hc. lia.
    + rewrite Forall_lookup in Ha. eapply IH; eauto.
Qed.

Lemma slice_clipped (s e : nat) (p : Z) :
  sticks_out s e p ->
  (e =? slice_norm s (p + Z.of_nat e) - slice_norm s p) || (e =? 1) = false.
Proof.
  intros (Hp & He & Hs). unfold slice_norm.
  destruct (Z.ltb_spec (p + Z.of_nat e) 0); [lia|].
  destruct (Z.ltb_spec p 0); [lia|].
  apply orb_false_iff. split; apply Nat.eqb_neq; lia.
Qed.

Lemma slice_wrapped (s e : nat) (p : Z) :
  slice_indices (wrapped s e p) (wrapped s e p + Z.of_nat e) s
  = slice_indices p (p + Z.of_nat e) s.
Proof.
  unfold wrapped.
  destruct (Z.leb_spec (- Z.of_nat s) p); [|reflexivity].
  destruct (Z.ltb_spec (p + Z.of_nat e) 0); [|reflexivity].
  cbn [andb]. unfold slice_indices, slice_norm.
  destruct (Z.ltb_spec (p + Z.of_nat s) 0); [lia|].
  destruct (Z.ltb_spec (p + Z.of_nat s + Z.of_nat e) 0); [lia|].
  destruct (Z.ltb_spec p 0); [|lia].
  destruct (Z.ltb_spec (p + Z.of_nat e) 0); [|lia].
  f_equal; lia.
Qed.

Section AddingAtAnOffset.
Context {F : Type} `{FloatOps F}.

Lemma add_with_offset_cells {B} (g : F -> B -> F)
    (a : ndarray F 4) (b : ndarray B 4) (p0 p1 p2 : nat)
    (s0 s1 s2 e0 e1 e2 c : nat) :
  wf_array a = true -> wf_array b = true ->
  shape a = [s0; s1; s2; c] -> shape b = [e0; e1; e2; c] ->
  p0 + e0 <= s0 -> p1 + e1 <= s1 -> p2 + e2 <= s2 ->
  exists r,
    _add_with_offset g a b [Z.of_nat p0; Z.of_nat p1; Z.of_nat p2] = Ok r /\
    shape r = shape a /\
    (forall j0 j1 j2 ch x, get b [j0; j1; j2; ch] = Some x ->
       exists v, get a [p0 + j0; p1 + j1; p2 + j2; ch] = Some v /\
                 get r [p0 + j0; p1 + j1; p2 + j2; ch] = Some (g v x)) /\
    (forall i0 i1 i2 ch,
       ~ (p0 <= i0 < p0 + e0 /\ p1 <= i1 < p1 + e1 /\ p2 <= i2 < p2 + e2) ->
       get r [i0; i1; i2; ch] = get a [i0; i1; i2; ch]).
Proof.
  intros Ha Hb Hsa Hsb H0 H1 H2.
  destruct (add_with_offset_spec g a b (Z.of_nat p0) (Z.of_nat p1)
              (Z.of_nat p2) s0 s1 s2 e0 e1 e2 c)
    as (r & Hr & Hsr & _ & Hget); auto; try lia.
  rewrite !Nat2Z.id in Hget.
  apply wf_array_iff in Ha as [_ Ha]. apply wf_array_iff in Hb as [_ Hb].
  rewrite Hsa in Ha. rewrite Hsb in Hb.
  exists r. split; [exact Hr|]. split; [exact Hsr|]. split.
  - intros j0 j1 j2 ch x Hx.
    pose proof (nd_get_range 4 _ _ _ _ Hb Hx) as Hin.
    repeat match goal with
           | Hf : Forall2 _ (_ :: _) (_ :: _) |- _ =>
               apply Forall2_cons in Hf as [? Hf]
           end.
    destruct (nd_get_in_range 4 [s0; s1; s2; c]
                [p0 + j0; p1 + j1; p2 + j2; ch] (data a)) as [v Hv];
      [exact Ha| |].
    { repeat (apply Forall2_cons; split; [lia|]). constructor. }
    exists v. split; [exact Hv|]. rewrite Hget. unfold get. rewrite Hv.
    cbn [mbind option_bind]. rewrite nd_get_rel_4.
    rewrite !(proj2 (Nat.leb_le _ _)) by lia. cbn [andb].
    replace (p0 + j0 - p0) with j0 by lia.
    replace (p1 + j1 - p1) with j1 by lia.
    replace (p2 + j2 - p2) with j2 by lia.
    unfold get in Hx. rewrite Hx. reflexivity.
  - intros i0 i1 i2 ch Hout. rewrite Hget.
    destruct (get a [i0; i1; i2; ch]) as [v|]; [|reflexivity].
    cbn [mbind option_bind]. rewrite nd_get_rel_4.
    destruct (Nat.leb_spec p0 i0); [|reflexivity].
    destruct (Nat.leb_spec p1 i1); [|reflexivity].
    destruct (Nat.leb_spec p2 i2); [|reflexivity].
    cbn [andb].
    destruct (nd_get 4 [i0 - p0; i1 - p1; i2 - p2; ch] (data b)) as [x|] eqn:Hx;
      [|reflexivity].
    exfalso. apply Hout.
    pose proof (nd_get_range 4 _ _ _ _ Hb Hx) as Hin.
    repeat match goal with
           | Hf : Forall2 _ (_ :: _) (_ :: _) |- _ =>
               apply Forall2_cons in Hf as [? Hf]
           end.
    lia.
Qed.

(** X3 (lines 266-279, [_add_with_offset]): a block that lies inside the
    target is combined into the window that starts at the offset, element
    by element, and nothing outside the window changes; the shape of the
    target stays. *)
Theorem add_with_offset_window {B} (g : F -> B -> F)
    (a : ndarray F 4) (b : ndarray B 4) (p0 p1 p2 : nat)
    (s0 s1 s2 e0 e1 e2 c : nat) :
  wf_array a = true -> wf_array b = true ->
  shape a = [s0; s1; s2; c] -> shape b = [e0; e1; e2; c] ->
  p0 + e0 <= s0 -> p1 + e1 <= s1 -> p2 + e2 <= s2 ->
  exists r,
    _add_with_offset g a b [Z.of_nat p0; Z.of_nat p1; Z.of_nat p2] = Ok r /\
    shape r = shape a /\
    (forall j0 j1 j2 ch x, get b [j0; j1; j2; ch] = Some x ->
       exists v, get a [p0 + j0; p1 + j1; p2 + j2; ch] = Some v /\
                 get r [p0 + j0; p1 + j1; p2 + j2; ch] = Some (g v x)) /\
    (forall i0 i1 i2 ch,
       ~ (p0 <= i0 < p0 + e0 /\ p1 <= i1 < p1 + e1 /\ p2 <= i2 < p2 + e2) ->
       get r [i0; i1; i2; ch] = get a [i0; i1; i2; ch]).
Proof.
  intros Ha Hb Hsa Hsb H0 H1 H2.
  exact (add_with_offset_cells g a b p0 p1 p2 s0 s1 s2 e0 e1 e2 c
           Ha Hb Hsa Hsb H0 H1 H2).
Qed.

(** X4 (lines 278-279, [_add_with_offset]): a block is never written
    truncated.  When the block, of extent 2 or more on some axis, sticks
    out past the end of that axis of the target, or when its channel
    count is neither the target's nor 1, the call raises NumPy's broadcast
    error. *)
Theorem add_with_offset_no_truncation {B} (g : F -> B -> F)
    (a : ndarray F 4) (b : ndarray B 4) (p0 p1 p2 : Z)
    (s0 s1 s2 c e0 e1 e2 c' : nat) :
  shape a = [s0; s1; s2; c] -> shape b = [e0; e1; e2; c'] ->
  sticks_out s0 e0 p0 \/ sticks_out s1 e1 p1 \/ sticks_out s2 e2 p2
    \/ (c' <> c /\ c' <> 1) ->
  _add_with_offset g a b [p0; p1; p2] = Raise (ValueError Broadcast).
Proof.
  intros Hsa Hsb Hbad. unfold _add_with_offset. rewrite Hsa, Hsb.
  cbn [zip zip_with sliced_shape inplace_ok slice_indices fst snd].
  destruct Hbad as [Hk|[Hk|[Hk|[Hc Hc1]]]].
  1-3: rewrite (slice_clipped _ _ _ Hk), ?andb_false_r; reflexivity.
  apply Nat.eqb_neq in Hc, Hc1. rewrite Hc, Hc1. cbn [orb].
  rewrite ?andb_false_r. reflexivity.
Qed.

Lemma add_with_offset_wrapped_eq {B} (g : F -> B -> F)
    (a : ndarray F 4) (b : ndarray B 4) (p0 p1 p2 : Z)
    (s0 s1 s2 c e0 e1 e2 c' : nat) :
  shape a = [s0; s1; s2; c] -> shape b = [e0; e1; e2; c'] ->
  _add_with_offset g a b [p0; p1; p2]
  = _add_with_offset g a b [wrapped s0 e0 p0; wrapped s1 e1 p1;
                            wrapped s2 e2 p2].
Proof.
  intros Hsa Hsb. unfold _add_with_offset. rewrite Hsa, Hsb.
  cbn [zip zip_with]. rewrite !slice_wrapped. reflexivity.
Qed.

(** X5 (lines 278-279, [_add_with_offset]): a negative offset is not an
    error.  Python reads a negative slice bound from the end of the axis,
    so a block placed at a negative offset that ends before index 0 is
    added into the window that starts at the offset plus the extent of
    the axis, and nothing else changes. *)
Theorem add_with_offset_wraps {B} (g : F -> B -> F)
    (a : ndarray F 4) (b : ndarray B 4) (p0 p1 p2 : Z) (q0 q1 q2 : nat)
    (s0 s1 s2 e0 e1 e2 c : nat) :
  wf_array a = true -> wf_array b = true ->
  shape a = [s0; s1; s2; c] -> shape b = [e0; e1; e2; c] ->
  wrapped s0 e0 p0 = Z.of_nat q0 -> wrapped s1 e1 p1 = Z.of_nat q1 ->
  wrapped s2 e2 p2 = Z.of_nat q2 ->
  q0 + e0 <= s0 -> q1 + e1 <= s1 -> q2 + e2 <= s2 ->
  exists r,
    _add_with_offset g a b [p0; p1; p2] = Ok r /\
    (forall j0 j1 j2 ch x, get b [j0; j1; j2; ch] = Some x ->
       exists v, get a [q0 + j0; q1 + j1; q2 + j2; ch] = Some v /\
                 get r [q0 + j0; q1 + j1; q2 + j2; ch] = Some (g v x)) /\
    (forall i0 i1 i2 ch,
       ~ (q0 <= i0 < q0 + e0 /\ q1 <= i1 < q1 + e1 /\ q2 <= i2 < q2 + e2) ->
       get r [i0; i1; i2; ch] = get a [i0; i1; i2; ch]).
Proof.
  intros Ha Hb Hsa Hsb Hq0 Hq1 Hq2 H0 H1 H2.
  rewrite (add_with_offset_wrapped_eq g a b p0 p1 p2 s0 s1 s2 c e0 e1 e2 c
             Hsa Hsb), Hq0, Hq1, Hq2.
  destruct (add_with_offset_cells g a b q0 q1 q2 s0 s1 s2 e0 e1 e2 c
              Ha Hb Hsa Hsb H0 H1 H2) as (r & Hr & _ & Hin & Hout).
  exists r. auto.
Qed.
End AddingAtAnOffset.

(** ** The extent of the accumulator *)

Lemma axis_hull (s e : nat) (o d : Z) :
  (- Z.max o (- d), - Z.max o (- d) + Z.of_nat (grown s e (d + o)))%Z
  = (Z.min (- o) d, Z.max (- o + Z.of_nat s) (d + Z.of_nat e))%Z.
Proof. unfold grown. f_equal; lia. Qed.

Lemma hull_swap (b x y : list (Z * Z)) :
  hull (hull b x) y = hull (hull b y) x.
Proof.
  unfold hull. revert x y.
  induction b as [|w b IH]; intros [|u x] [|v y]; cbn; try reflexivity.
  rewrite IH. f_equal. f_equal; lia.
Qed.

Lemma foldl_hull_perm (l l' : list (list (Z * Z))) :
  l ≡ₚ l' -> forall b, foldl hull b l = foldl hull b l'.
Proof.
  induction 1 as [|x l l' _ IH|x y l|l l' l'' _ IH1 _ IH2]; intros b; cbn.
  - reflexivity.
  - apply IH.
  - rewrite hull_swap. reflexivity.
  - rewrite IH1. apply IH2.
Qed.

Section Extent.
Context {F : Type} `{FloatOps F}.

Lemma update_reference_shape (sums counts : ndarray F 4) (img : ndarray F 4)
    (o0 o1 o2 d0 d1 d2 : Z) (s0 s1 s2 e0 e1 e2 c : nat) :
  wf_array sums = true -> wf_array counts = true -> wf_array img = true ->
  shape sums = [s0; s1; s2; c] -> shape counts = [s0; s1; s2; c] ->
  shape img = [e0; e1; e2; c] ->
  exists sums' counts',
    _update_reference sums counts [o0; o1; o2] [d0; d1; d2] img
      = Ok (sums', counts',
            [Z.max o0 (- d0); Z.max o1 (- d1); Z.max o2 (- d2)]%Z) /\
    wf_array sums' = true /\ wf_array counts' = true /\
    shape sums' = [grown s0 e0 (d0 + o0); grown s1 e1 (d1 + o1);
                   grown s2 e2 (d2 + o2); c] /\
    shape counts' = shape sums'.
Proof.
  intros Hws Hwc Hwi Hs Hc He.
  destruct (grow_and_add f_add sums (np_map f_nan_to_num img)
              o0 o1 o2 d0 d1 d2 s0 s1 s2 e0 e1 e2 c)
    as (rs & sums' & Hrs & Has & Hss & Hws' & _);
    auto using np_map_wf_array.
  destruct (grow_and_add (fun n b => f_add n (f_of_bool b)) counts
              (np_map f_isfinite img)
              o0 o1 o2 d0 d1 d2 s0 s1 s2 e0 e1 e2 c)
    as (rc & counts' & Hrc & Hac & Hsc & Hwc' & _);
    auto using np_map_wf_array.
  exists sums', counts'. cbn [np_map shape] in Hrs, Hrc.
  split; [|repeat split; auto; congruence].
  unfold _update_reference. cbn [np2 length Nat.eqb zip_with mbind result_bind].
  rewrite Hrs. cbn [mbind result_bind]. rewrite Hrc.
  cbn [mbind result_bind fmap list_fmap np2 length Nat.eqb zip_with].
  unfold _update_sums_and_counts.
  cbn [np2 length Nat.eqb zip_with mbind result_bind].
  rewrite Has. cbn [mbind result_bind]. rewrite Hac. reflexivity.
Qed.

(** One update brings the extent to the hull of the extent before and
    the placed image. *)
Lemma update_reference_hull (sums counts : ndarray F 4) offset d img :
  wf_array sums = true -> wf_array counts = true ->
  shape sums = shape counts -> length offset = 3 ->
  compatible (last (shape sums)) (d, img) ->
  exists sums' counts' offset',
    _update_reference sums counts offset d img = Ok (sums', counts', offset') /\
    wf_array sums' = true /\ wf_array counts' = true /\
    shape sums' = shape counts' /\
    last (shape sums') = last (shape sums) /\
    length offset' = 3 /\
    extent offset' (shape sums')
      = hull (extent offset (shape sums)) (placed d (shape img)).
Proof.
  intros Hws Hwc Hsh Ho (Hd & Hwi & Hch). cbn [fst snd] in *.
  destruct (shape_4 sums Hws) as (s0 & s1 & s2 & c & Hs).
  destruct (shape_4 img Hwi) as (e0 & e1 & e2 & c' & He).
  rewrite Hs, He in Hch. injection Hch as ->.
  destruct offset as [|o0 [|o1 [|o2 [|]]]]; try discriminate.
  destruct d as [|d0 [|d1 [|d2 [|]]]]; try discriminate.
  destruct (update_reference_shape sums counts img o0 o1 o2 d0 d1 d2
              s0 s1 s2 e0 e1 e2 c)
    as (sums' & counts' & Hrun & Hws' & Hwc' & Hss & Hsc); auto;
    [congruence|].
  exists sums', counts', [Z.max o0 (- d0); Z.max o1 (- d1); Z.max o2 (- d2)]%Z.
  repeat split; auto.
  - rewrite Hss, Hs. reflexivity.
  - rewrite Hss, Hs, He. unfold extent, placed, hull.
    cbn [zip_with fst snd]. rewrite !axis_hull. reflexivity.
Qed.

(** X6 (lines 256-263, [_update_reference]): in reference-frame
    coordinates the accumulator covers, after an update, exactly the
    smallest box that contains what it covered before and the image placed
    at the displacement: on each spatial axis the lower end becomes the
    smaller of the two lower ends and the upper end the larger of the two
    upper ends. *)
Theorem update_reference_extent (sums counts : ndarray F 4) offset d img :
  wf_array sums = true -> wf_array counts = true ->
  shape sums = shape counts -> length offset = 3 ->
  compatible (last (shape sums)) (d, img) ->
  exists sums' counts' offset',
    _update_reference sums counts offset d img = Ok (sums', counts', offset') /\
    extent offset' (shape sums')
      = hull (extent offset (shape sums)) (placed d (shape img)) /\
    extent offset' (shape counts')
      = hull (extent offset (shape counts)) (placed d (shape img)).
Proof.
  intros Hws Hwc Hsh Ho Hcompat.
  destruct (update_reference_hull sums counts offset d img Hws Hwc Hsh Ho
              Hcompat)
    as (sums' & counts' & offset' & Hrun & _ & _ & Hsh' & _ & _ & Hext).
  exists sums', counts', offset'. rewrite <- Hsh', <- Hsh. auto.
Qed.

Lemma update_all_hull (ups : list (list Z * ndarray F 4)) :
  forall (sums counts : ndarray F 4) offset,
  wf_array sums = true -> wf_array counts = true ->
  shape sums = shape counts -> length offset = 3 ->
  Forall (compatible (last (shape sums))) ups ->
  exists sums' counts' offset',
    update_all sums counts offset ups = Ok (sums', counts', offset') /\
    wf_array sums' = true /\
    shape sums' = shape counts' /\
    last (shape sums') = last (shape sums) /\
    length offset' = 3 /\
    extent offset' (shape sums')
      = foldl hull (extent offset (shape sums))
              ((fun u : list Z * ndarray F 4 => placed u.1 (shape u.2)) <$> ups).
Proof.
  induction ups as [|[d img] ups IH]; intros sums counts offset Hws Hwc Hsh Ho Hall.
  - exists sums, counts, offset. repeat split; auto.
  - apply Forall_cons in Hall as [Hu Hall].
    destruct (update_reference_hull sums counts offset d img Hws Hwc Hsh Ho Hu)
      as (s1 & c1 & o1 & Hrun & Hws1 & Hwc1 & Hsh1 & Hl1 & Ho1 & Hext1).
    destruct (IH s1 c1 o1 Hws1 Hwc1 Hsh1 Ho1) as
      (s2 & c2 & o2 & Hrun2 & Hws2 & Hsh2 & Hl2 & Ho2 & Hext2).
    { rewrite Hl1. exact Hall. }
    exists s2, c2, o2. cbn [update_all fst snd]. rewrite Hrun.
    cbn [mbind result_bind fst snd]. repeat split; auto; [congruence|].
    rewrite Hext2, Hext1. reflexivity.
Qed.

Lemma extent_inj (o o' : list Z) (sh sh' : list nat) :
  length o = 3 -> length o' = 3 -> length sh = 4 -> length sh' = 4 ->
  last sh = last sh' ->
  extent o sh = extent o' sh' -> o = o' /\ sh = sh'.
Proof.
  intros Ho Ho' Hs Hs' Hlast Hext.
  destruct o as [|a0 [|a1 [|a2 [|]]]]; try discriminate.
  destruct o' as [|b0 [|b1 [|b2 [|]]]]; try discriminate.
  destruct sh as [|s0 [|s1 [|s2 [|c [|]]]]]; try discriminate.
  destruct sh' as [|t0 [|t1 [|t2 [|c' [|]]]]]; try discriminate.
  cbn in Hlast. injection Hlast as ->.
  unfold extent in Hext. cbn in Hext.
  injection Hext as H0 H0' H1 H1' H2 H2'.
  split; repeat f_equal; lia.
Qed.

(** X7 (lines 256-263, [_update_reference], repeated): the offset and the
    shape of the accumulator after a series of updates do not depend on
    the order in which the frames were added. *)
Theorem update_all_any_order (ups ups' : list (list Z * ndarray F 4))
    (sums counts : ndarray F 4) offset :
  wf_array sums = true -> wf_array counts = true ->
  shape sums = shape counts -> length offset = 3 ->
  Forall (compatible (last (shape sums))) ups ->
  ups ≡ₚ ups' ->
  exists s1 c1 s2 c2 offset',
    update_all sums counts offset ups = Ok (s1, c1, offset') /\
    update_all sums counts offset ups' = Ok (s2, c2, offset') /\
    shape s1 = shape s2 /\ shape c1 = shape c2.
Proof.
  intros Hws Hwc Hsh Ho Hall Hperm.
  assert (Hall' : Forall (compatible (last (shape sums))) ups')
    by (rewrite <- Hperm; exact Hall).
  destruct (update_all_hull ups sums counts offset Hws Hwc Hsh Ho Hall)
    as (s1 & c1 & o1 & Hrun1 & Hw1 & Hsh1 & Hl1 & Ho1 & Hext1).
  destruct (update_all_hull ups' sums counts offset Hws Hwc Hsh Ho Hall')
    as (s2 & c2 & o2 & Hrun2 & Hw2 & Hsh2 & Hl2 & Ho2 & Hext2).
  assert (Heq : o1 = o2 /\ shape s1 = shape s2).
  { apply extent_inj; auto.
    - apply wf_array_iff in Hw1 as [Hr _]. exact Hr.
    - apply wf_array_iff in Hw2 as [Hr _]. exact Hr.
    - congruence.
    - rewrite Hext1, Hext2. apply foldl_hull_perm.
      apply fmap_Permutation. exact Hperm. }
  destruct Heq as [<- Hss].
  exists s1, c1, s2, c2, o1. repeat split; auto. congruence.
Qed.
End Extent.

(** ** Downsampling *)

Lemma every_other_lookup {X} i : forall l : list X,
  every_other l !! i = l !! (2 * i).
Proof.
  induction i as [|i IH]; intros [|x [|y l]]; try reflexivity.
  cbn [every_other lookup list_lookup]. rewrite IH.
  replace (2 * S i) with (S (S (2 * i))) by lia. reflexivity.
Qed.

Lemma nd_get_stride2 {X} n : forall flags idx (a : nd X n),
  length flags = n -> length idx = n ->
  nd_get n idx (nd_stride2 n flags a) = nd_get n (doubled flags idx) a.
Proof.
  induction n as [|m IH]; intros flags idx a Hf Hi.
  - destruct flags; [|discriminate]. destruct idx; [|discriminate].
    reflexivity.
  - nd_lists. destruct flags as [|f flags']; [discriminate|].
    destruct idx as [|i idx']; [discriminate|].
    unfold doubled. cbn [nd_stride2 nd_get hd tl zip_with].
    fold (doubled flags' idx').
    assert (Hlook : forall j,
      (nd_stride2 m flags' <$> a) !! j ≫= nd_get m idx'
      = a !! j ≫= nd_get m (doubled flags' idx')).
    { intros j. rewrite list_lookup_fmap.
      destruct (a !! j) as [child|]; [|reflexivity].
      cbn [fmap option_fmap option_map mbind option_bind].
      apply IH; cbn in Hf, Hi; lia. }
    destruct f; [rewrite every_other_lookup|]; apply Hlook.
Qed.

Section Downsampling.
Context {F Score : Type} `{FloatOps F} `{PyramidEnv F Score}.

(** X8 (lines 399-414, [pyr_down_3d]): the result holds the elements of
    the Gaussian-filtered image at the even positions of the chosen axes:
    its element at an index is the filtered image's element at the index
    doubled on those axes.  The filter is given the standard deviation
    1.05 on the chosen axes and 0 on the others. *)
Theorem pyr_down_3d_samples (img : image F) (axes : list nat)
    (i0 i1 i2 ch : nat) :
  get (pyr_down_3d img axes) [i0; i1; i2; ch]
  = get (gaussian_filter img
           ((fun b : bool => if b then f_sigma else f_zero)
              <$> downsampled_axes axes))
        (doubled (downsampled_axes axes) [i0; i1; i2; ch]).
Proof.
  unfold get, pyr_down_3d. cbn [data].
  apply nd_get_stride2; reflexivity.
Qed.
End Downsampling.

(** ** Levels *)

Section Levels.
Context {F Score : Type} `{FloatOps F} `{PyramidEnv F Score}.

Lemma axes_of_error (reference target : image F) min_shape e :
  axes_of reference target min_shape = Raise e -> e = ValueError Broadcast.
Proof.
  unfold axes_of. intros Hax.
  apply bind_Raise in Hax as [Hax|(? & _ & Hax)]; eapply np2_error; eauto.
Qed.

Lemma halve_bounds_error bounds ab e :
  halve_bounds bounds ab = Raise e -> e = ValueError Broadcast.
Proof.
  destruct bounds as [b|]; [|discriminate]. cbn [halve_bounds].
  destruct (np2 _ b ab) eqn:Hnp; [discriminate|].
  apply np2_error in Hnp. cbn. congruence.
Qed.

(** X9 (lines 438-448, [pyramid_align]): [max_levels] limits the depth of
    the pyramid.  With [max_levels = k] the calls nest at most [k + 1]
    deep, whatever the shapes of the images and whatever the filter
    returns: a recursion depth above [k] is never exhausted. *)
Theorem max_levels_limits_depth depth : forall (k : Z)
    (reference target : image F) min_shape bounds,
  Z.to_nat k < depth ->
  pyramid_align depth reference target min_shape (Some k) bounds
    <> Raise RecursionError.
Proof.
  induction depth as [|depth IH]; intros k reference target min_shape bounds
    Hk; [lia|].
  rewrite pyramid_align_unfold. unfold pyramid_level.
  destruct (negb (bounds_ordered bounds)); [discriminate|].
  destruct (axes_of reference target min_shape) as [ab|e] eqn:Hax.
  2:{ apply axes_of_error in Hax. subst e. discriminate. }
  cbn [mbind result_bind].
  destruct (levels_positive (Some k) && existsb id ab) eqn:Hcond.
  - apply andb_true_iff in Hcond as [Hpos _]. cbn [levels_positive] in Hpos.
    apply Z.ltb_lt in Hpos. intros Hrun.
    apply bind_Raise in Hrun as [Hnb|(nb & _ & Hrun)].
    { apply halve_bounds_error in Hnb. discriminate. }
    apply bind_Raise in Hrun as [Hrec|(coarse & _ & Hrun)].
    + revert Hrec. cbn [levels_pred fmap option_fmap option_map].
      apply IH. lia.
    + apply bind_Raise in Hrun as [Hloop|(st & _ & Hrun)].
      * apply refine_loop_error in Hloop as [?|[?|?]]; discriminate.
      * destruct st.1.1 as [[? ?]|]; discriminate.
  - intros Hrun.
    apply bind_Raise in Hrun as [Hbase|(d & _ & [=])].
    unfold base_alignment in Hbase.
    destruct (align_cross_correlation reference target bounds); discriminate.
Qed.

Lemma halve_bounds_lookup (b nb : list (Z * Z)) ab j lo hi (a : bool) :
  length b = length ab ->
  halve_bounds (Some b) ab = Ok (Some nb) ->
  b !! j = Some (lo, hi) -> ab !! j = Some a ->
  nb !! j = Some ((lo / (1 + bool_to_Z a))%Z, (hi / (1 + bool_to_Z a))%Z).
Proof.
  intros Hl Hnb Hb Ha. cbn [halve_bounds] in Hnb.
  rewrite np2_same_length in Hnb by exact Hl.
  unfold fmap, result_fmap in Hnb. injection Hnb as <-.
  rewrite lookup_zip_with, Hb. cbn [mbind option_bind]. rewrite Ha.
  reflexivity.
Qed.

(** X10 (lines 440-448, [pyramid_align]): the assertion on the bounds
    rejects a valid search after halving.  When a downsampled axis has
    bounds whose two ends have the same half (such as 0 and 1), the
    recursive call is handed equal ends and fails
    [bounds[0] < bounds[1]]: the whole call raises AssertionError,
    although the bounds it was given were strictly ordered. *)
Theorem narrow_bounds_rejected depth (reference target : image F) min_shape
    max_levels (b : bounds_t) ab j lo hi :
  bounds_ordered (Some b) = true ->
  axes_of reference target min_shape = Ok ab ->
  levels_positive max_levels = true ->
  length b = length ab ->
  ab !! j = Some true -> b !! j = Some (lo, hi) ->
  (lo / 2 = hi / 2)%Z ->
  pyramid_align (S (S depth)) reference target min_shape max_levels (Some b)
  = Raise (AssertionError AssertBoundsOrdered).
Proof.
  intros Hord Hax Hpos Hl Ha Hb Hhalf.
  rewrite pyramid_align_unfold. unfold pyramid_level at 1.
  rewrite Hord, Hax. cbn [negb mbind result_bind]. rewrite Hpos.
  assert (Hany : existsb id ab = true).
  { apply existsb_exists. exists true. split; [|reflexivity].
    apply list_elem_of_In. eapply list_elem_of_lookup_2. exact Ha. }
  rewrite Hany. cbn [andb].
  destruct (halve_bounds (Some b) ab) as [[nb|]|e] eqn:Hnb.
  - cbn [mbind result_bind]. rewrite pyramid_align_unfold.
    unfold pyramid_level at 1.
    assert (Hbad : bounds_ordered (Some nb) = false).
    { pose proof (halve_bounds_lookup b nb ab j lo hi true Hl Hnb Hb Ha)
        as Hj. cbn [bool_to_Z] in Hj. change (1 + 1)%Z with 2%Z in Hj.
      cbn [bounds_ordered]. apply not_true_iff_false. intros Hall.
      rewrite forallb_forall in Hall.
      pose proof (Hall _ (proj1 (list_elem_of_In _ _)
                            (list_elem_of_lookup_2 _ _ _ Hj))) as Hlt.
      cbn [fst snd] in Hlt. apply Z.ltb_lt in Hlt. lia. }
    rewrite Hbad. reflexivity.
  - cbn [halve_bounds] in Hnb. destruct (np2 _ b ab); discriminate.
  - cbn [halve_bounds] in Hnb. rewrite np2_same_length in Hnb by exact Hl.
    discriminate.
Qed.
End Levels.

(** ** Bounds and candidates *)

Lemma in_bounds_Forall2 (b : list (Z * Z)) (d : list Z) :
  in_bounds (Some b) d = true <->
  Forall2 (fun (w : Z * Z) x => (w.1 <= x <= w.2)%Z) b d.
Proof.
  split.
  - unfold in_bounds. intros Hin. apply within_bounds_true.
    destruct (within_bounds d (Some b)) as [[|]|] eqn:Hw; try discriminate.
    exact Hw.
  - intros Hall. unfold in_bounds, within_bounds.
    rewrite <- (Forall2_length _ _ _ Hall), Nat.eqb_refl.
    induction Hall as [|[lo hi] x b d Hx _ IH]; [reflexivity|].
    cbn [zip_with forallb fst snd id] in *.
    rewrite (proj2 (Z.leb_le lo x)) by (cbn in Hx; lia).
    rewrite (proj2 (Z.geb_le hi x)) by (cbn in Hx; lia).
    cbn [andb]. exact IH.
Qed.

(** A coarse displacement inside the halved bounds of an axis has a
    refinement inside the bounds of the axis. *)
Lemma axis_refinable (a : bool) (lo hi c : Z) :
  (lo < hi)%Z ->
  (lo / (1 + bool_to_Z a) <= c <= hi / (1 + bool_to_Z a))%Z ->
  exists adj : Z,
    (if a then adj ∈ [-1; 0; 1]%Z else adj = 0%Z) /\
    (lo <= (if a then 2 * c else c) + adj <= hi)%Z.
Proof.
  intros Hord Hc. destruct a; cbn [bool_to_Z] in Hc.
  - change (1 + 1)%Z with 2%Z in Hc.
    destruct (Z.le_gt_cases lo (2 * c)) as [Hlo|Hlo].
    + exists 0%Z. split; [rewrite !elem_of_cons; auto|].
      revert Hc. Z.div_mod_to_equations. lia.
    + exists 1%Z. split; [rewrite !elem_of_cons; auto|].
      revert Hc. Z.div_mod_to_equations. lia.
  - change (1 + 0)%Z with 1%Z in Hc. rewrite !Z.div_1_r in Hc.
    exists 0%Z. split; [reflexivity|lia].
Qed.

(** A displacement inside the bounds of an axis is a refinement of a
    coarse displacement inside the halved bounds. *)
Lemma axis_covered (a : bool) (lo hi x : Z) :
  (lo <= x <= hi)%Z ->
  exists c adj : Z,
    (lo / (1 + bool_to_Z a) <= c <= hi / (1 + bool_to_Z a))%Z /\
    (if a then adj ∈ [-1; 0; 1]%Z else adj = 0%Z) /\
    x = ((if a then 2 * c else c) + adj)%Z.
Proof.
  intros Hx. destruct a; cbn [bool_to_Z].
  - change (1 + 1)%Z with 2%Z. exists (x / 2)%Z, (x mod 2)%Z.
    split; [|split].
    + split; apply Z.div_le_mono; lia.
    + pose proof (Z.mod_pos_bound x 2 ltac:(lia)) as Hm.
      assert (Hcase : (x mod 2 = 0 \/ x mod 2 = 1)%Z) by lia.
      destruct Hcase as [-> | ->]; rewrite !elem_of_cons; auto.
    + apply Z.div_mod. lia.
  - change (1 + 0)%Z with 1%Z. rewrite !Z.div_1_r.
    exists x, 0%Z. split; [lia|]. split; [reflexivity|lia].
Qed.

Lemma halved_refinable (b : list (Z * Z)) : forall (ab : list bool) disp,
  length b = length ab ->
  forallb (fun w : Z * Z => (w.1 <? w.2)%Z) b = true ->
  Forall2 (fun (w : Z * Z) x => (w.1 <= x <= w.2)%Z)
    (zip_with (fun (w : Z * Z) (a : bool) =>
                 (w.1 / (1 + bool_to_Z a), w.2 / (1 + bool_to_Z a))%Z) b ab)
    disp ->
  exists adj,
    is_adjustment ab adj /\
    Forall2 (fun (w : Z * Z) x => (w.1 <= x <= w.2)%Z) b
      (zip_with Z.add (upscaled ab disp) adj).
Proof.
  induction b as [|[lo hi] b IH]; intros [|a ab] disp Hl Hord Hin;
    try discriminate.
  - exists []. split; constructor.
  - cbn [zip_with] in Hin.
    destruct disp as [|c disp]; [inversion Hin|].
    apply Forall2_cons in Hin as [Hc Hin]. cbn [fst snd] in Hc.
    cbn [forallb fst snd] in Hord. apply andb_true_iff in Hord as [Hlt Hord].
    apply Z.ltb_lt in Hlt.
    destruct (axis_refinable a lo hi c Hlt Hc) as (x & Hx & Hrange).
    destruct (IH ab disp) as (adj & Hadj & Hall); auto.
    exists (x :: adj). split.
    + constructor; [exact Hx|exact Hadj].
    + unfold upscaled. cbn [zip_with]. constructor; [exact Hrange|exact Hall].
Qed.

Lemma halved_cover (b : list (Z * Z)) : forall (ab : list bool) d,
  length b = length ab ->
  Forall2 (fun (w : Z * Z) x => (w.1 <= x <= w.2)%Z) b d ->
  exists coarse adj,
    Forall2 (fun (w : Z * Z) x => (w.1 <= x <= w.2)%Z)
      (zip_with (fun (w : Z * Z) (a : bool) =>
                   (w.1 / (1 + bool_to_Z a), w.2 / (1 + bool_to_Z a))%Z) b ab)
      coarse /\
    is_adjustment ab adj /\
    d = zip_with Z.add (upscaled ab coarse) adj.
Proof.
  induction b as [|[lo hi] b IH]; intros [|a ab] d Hl Hin; try discriminate.
  - inversion Hin. exists [], []. repeat split; constructor.
  - destruct d as [|x d]; [inversion Hin|].
    apply Forall2_cons in Hin as [Hx Hin]. cbn [fst snd] in Hx.
    destruct (axis_covered a lo hi x Hx) as (c & y & Hc & Hy & ->).
    destruct (IH ab d) as (coarse & adj & Hco & Hadj & ->); auto.
    exists (c :: coarse), (y :: adj). repeat split.
    + cbn [zip_with]. constructor; [exact Hc|exact Hco].
    + constructor; [exact Hy|exact Hadj].
Qed.

Section Candidates.
Context {F Score : Type} `{FloatOps F} `{PyramidEnv F Score}.

(** X11 (lines 445-453, [pyramid_align]): halving the bounds cuts off no
    displacement.  Every displacement inside the bounds of a level is the
    doubled (on the downsampled axes) coarse displacement plus an
    adjustment of the loop, for some coarse displacement that lies inside
    the bounds handed to the recursive call. *)
Theorem halved_bounds_cover (b nb : list (Z * Z)) (ab : list bool)
    (d : list Z) :
  length b = length ab ->
  halve_bounds (Some b) ab = Ok (Some nb) ->
  in_bounds (Some b) d = true ->
  exists coarse adj,
    in_bounds (Some nb) coarse = true /\
    adj ∈ adjustments ab /\
    d = zip_with Z.add (upscaled ab coarse) adj.
Proof.
  intros Hl Hnb Hin. cbn [halve_bounds] in Hnb.
  rewrite np2_same_length in Hnb by exact Hl.
  unfold fmap, result_fmap in Hnb. injection Hnb as <-.
  apply in_bounds_Forall2 in Hin.
  destruct (halved_cover b ab d Hl Hin) as (coarse & adj & Hco & Hadj & ->).
  exists coarse, adj. split; [apply in_bounds_Forall2; exact Hco|].
  split; [apply adjustments_spec; exact Hadj|reflexivity].
Qed.

Lemma pyramid_align_in_bounds depth (reference target : image F) min_shape
    max_levels (bounds : list (Z * Z)) d reference' target' :
  (forall r t b d', align_cross_correlation r t (Some b) = Some d' ->
                    within_bounds d' (Some b) = Ok true) ->
  pyramid_align depth reference target min_shape max_levels (Some bounds)
    = Ok (d, reference', target') ->
  within_bounds d (Some bounds) = Ok true.
Proof.
  intros Hbase Hrun.
  destruct depth as [|depth]; [discriminate|].
  cbn [pyramid_align] in Hrun. unfold pyramid_level in Hrun.
  destruct (bounds_ordered (Some bounds)); [|discriminate]. cbn [negb] in Hrun.
  apply bind_Ok in Hrun as (ab & _ & Hrun).
  destruct (levels_positive max_levels && existsb id ab).
  - apply bind_Ok in Hrun as (nb & _ & Hrun).
    apply bind_Ok in Hrun as (coarse & _ & Hrun).
    apply bind_Ok in Hrun as (st & Hloop & Hrun).
    apply refine_loop_in_bounds in Hloop; [|intros ? ? [=]].
    destruct st as [[[[c d']|] r'] t']; [|discriminate].
    injection Hrun as <- <- <-. eapply Hloop. reflexivity.
  - apply bind_Ok in Hrun as (d' & Hd & Hrun). injection Hrun as <- <- <-.
    unfold base_alignment in Hd.
    destruct (align_cross_correlation reference target (Some bounds))
      as [d0|] eqn:Hacc; [|discriminate].
    injection Hd as <-. eapply Hbase; eauto.
Qed.

Lemma axes_of_length (reference target : image F) min_shape ab :
  length (shape reference) = 4 -> length (shape target) = 4 ->
  axes_of reference target min_shape = Ok ab -> length ab = 3.
Proof.
  intros Hr Ht. unfold axes_of.
  destruct (shape reference) as [|r0 [|r1 [|r2 [|c [|]]]]]; try discriminate.
  destruct (shape target) as [|t0 [|t1 [|t2 [|c' [|]]]]]; try discriminate.
  cbn [removelast np2 length Nat.eqb zip_with mbind result_bind].
  destruct min_shape as [|m0 [|m1 [|m2 [|m3 ms]]]]; try discriminate;
    intros [= <-]; reflexivity.
Qed.

Lemma pyr_down_rank (img : image F) axes :
  (forall (i : image F) s, shape (gaussian_filter i s) = shape i) ->
  length (shape img) = 4 -> length (shape (pyr_down_3d img axes)) = 4.
Proof.
  intros Hg Hl. unfold pyr_down_3d, strided_shape. cbn [shape].
  rewrite length_zip_with, Hg, Hl, length_fmap, length_seq. reflexivity.
Qed.

Lemma take_better_some (l : list (Score * list Z)) : forall best,
  foldl take_better best l = None -> best = None /\ l = [].
Proof.
  induction l as [|sd l IH]; intros best Hf; [auto|].
  cbn [foldl] in Hf. apply IH in Hf as [Hb _]. exfalso.
  unfold take_better in Hb. destruct best as [[bc bd]|]; [|discriminate].
  destruct (score_gt sd.1 bc); discriminate.
Qed.

(** The loop over the adjustments of a level, when the coarse
    displacement lies inside the halved bounds: it raises or keeps a
    candidate. *)
Lemma refine_loop_bounded_some (b nb : list (Z * Z)) ab disp r t st :
  length ab = 3 ->
  bounds_ordered (Some b) = true ->
  halve_bounds (Some b) ab = Ok (Some nb) ->
  within_bounds disp (Some nb) = Ok true ->
  refine_loop ab disp (Some b) (adjustments ab) (None, r, t) = Ok st ->
  is_Some st.1.1.
Proof.
  intros Hab Hord Hnb Hin Hloop. cbn [halve_bounds] in Hnb.
  pose proof (within_bounds_true _ _ Hin) as Hall.
  pose proof (Forall2_length _ _ _ Hall) as Hlen.
  destruct (decide (length b = length ab)) as [Hl|Hl].
  - rewrite np2_same_length in Hnb by exact Hl.
    unfold fmap, result_fmap in Hnb. injection Hnb as <-.
    rewrite length_zip_with in Hlen.
    assert (Hd : length disp = length ab) by lia.
    rewrite refine_loop_spec in Hloop; auto.
    2:{ apply Forall_forall. intros adj Hadj.
        apply adjustments_length. exact Hadj. }
    cbv zeta in Hloop.
    destruct (score_all r t _) as [[[ss r'] t']|] eqn:Hsc; [|discriminate].
    injection Hloop as <-. cbn [fst].
    destruct (foldl take_better None _) as [best|] eqn:Hbest; [eauto|].
    exfalso. apply take_better_some in Hbest as [_ Hnil].
    apply score_all_length in Hsc.
    destruct (halved_refinable b ab disp Hl Hord Hall) as (adj & Hadj & Hok).
    apply in_bounds_Forall2 in Hok.
    assert (Hkept : In (zip_with Z.add (upscaled ab disp) adj)
              (List.filter (in_bounds (Some b))
                 (candidates ab disp (adjustments ab)))).
    { apply filter_In. split; [|exact Hok].
      apply list_elem_of_In. unfold candidates.
      apply list_elem_of_fmap. exists adj. split; [reflexivity|].
      apply adjustments_spec. exact Hadj. }
    destruct (List.filter _ _) as [|k kept]; [destruct Hkept|].
    destruct ss; discriminate.
  - (* the bounds have one column and are broadcast: the first test of a
       displacement fails the length assertion *)
    exfalso.
    assert (Hb1 : length b = 1).
    { unfold np2 in Hnb. destruct (Nat.eqb_spec (length b) (length ab));
        [contradiction|].
      destruct ab as [|a0 [|a1 [|a2 [|]]]]; try discriminate.
      destruct b as [|w [|]]; try discriminate; reflexivity. }
    assert (Hnbl : length nb = 3).
    { unfold np2 in Hnb. destruct (Nat.eqb_spec (length b) (length ab));
        [contradiction|].
      destruct ab as [|a0 [|a1 [|a2 [|]]]]; try discriminate.
      destruct b as [|w [|]]; try discriminate.
      unfold fmap, result_fmap in Hnb. injection Hnb as <-. reflexivity. }
    assert (Hd : length disp = 3) by lia.
    destruct (adjustments ab) as [|adj rest] eqn:Hadjs;
      [exact (adjustments_nonempty ab Hadjs)|].
    assert (Hadjl : length adj = 3).
    { rewrite <- Hab. apply adjustments_length. rewrite Hadjs. left. }
    cbn [refine_loop] in Hloop.
    apply bind_Ok in Hloop as (st1 & Hstep & _).
    unfold refine_step in Hstep.
    rewrite np2_same_length in Hstep by (rewrite length_fmap; lia).
    cbn [mbind result_bind] in Hstep.
    rewrite np2_same_length in Hstep
      by (rewrite length_zip_with, length_fmap; lia).
    cbn [mbind result_bind] in Hstep.
    unfold within_bounds in Hstep.
    rewrite !length_zip_with, length_fmap, Hab, Hd, Hadjl, Hb1 in Hstep.
    discriminate.
Qed.

(** X12 (lines 449-459, [pyramid_align]): a bounded search never ends
    without a candidate.  When the filter keeps the shape of an image and
    the base alignment primitive answers within the bounds it is given,
    no call on rank-4 images raises the assertion of line 459: every
    coarse displacement has a refinement inside the bounds. *)
Theorem bounded_search_keeps_candidate depth : forall
    (reference target : image F) min_shape max_levels bounds,
  (forall (i : image F) s, shape (gaussian_filter i s) = shape i) ->
  (forall r t b d', align_cross_correlation r t (Some b) = Some d' ->
                    within_bounds d' (Some b) = Ok true) ->
  length (shape reference) = 4 -> length (shape target) = 4 ->
  pyramid_align depth reference target min_shape max_levels bounds
    <> Raise (AssertionError AssertNoCandidate).
Proof.
  induction depth as [|depth IH]; intros reference target min_shape
    max_levels bounds Hg Hbase Hr Ht; [discriminate|].
  rewrite pyramid_align_unfold. unfold pyramid_level.
  destruct (bounds_ordered bounds) eqn:Hord; cbn [negb]; [|discriminate].
  destruct (axes_of reference target min_shape) as [ab|e] eqn:Hax.
  2:{ apply axes_of_error in Hax. subst e. discriminate. }
  cbn [mbind result_bind].
  destruct (levels_positive max_levels && existsb id ab).
  - destruct (halve_bounds bounds ab) as [nb|e] eqn:Hnb.
    2:{ apply halve_bounds_error in Hnb. subst e. discriminate. }
    cbn [mbind result_bind].
    destruct (pyramid_align depth _ _ min_shape _ nb) as [coarse|e] eqn:Hrec.
    2:{ cbn [mbind result_bind]. intros [= ->]. revert Hrec.
        apply IH; auto using pyr_down_rank. }
    cbn [mbind result_bind].
    destruct (refine_loop ab coarse.1.1 bounds (adjustments ab)
                (None, reference, target)) as [st|e] eqn:Hloop.
    2:{ cbn [mbind result_bind].
        apply refine_loop_error in Hloop as [->|[->| ->]]; discriminate. }
    cbn [mbind result_bind].
    assert (Hsome : is_Some st.1.1).
    { destruct bounds as [b|].
      - destruct nb as [nb|];
          [|cbn [halve_bounds] in Hnb; destruct (np2 _ b ab); discriminate].
        destruct coarse as [[disp r'] t']. cbn [fst] in Hloop.
        apply (refine_loop_bounded_some b nb ab disp reference target st);
          auto.
        + exact (axes_of_length reference target min_shape ab Hr Ht Hax).
        + eapply pyramid_align_in_bounds; [exact Hbase|exact Hrec].
      - eapply refine_loop_unbounded_some; eauto. }
    destruct Hsome as [[c d] Hbest]. rewrite Hbest. discriminate.
  - destruct (base_alignment reference target bounds) as [d|e] eqn:Hb;
      [discriminate|].
    unfold base_alignment in Hb.
    destruct (align_cross_correlation reference target bounds);
      [discriminate|].
    injection Hb as <-. discriminate.
Qed.
End Candidates.

(** ** Ties between candidates *)

Section Ties.
Context {F Score : Type} `{FloatOps F} `{PyramidEnv F Score}.

(** The candidate the loop keeps is the first of those no other one
    beats. *)
Lemma take_better_first (l : list (Score * list Z)) :
  (forall s, score_gt s s = false) ->
  (forall a b c, score_gt a b = true -> score_gt b c = true ->
                 score_gt a c = true) ->
  (forall a b c, score_gt a b = true ->
                 score_gt a c = true \/ score_gt c b = true) ->
  match foldl take_better None l with
  | None => l = []
  | Some (s, d) =>
      exists i, l !! i = Some (s, d) /\
        (forall j s' d', j < i -> l !! j = Some (s', d') ->
                         score_gt s s' = true) /\
        (forall j s' d', l !! j = Some (s', d') -> score_gt s' s = false)
  end.
Proof.
  intros Hirr Htr Hneg. induction l as [|[sx dx] l IH] using rev_ind;
    [reflexivity|].
  rewrite foldl_snoc.
  destruct (foldl take_better None l) as [[s d]|]; cbn [take_better fst].
  - destruct IH as (i & Hi & Hfirst & Hmax).
    pose proof (lookup_lt_Some _ _ _ Hi) as Hlt.
    destruct (score_gt sx s) eqn:Hgt.
    + exists (length l). split; [apply list_lookup_middle; reflexivity|]. split.
      * intros j s' d' Hj Hl. rewrite lookup_app_l in Hl by exact Hj.
        destruct (Hneg sx s s' Hgt) as [Hok|Hbad]; [exact Hok|].
        rewrite (Hmax j s' d' Hl) in Hbad. discriminate.
      * intros j s' d' Hj.
        apply lookup_snoc_Some in Hj as [[_ Hj]|[_ [= <- <-]]]; [|apply Hirr].
        destruct (score_gt s' sx) eqn:Hgt'; [|reflexivity].
        rewrite <- (Hmax j s' d' Hj). symmetry. eapply Htr; eauto.
    + exists i. split; [apply lookup_app_l_Some; exact Hi|]. split.
      * intros j s' d' Hj Hl. rewrite lookup_app_l in Hl by lia. eauto.
      * intros j s' d' Hj.
        apply lookup_snoc_Some in Hj as [[_ Hj]|[_ [= <- <-]]]; eauto.
  - subst l. exists 0. split; [reflexivity|]. split.
    + intros j s' d' Hj. lia.
    + intros [|j] s' d' Hj; [|discriminate]. injection Hj as <- <-. apply Hirr.
Qed.

(** X13 (lines 449-458, [pyramid_align]): how ties are resolved.  The
    loop replaces its best candidate only on a strictly higher
    correlation, so of the candidates inside the bounds it returns the
    first, in the order of [itertools.product], whose correlation none of
    the others exceeds: every candidate before it scores strictly lower.
    ([>] on the finite correlations is irreflexive and transitive, and
    so is its complement.) *)
Theorem refine_loop_first_best (ab : list bool) (disp : list Z)
    (bounds : option bounds_t) (r t r' t' : image F) (ss : list Score) :
  (forall s, score_gt s s = false) ->
  (forall a b c, score_gt a b = true -> score_gt b c = true ->
                 score_gt a c = true) ->
  (forall a b c, score_gt a b = true ->
                 score_gt a c = true \/ score_gt c b = true) ->
  length disp = length ab ->
  bounds_fit bounds (length ab) ->
  let kept := List.filter (in_bounds bounds)
                          (candidates ab disp (adjustments ab)) in
  score_all r t kept = Some (ss, r', t') ->
  kept <> [] ->
  exists i d s,
    refine_loop ab disp bounds (adjustments ab) (None, r, t)
      = Ok (Some (s, d), r', t') /\
    kept !! i = Some d /\ ss !! i = Some s /\
    (forall j s', j < i -> ss !! j = Some s' -> score_gt s s' = true) /\
    (forall j s', ss !! j = Some s' -> score_gt s' s = false).
Proof.
  intros Hirr Htr Hneg Hd Hfit kept Hsc Hne.
  rewrite refine_loop_spec; auto.
  2:{ apply Forall_forall. intros adj Hadj. apply adjustments_length, Hadj. }
  cbv zeta. fold kept. rewrite Hsc.
  pose proof (score_all_length _ _ _ _ _ _ Hsc) as Hlen.
  pose proof (take_better_first (zip ss kept) Hirr Htr Hneg) as Hbest.
  destruct (foldl take_better None (zip ss kept)) as [[s d]|].
  - destruct Hbest as (i & Hi & Hfirst & Hmax).
    apply lookup_zip_with_Some in Hi as (s0 & d0 & Heq & Hs & Hk).
    injection Heq as -> ->.
    exists i, d0, s0. repeat split; auto.
    + intros j s' Hj Hs'.
      destruct (lookup_lt_is_Some_2 kept j) as [d' Hd'];
        [apply lookup_lt_Some in Hs'; lia|].
      apply (Hfirst j s' d' Hj).
      apply lookup_zip_with_Some. eauto.
    + intros j s' Hs'.
      destruct (lookup_lt_is_Some_2 kept j) as [d' Hd'];
        [apply lookup_lt_Some in Hs'; lia|].
      apply (Hmax j s' d'). apply lookup_zip_with_Some. eauto.
  - exfalso. destruct kept as [|k kept']; [contradiction|].
    destruct ss; discriminate.
Qed.
End Ties.

(** ** The coordinator, step by step *)

Lemma update_at_Ok {X} i (g : X -> result X) (l l' : list X) :
  update_at i g l = Ok l' ->
  exists x x', l !! i = Some x /\ g x = Ok x' /\ l' = <[i := x']> l.
Proof.
  unfold update_at. destruct (l !! i) as [x|]; [|discriminate].
  destruct (g x) as [x'|] eqn:Hg; [|discriminate].
  intros [= <-]. eauto.
Qed.

Lemma update_at_Forall {X} (P : X -> Prop) i (g : X -> result X) l l' :
  (forall x x', P x -> g x = Ok x' -> P x') ->
  Forall P l -> update_at i g l = Ok l' -> Forall P l'.
Proof.
  intros Hg Hall Hup.
  apply update_at_Ok in Hup as (x & x' & Hx & Hgx & ->).
  apply Forall_insert; [exact Hall|].
  rewrite Forall_lookup in Hall. eauto.
Qed.

Lemma update_at_fmap {X Y} (f : X -> Y) i (g : X -> result X) l l' :
  (forall x x', g x = Ok x' -> f x' = f x) ->
  update_at i g l = Ok l' -> f <$> l' = f <$> l.
Proof.
  intros Hg Hup.
  apply update_at_Ok in Hup as (x & x' & Hx & Hgx & ->).
  rewrite list_fmap_insert, (Hg x x' Hgx).
  apply list_insert_id. rewrite list_lookup_fmap, Hx. reflexivity.
Qed.

(** The records of a whole run: one entry per (cycle, frame, plane). *)
Lemma update_slot_Forall {X} (P : X -> Prop) c f p (g : X -> result X)
    (l l' : list (list (list X))) :
  (forall x x', P x -> g x = Ok x' -> P x') ->
  Forall (Forall (Forall P)) l ->
  update_at c (update_at f (update_at p g)) l = Ok l' ->
  Forall (Forall (Forall P)) l'.
Proof.
  intros Hg. apply update_at_Forall. intros lc lc'.
  apply update_at_Forall. intros lf lf'.
  apply update_at_Forall. exact Hg.
Qed.

Lemma update_slot_fmap {X Y} (h : X -> Y) c f p (g : X -> result X)
    (l l' : list (list (list X))) :
  (forall x x', g x = Ok x' -> h x' = h x) ->
  update_at c (update_at f (update_at p g)) l = Ok l' ->
  fmap (M:=list) (fmap (M:=list) (fmap (M:=list) h)) l'
  = fmap (M:=list) (fmap (M:=list) (fmap (M:=list) h)) l.
Proof.
  intros Hg. apply update_at_fmap. intros lc lc'.
  apply update_at_fmap. intros lf lf'.
  apply update_at_fmap. exact Hg.
Qed.

Section Steps.
Context {F Score : Type} `{FloatOps F} `{PyramidEnv F Score}.

(** What a completed search step has done. *)
Lemma search_plane_Ok (search : search_t F) fi ci p plane method md ns ns' :
  search_plane search fi ci p plane method md ns = (ns', Ok tt) ->
  exists p_sums p_counts reference bounds found rel s r,
    np_index (ns_pixel_sums ns) p = Ok p_sums /\
    np_index (ns_pixel_counts ns) p = Ok p_counts /\
    np_op2 f_div p_sums p_counts = Ok reference /\
    method = "correlation"%string /\
    displacement_bounds md (ns_shifts ns) (ns_offset ns) = Ok bounds /\
    search (expand_dims0 reference) (expand_dims0 plane) bounds = Ok found /\
    check_shift found.1.1 bounds (ns_offset ns) md = Ok tt /\
    np2 Z.sub found.1.1 (ns_offset ns) = Ok rel /\
    update_at ci (update_at fi (update_at p
      (fun row => assign_rows (length row) rel))) (ns_shifts ns) = Ok s /\
    ns' = set_reference r (set_shifts s ns).
Proof.
  unfold search_plane, sh_bind, sh_read, sh_lift, sh_write. cbn [id].
  destruct (np_index (ns_pixel_sums ns) p) as [p_sums|]; [|discriminate].
  destruct (np_index (ns_pixel_counts ns) p) as [p_counts|]; [|discriminate].
  destruct (np_op2 f_div p_sums p_counts) as [reference|] eqn:Href;
    [|discriminate].
  destruct (String.eqb_spec method "correlation") as [->|];
    [|destruct (String.eqb method "ECC"); discriminate].
  destruct (displacement_bounds md (ns_shifts ns) (ns_offset ns))
    as [bounds|]; cbn [mbind result_bind]; [|discriminate].
  destruct (search (expand_dims0 reference) (expand_dims0 plane) bounds)
    as [found|] eqn:Hfound; cbn [mbind result_bind]; [|discriminate].
  destruct (check_shift _ bounds (ns_offset ns) md) as [[]|] eqn:Hchk;
    cbn [mbind result_bind]; [|discriminate].
  destruct (np2 Z.sub _ (ns_offset ns)) as [rel|] eqn:Hrel; [|discriminate].
  destruct (update_at ci _ (ns_shifts ns)) as [s|] eqn:Hs; [|discriminate].
  destruct (_ ≫= _) as [row|]; [|discriminate].
  destruct (_update_reference _ _ _ _ _) as [r|]; [|discriminate].
  intros [= <-]. exists p_sums, p_counts, reference, bounds, found, rel, s, r.
  repeat split; auto.
Qed.

(** A search step never assigns a correlation, whatever its outcome. *)
Lemma search_plane_correlations (search : search_t F) fi ci p plane method
    md ns ns' r :
  search_plane search fi ci p plane method md ns = (ns', r) ->
  ns_correlations ns' = ns_correlations ns.
Proof.
  unfold search_plane, sh_bind, sh_read, sh_lift, sh_write. cbn [id].
  repeat match goal with
         | |- context [match ?x with Ok _ => _ | Raise _ => _ end] =>
             destruct x
         end;
    intros [= <- _]; reflexivity.
Qed.

Lemma seed_plane_Ok fi ci p plane (ns ns' : Namespace F) :
  seed_plane fi ci p plane ns = (ns', Ok tt) ->
  exists corrs s r,
    update_at ci (update_at fi (update_at p (fun _ => Ok f_one)))
      (ns_correlations ns) = Ok corrs /\
    update_at ci (update_at fi (update_at p
      (fun row => Ok ((fun _ => 0%Z) <$> row)))) (ns_shifts ns) = Ok s /\
    _update_reference (ns_pixel_sums ns) (ns_pixel_counts ns) (ns_offset ns)
      [Z.of_nat p; 0%Z; 0%Z] (expand_dims0 plane) = Ok r /\
    ns' = set_reference r (set_shifts s (set_correlations corrs ns)).
Proof.
  unfold seed_plane, sh_bind, sh_read, sh_lift, sh_write. cbn [id].
  destruct (update_at ci _ (ns_correlations ns)) as [corrs|]; [|discriminate].
  cbn [ns_shifts set_correlations].
  destruct (update_at ci _ (ns_shifts ns)) as [s|]; [|discriminate].
  cbn [ns_pixel_sums ns_pixel_counts ns_offset set_shifts].
  destruct (_update_reference _ _ _ _ _) as [r|]; [|discriminate].
  intros [= <-]. exists corrs, s, r. repeat split; auto.
Qed.

(** A property of the namespace that every completed plane step keeps is
    kept by a completed run over the cycles. *)
Lemma align_planes_from_keeps (I : Namespace F -> Prop) search fi ci method md :
  (forall p plane ns ns', I ns ->
     align_plane search fi ci method md p plane ns = (ns', Ok tt) -> I ns') ->
  forall planes p ns ns', I ns ->
    align_planes_from search fi ci method md p planes ns = (ns', Ok tt) ->
    I ns'.
Proof.
  intros Hstep planes. induction planes as [|plane rest IH];
    intros p ns ns' Hns Hrun.
  - injection Hrun as <-. exact Hns.
  - cbn [align_planes_from] in Hrun. unfold sh_bind in Hrun.
    destruct (align_plane search fi ci method md p plane ns) as [ns1 [[]|]]
      eqn:Hp; [|discriminate].
    eapply IH; [|exact Hrun]. eapply Hstep; eauto.
Qed.

Lemma align_cycle_keeps (I : Namespace F -> Prop) rl method md ci :
  (forall fi p plane ns ns', I ns ->
     align_plane (default_search rl) fi ci method
       ((fun m => 0%Z :: m) <$> md) p plane ns = (ns', Ok tt) -> I ns') ->
  forall frames fi ns ns', I ns ->
    align_cycle rl method md ci fi frames ns = (ns', Ok tt) -> I ns'.
Proof.
  intros Hstep frames. induction frames as [|frame rest IH];
    intros fi ns ns' Hns Hrun.
  - injection Hrun as <-. exact Hns.
  - cbn [align_cycle] in Hrun. unfold sh_bind in Hrun.
    destruct (_align_frame rl fi frame ci method md ns) as [ns1 [[]|]]
      eqn:Hf; [|discriminate].
    eapply IH; [|exact Hrun].
    unfold _align_frame, align_frame_with in Hf.
    eapply align_planes_from_keeps; [|exact Hns|exact Hf].
    intros p plane. apply Hstep.
Qed.

Lemma align_cycles_keeps (I : Namespace F -> Prop) rl method md :
  (forall fi ci p plane ns ns', I ns ->
     align_plane (default_search rl) fi ci method
       ((fun m => 0%Z :: m) <$> md) p plane ns = (ns', Ok tt) -> I ns') ->
  forall cs ci ns ns', I ns ->
    align_cycles rl method md ci cs ns = (ns', Ok tt) -> I ns'.
Proof.
  intros Hstep cs. induction cs as [|cycle rest IH];
    intros ci ns ns' Hns Hrun.
  - injection Hrun as <-. exact Hns.
  - cbn [align_cycles] in Hrun. unfold sh_bind in Hrun.
    destruct (align_cycle rl method md ci 0 cycle ns) as [ns1 [[]|]]
      eqn:Hc; [|discriminate].
    eapply IH; [|exact Hrun].
    eapply align_cycle_keeps; [|exact Hns|exact Hc].
    intros fi p plane. apply Hstep.
Qed.

Lemma align_plane_cases (search : search_t F) fi ci method md p plane ns ns' :
  align_plane search fi ci method md p plane ns = (ns', Ok tt) ->
  seed_plane fi ci p plane ns = (ns', Ok tt) \/
  search_plane search fi ci p plane method md ns = (ns', Ok tt).
Proof.
  unfold align_plane, sh_bind, sh_read, sh_lift.
  destruct (np_index (ns_pixel_counts ns) p) as [pc|]; [|discriminate].
  destruct (nd_any f_truthy 3 (data pc)); auto.
Qed.

(** A completed run of the engine: the run over the cycles from the
    initial namespace and the drift correction of its shifts. *)
Lemma frame_alignment_base_Ok rl cpu uninit (dataset : Dataset F) md method
    n_processes shifts corrs :
  _frame_alignment_base rl cpu uninit dataset md method n_processes
    = Ok (shifts, corrs) ->
  exists ns,
    align_cycles rl method md 0 (cycles dataset)
      (initial_namespace uninit dataset) = (ns, Ok tt) /\
    _align_planes (fmap (M:=list) (fmap (M:=list) (fmap (M:=list) tl))
                     (ns_shifts ns)) = Ok shifts /\
    corrs = ns_correlations ns.
Proof.
  unfold _frame_alignment_base.
  destruct (n_pools n_processes cpu <? 1)%Z; [discriminate|].
  destruct (align_cycles rl method md 0 (cycles dataset) _) as [ns [[]|]]
    eqn:Hcycles; [|discriminate].
  cbn [mbind result_bind].
  destruct (_align_planes _) as [s|] eqn:Hplanes; [|discriminate].
  intros [= <- <-]. exists ns. auto.
Qed.

(** X14 (lines 104-111 and 197-253, [_frame_alignment_base] and
    [_align_frame]): no computed correlation is ever recorded.  Every
    correlation the engine returns is either the 1 written for a seed
    plane or what [np.empty] left in the record: the search branch never
    assigns [namespace.correlations]. *)
Theorem correlations_never_computed rl cpu uninit (dataset : Dataset F)
    md method n_processes shifts corrs :
  _frame_alignment_base rl cpu uninit dataset md method n_processes
    = Ok (shifts, corrs) ->
  Forall (Forall (Forall (fun c => c = uninit \/ c = f_one))) corrs.
Proof.
  intros Hrun.
  apply frame_alignment_base_Ok in Hrun as (ns & Hcycles & _ & ->).
  revert Hcycles.
  apply (align_cycles_keeps
           (fun ns => Forall (Forall (Forall (fun c => c = uninit \/ c = f_one)))
                        (ns_correlations ns))).
  - intros fi ci p plane ns0 ns1 Hinv Hstep.
    apply align_plane_cases in Hstep as [Hseed|Hsearch].
    + apply seed_plane_Ok in Hseed as (corrs & s & r & Hc & _ & _ & ->).
      cbn [ns_correlations set_reference set_shifts set_correlations].
      eapply update_slot_Forall; [|exact Hinv|exact Hc].
      intros x x' _ [= <-]. auto.
    + apply search_plane_correlations in Hsearch. rewrite Hsearch. exact Hinv.
  - unfold initial_namespace. cbn [ns_correlations].
    apply Forall_fmap, Forall_forall. intros seq _. cbv beta.
    apply Forall_replicate, Forall_replicate. auto.
Qed.
End Steps.

(** ** Drift correction *)

Lemma align_planes_run shifts shifts' dim :
  Forall (fun row => length row = dim) (concat (concat shifts)) ->
  _align_planes shifts = Ok shifts' ->
  exists r rs,
    concat (concat shifts) = r :: rs /\
    shifts' = fmap (M:=list) (fmap (M:=list) (fmap (M:=list)
                (fun row => zip_with Z.sub row
                   (alteration_of (foldl (zip_with Z.add) r rs)
                                  (Pos.of_nat (S (length rs)))))))
                shifts.
Proof.
  intros Hrows Hrun. rewrite align_planes_unfold in Hrun.
  destruct (concat (concat shifts)) as [|r rs] eqn:Hcc; [discriminate|].
  cbv zeta in Hrun. exists r, rs. split; [reflexivity|].
  assert (Hls : length (foldl (zip_with Z.add) r rs) = dim).
  { apply Forall_cons in Hrows as [Hr Hrs]. apply length_col_sums; auto. }
  assert (Hall : Forall (Forall (Forall (fun row => length row = dim))) shifts).
  { apply (proj1 (Forall_concat _ _)), (proj1 (Forall_concat _ _)).
    rewrite Hcc. exact Hrows. }
  destruct (foldl (zip_with Z.add) r rs) as [|s0 sums0] eqn:Hsums;
    [discriminate|].
  rewrite (mapM_Ok _ (fmap (M:=list) (fmap (M:=list)
             (fun row => zip_with Z.sub row
                (alteration_of (s0 :: sums0) (Pos.of_nat (S (length rs))))))))
    in Hrun; [congruence|].
  eapply Forall_impl; [exact Hall|]. intros c Hc.
  apply mapM_Ok. eapply Forall_impl; [exact Hc|]. intros f Hf.
  apply mapM_Ok. eapply Forall_impl; [exact Hf|]. intros row Hrow.
  apply np2_same_length. unfold alteration_of. rewrite length_fmap. congruence.
Qed.



(** ** Bounded searches in the plane engine *)

Lemma fold_same_head (f : Z -> Z -> Z) (z : Z) (rs : list (list Z)) :
  f z z = z -> forall r,
  Forall (fun row => length row = 3 /\ hd 0%Z row = z) (r :: rs) ->
  exists a b, foldl (zip_with f) r rs = [z; a; b].
Proof.
  intros Hf. induction rs as [|x rs IH]; intros r Hall.
  - apply Forall_cons in Hall as [[Hl Hh] _].
    destruct r as [|r0 [|r1 [|r2 [|]]]]; try discriminate.
    cbn in Hh. subst r0. eauto.
  - apply Forall_cons in Hall as [[Hl Hh] Hall].
    apply Forall_cons in Hall as [[Hlx Hhx] Hall].
    destruct r as [|r0 [|r1 [|r2 [|]]]]; try discriminate.
    destruct x as [|x0 [|x1 [|x2 [|]]]]; try discriminate.
    cbn in Hh, Hhx. subst r0 x0. cbn [foldl zip_with]. rewrite Hf.
    apply IH. constructor; [split; reflexivity|exact Hall].
Qed.

Section BoundedPlanes.
Context {F Score : Type} `{FloatOps F} `{PyramidEnv F Score}.

(** When every recorded shift has the same plane component, the bounds of
    lines 219-227 have equal ends on the plane axis. *)
Lemma displacement_bounds_pinned md shifts offset bounds z :
  Forall (fun row => length row = 3 /\ hd 0%Z row = z)
         (concat (concat shifts)) ->
  forallb (fun m => (m >=? 0)%Z) md = true ->
  displacement_bounds (Some (0%Z :: md)) shifts offset = Ok bounds ->
  exists b, bounds = Some b /\ bounds_ordered (Some b) = false.
Proof.
  intros Hrows Hmd. unfold displacement_bounds.
  cbn [forallb]. rewrite Hmd. cbn [andb Z.geb Z.compare].
  destruct (concat (concat shifts)) as [|r rs]; [discriminate|].
  destruct (fold_same_head Z.min z rs (Z.min_id z) r Hrows) as (a & b & Hmin).
  destruct (fold_same_head Z.max z rs (Z.max_id z) r Hrows) as (a' & b' & Hmax).
  unfold col_reduce. rewrite Hmin, Hmax. cbn [mbind result_bind].
  destruct md as [|m1 [|m2 [|m3 md]]];
    destruct offset as [|o0 [|o1 [|o2 [|o3 offset]]]];
    unfold np2;
    cbn [length Nat.eqb zip_with fmap list_fmap mbind result_bind zip
         fst snd];
    try discriminate;
    intros [= <-]; (eexists; split; [reflexivity|]);
    cbn [bounds_ordered forallb fst snd];
    apply andb_false_iff; left; apply Z.ltb_ge; lia.
Qed.

Lemma default_search_unordered rl (reference target : image F) b :
  bounds_ordered (Some b) = false ->
  default_search rl reference target (Some b)
  = Raise (match rl with
           | O => RecursionError
           | S _ => AssertionError AssertBoundsOrdered
           end).
Proof.
  intros Hb. unfold default_search. destruct rl as [|rl]; [reflexivity|].
  rewrite pyramid_align_unfold. unfold pyramid_level. rewrite Hb. reflexivity.
Qed.

(** X16 (lines 184-185, 219-232 and 440, [_align_frame] and
    [pyramid_align]): with a [max_displacement] whose entries are all
    non-negative, the search for a plane that is not a seed fails.  The
    plane axis is given the maximal displacement 0, so while the recorded
    shifts agree on their plane component the two ends of the bounds of
    that axis are equal, and [pyramid_align] fails its assertion
    [bounds[0] < bounds[1]]: the step raises AssertionError and leaves the
    namespace as it was. *)
Theorem bounded_plane_search_fails rl fi ci p (plane : ndarray F 3)
    (md : list Z) (ns : Namespace F) (p_counts : ndarray F 3) (z : Z) :
  np_index (ns_pixel_counts ns) p = Ok p_counts ->
  nd_any f_truthy 3 (data p_counts) = true ->
  wf_array (ns_pixel_sums ns) = true ->
  wf_array (ns_pixel_counts ns) = true ->
  shape (ns_pixel_sums ns) = shape (ns_pixel_counts ns) ->
  concat (concat (ns_shifts ns)) <> [] ->
  Forall (fun row => length row = 3 /\ hd 0%Z row = z)
         (concat (concat (ns_shifts ns))) ->
  length (ns_offset ns) = 3 ->
  length md = 2 ->
  Forall (Z.le 0) md ->
  align_plane (default_search (S rl)) fi ci "correlation" (Some (0%Z :: md))
              p plane ns
  = (ns, Raise (AssertionError AssertBoundsOrdered)).
Proof.
  intros Hidx Hany Hws Hwc Hsh Hne Hrows Ho Hmd Hpos.
  unfold align_plane, sh_bind, sh_read, sh_lift. rewrite Hidx, Hany.
  unfold search_plane, sh_bind, sh_read, sh_lift. cbn [id].
  rewrite Hidx.
  assert (exists p_sums, np_index (ns_pixel_sums ns) p = Ok p_sums /\
                         shape p_sums = shape p_counts) as (p_sums & Hps & Hshp).
  { unfold np_index in *.
    destruct (_ !! p) as [x|] eqn:Hx in Hidx; [|discriminate].
    injection Hidx as <-.
    apply wf_array_iff in Hws as [Hls Hss].
    apply wf_array_iff in Hwc as [Hlc Hsc].
    rewrite Hsh in *.
    destruct (shape (ns_pixel_counts ns)) as [|s0 sh']; [discriminate|].
    apply nd_shaped_cons in Hss as [Hlen _].
    apply nd_shaped_cons in Hsc as [Hlen' _].
    destruct (lookup_lt_is_Some_2 (data (ns_pixel_sums ns) : list (nd F 3)) p)
      as [y Hy].
    { rewrite Hlen, <- Hlen'. eapply lookup_lt_Some; eauto. }
    rewrite Hy. eexists. split; [reflexivity|]. reflexivity. }
  rewrite Hps. unfold np_op2. rewrite Hshp, broadcast_shape_refl.
  cbn [String.eqb Ascii.eqb Bool.eqb andb].
  assert (Hfb : forallb (fun m => (m >=? 0)%Z) md = true).
  { apply forallb_forall. intros m Hm. apply Z.geb_le.
    rewrite Forall_forall in Hpos. apply Hpos, list_elem_of_In, Hm. }
  destruct (displacement_bounds (Some (0%Z :: md)) (ns_shifts ns)
              (ns_offset ns)) as [bounds|e] eqn:Hb.
  - destruct (displacement_bounds_pinned md _ _ _ z Hrows Hfb Hb)
      as (b & -> & Hun).
    cbn [mbind result_bind]. rewrite (default_search_unordered _ _ _ _ Hun).
    reflexivity.
  - exfalso. revert Hb. unfold displacement_bounds. cbn [forallb].
    rewrite Hfb. cbn [andb Z.geb Z.compare].
    destruct (concat (concat (ns_shifts ns))) as [|r rs] eqn:Hcc;
      [contradiction|].
    destruct (fold_same_head Z.min z rs (Z.min_id z) r Hrows) as (a & b & Hmin).
    destruct (fold_same_head Z.max z rs (Z.max_id z) r Hrows)
      as (a' & b' & Hmax).
    unfold col_reduce. rewrite Hmin, Hmax.
    destruct md as [|m1 [|m2 [|]]]; try discriminate.
    destruct (ns_offset ns) as [|o0 [|o1 [|o2 [|]]]]; discriminate.
Qed.

(** X17 (lines 74-158 and 219-241, [_frame_alignment_base]): with a
    [max_displacement] whose entries are all non-negative the engine
    never reports a displacement.  A run that returns has treated every
    plane of every frame as a seed: all the shifts it returns are
    (0, 0). *)
Theorem bounded_run_reports_no_shift rl cpu uninit (dataset : Dataset F)
    (md : list Z) method n_processes shifts corrs :
  Forall (Z.le 0) md ->
  _frame_alignment_base rl cpu uninit dataset (Some md) method n_processes
    = Ok (shifts, corrs) ->
  Forall (Forall (Forall (fun row => row = [0; 0]%Z))) shifts.
Proof.
  intros Hpos Hrun.
  assert (Hfb : forallb (fun m => (m >=? 0)%Z) md = true).
  { apply forallb_forall. intros m Hm. apply Z.geb_le.
    rewrite Forall_forall in Hpos. apply Hpos, list_elem_of_In, Hm. }
  apply frame_alignment_base_Ok in Hrun as (ns & Hcycles & Hplanes & _).
  assert (Hzero : Forall (Forall (Forall (fun row => row = [0; 0; 0]%Z)))
                    (ns_shifts ns)).
  { revert Hcycles.
    apply (align_cycles_keeps
             (fun ns => Forall (Forall (Forall (fun row => row = [0; 0; 0]%Z)))
                          (ns_shifts ns))).
    - intros fi ci p plane ns0 ns1 Hinv Hstep.
      apply align_plane_cases in Hstep as [Hseed|Hsearch].
      + apply seed_plane_Ok in Hseed as (corrs' & s & r & _ & Hs & _ & ->).
        cbn [ns_shifts set_reference set_shifts set_correlations].
        eapply update_slot_Forall; [|exact Hinv|exact Hs].
        intros x x' -> [= <-]. reflexivity.
      + exfalso.
        apply search_plane_Ok in Hsearch
          as (ps & pc & reference & bounds & found & rel & s & r & _ & _ & _
              & _ & Hb & Hfound & _).
        cbn [fmap option_fmap option_map] in Hb.
        apply (displacement_bounds_pinned md _ _ _ 0%Z) in Hb
          as (b & -> & Hun); [| |exact Hfb].
        * rewrite (default_search_unordered _ _ _ _ Hun) in Hfound.
          discriminate.
        * apply Forall_concat, Forall_concat.
          eapply Forall_impl; [exact Hinv|]. intros c Hc.
          eapply Forall_impl; [exact Hc|]. intros f Hf.
          eapply Forall_impl; [exact Hf|]. intros row ->. auto.
    - unfold initial_namespace. cbn [ns_shifts].
      apply Forall_fmap, Forall_forall. intros seq _. cbv beta.
      apply Forall_replicate, Forall_replicate. reflexivity. }
  assert (Hrows : Forall (fun row => row = [0; 0]%Z)
            (concat (concat (fmap (M:=list) (fmap (M:=list) (fmap (M:=list) tl))
                               (ns_shifts ns))))).
  { apply Forall_concat, Forall_concat.
    apply Forall_fmap. eapply Forall_impl; [exact Hzero|]. intros c Hc.
    apply Forall_fmap. eapply Forall_impl; [exact Hc|]. intros f Hf.
    apply Forall_fmap. eapply Forall_impl; [exact Hf|]. intros row ->.
    reflexivity. }
  apply (align_planes_run _ _ 2) in Hplanes as (r & rs & Hcc & ->).
  2:{ eapply Forall_impl; [exact Hrows|]. intros row ->. reflexivity. }
  rewrite Hcc in Hrows.
  assert (Hsums : foldl (zip_with Z.add) r rs = [0; 0]%Z).
  { clear Hcc. apply Forall_cons in Hrows as [-> Hrs].
    induction Hrs as [|x rs -> _ IH]; [reflexivity|]. exact IH. }
  rewrite Hsums. unfold alteration_of. cbn [fmap list_fmap hd].
  rewrite Z.sub_diag, Z.quot_0_l by lia.
  apply Forall_fmap, Forall_fmap.
  eapply Forall_impl; [exact Hzero|]. intros c Hc. unfold compose.
  apply Forall_fmap, Forall_fmap.
  eapply Forall_impl; [exact Hc|]. intros f Hf. unfold compose.
  apply Forall_fmap, Forall_fmap.
  eapply Forall_impl; [exact Hf|]. intros row ->. reflexivity.
Qed.
End BoundedPlanes.

(** ** A negative maximal displacement *)

Section NegativeBound.
Context {F Score : Type} `{FloatOps F} `{PyramidEnv F Score}.

Lemma search_plane_negative (search : search_t F) fi ci p plane method md ns :
  forallb (fun m => (m >=? 0)%Z) md = false ->
  search_plane search fi ci p plane method (Some md) ns
  = search_plane search fi ci p plane method None ns.
Proof.
  intros Hneg. unfold search_plane, sh_bind, sh_read, sh_lift, sh_write.
  cbn [id].
  destruct (np_index (ns_pixel_sums ns) p) as [p_sums|]; [|reflexivity].
  destruct (np_index (ns_pixel_counts ns) p) as [p_counts|]; [|reflexivity].
  destruct (np_op2 f_div p_sums p_counts) as [reference|]; [|reflexivity].
  unfold displacement_bounds. rewrite Hneg. reflexivity.
Qed.

Lemma align_planes_from_negative (search : search_t F) fi ci method md :
  forallb (fun m => (m >=? 0)%Z) md = false ->
  forall planes p ns,
    align_planes_from search fi ci method (Some md) p planes ns
    = align_planes_from search fi ci method None p planes ns.
Proof.
  intros Hneg planes. induction planes as [|plane rest IH]; intros p ns;
    [reflexivity|].
  cbn [align_planes_from]. unfold sh_bind.
  assert (Hp : align_plane search fi ci method (Some md) p plane ns
               = align_plane search fi ci method None p plane ns).
  { unfold align_plane, sh_bind, sh_read, sh_lift.
    destruct (np_index (ns_pixel_counts ns) p) as [pc|]; [|reflexivity].
    destruct (nd_any f_truthy 3 (data pc)); [|reflexivity].
    apply search_plane_negative, Hneg. }
  rewrite Hp.
  destruct (align_plane search fi ci method None p plane ns) as [ns1 [[]|]];
    [apply IH|reflexivity].
Qed.

Lemma align_cycle_negative rl method md ci :
  forallb (fun m => (m >=? 0)%Z) md = false ->
  forall frames fi ns,
    align_cycle rl method (Some md) ci fi frames ns
    = align_cycle rl method None ci fi frames ns.
Proof.
  intros Hneg frames. induction frames as [|frame rest IH]; intros fi ns;
    [reflexivity|].
  cbn [align_cycle]. unfold sh_bind, _align_frame, align_frame_with.
  cbn [fmap option_fmap option_map].
  rewrite align_planes_from_negative by (cbn [forallb]; exact Hneg).
  destruct (align_planes_from _ fi ci method None 0 (planes_of frame) ns)
    as [ns1 [[]|]]; [apply IH|reflexivity].
Qed.

Lemma align_cycles_negative rl method md :
  forallb (fun m => (m >=? 0)%Z) md = false ->
  forall cs ci ns,
    align_cycles rl method (Some md) ci cs ns
    = align_cycles rl method None ci cs ns.
Proof.
  intros Hneg cs. induction cs as [|cycle rest IH]; intros ci ns;
    [reflexivity|].
  cbn [align_cycles]. unfold sh_bind.
  rewrite align_cycle_negative by exact Hneg.
  destruct (align_cycle rl method None ci 0 cycle ns) as [ns1 [[]|]];
    [apply IH|reflexivity].
Qed.

(** X18 (lines 184-185 and 219-229, [_align_frame]): a negative entry in
    [max_displacement] turns the bound off.  The engine then runs exactly
    as with [max_displacement=None]: every search is unbounded and the
    assertions on the shift are skipped. *)
Theorem negative_max_displacement_is_none rl cpu uninit (dataset : Dataset F)
    (md : list Z) method n_processes :
  Exists (fun m => (m < 0)%Z) md ->
  _frame_alignment_base rl cpu uninit dataset (Some md) method n_processes
  = _frame_alignment_base rl cpu uninit dataset None method n_processes.
Proof.
  intros Hex.
  assert (Hneg : forallb (fun m => (m >=? 0)%Z) md = false).
  { apply not_true_iff_false. intros Hall. rewrite forallb_forall in Hall.
    apply Exists_exists in Hex as (m & Hm & Hlt).
    apply list_elem_of_In, Hall, Z.geb_le in Hm. lia. }
  unfold _frame_alignment_base.
  rewrite align_cycles_negative by exact Hneg. reflexivity.
Qed.
End NegativeBound.

(** ** The shape of the result *)

Lemma fmap_replicate_inv {X Y} (h : X -> Y) (l : list X) n (y : Y) :
  h <$> l = replicate n y -> Forall (fun x => h x = y) l.
Proof.
  intros Heq. apply Forall_lookup. intros i x Hx.
  assert (Hi : (h <$> l) !! i = Some (h x))
    by (rewrite list_lookup_fmap, Hx; reflexivity).
  rewrite Heq in Hi. apply lookup_replicate in Hi as [Hi _]. exact Hi.
Qed.

Lemma records_Forall {X Y C} (h : X -> Y) (l : list (list (list X)))
    (cs : list (list C)) n (y : Y) :
  fmap (M:=list) (fmap (M:=list) (fmap (M:=list) h)) l
    = (fun seq => replicate (length seq) (replicate n y)) <$> cs ->
  Forall (Forall (Forall (fun x => h x = y))) l.
Proof.
  intros Heq. apply Forall_lookup. intros i c Hc.
  assert (Hi : (fmap (M:=list) (fmap (M:=list) (fmap (M:=list) h)) l) !! i
               = Some (fmap (M:=list) (fmap (M:=list) h) c))
    by (rewrite list_lookup_fmap, Hc; reflexivity).
  rewrite Heq, list_lookup_fmap in Hi.
  destruct (cs !! i) as [seq|]; [|discriminate]. injection Hi as Hi.
  symmetry in Hi. apply fmap_replicate_inv in Hi.
  eapply Forall_impl; [exact Hi|]. intros f Hf.
  apply fmap_replicate_inv in Hf. exact Hf.
Qed.

Lemma records_compose {X Y Z} (a : Y -> Z) (b : X -> Y)
    (l : list (list (list X))) :
  fmap (M:=list) (fmap (M:=list) (fmap (M:=list) a))
    (fmap (M:=list) (fmap (M:=list) (fmap (M:=list) b)) l)
  = fmap (M:=list) (fmap (M:=list) (fmap (M:=list) (a ∘ b))) l.
Proof.
  rewrite <- list_fmap_compose. apply list_fmap_ext. intros _ c _.
  unfold compose. rewrite <- list_fmap_compose. apply list_fmap_ext.
  intros _ f _. unfold compose. rewrite <- list_fmap_compose. reflexivity.
Qed.

Lemma records_ext {X Y} (f g : X -> Y) (l : list (list (list X))) :
  Forall (Forall (Forall (fun x => f x = g x))) l ->
  fmap (M:=list) (fmap (M:=list) (fmap (M:=list) f)) l
  = fmap (M:=list) (fmap (M:=list) (fmap (M:=list) g)) l.
Proof.
  intros Hall. apply Forall_fmap_ext. eapply Forall_impl; [exact Hall|].
  intros c Hc. apply Forall_fmap_ext. eapply Forall_impl; [exact Hc|].
  intros r Hr. apply Forall_fmap_ext. exact Hr.
Qed.

Section ResultShape.
Context {F Score : Type} `{FloatOps F} `{PyramidEnv F Score}.

(** The records of the namespace keep, through a completed run, one entry
    per cycle, frame and plane, and every shift keeps three components. *)
Lemma records_shape rl method md uninit (dataset : Dataset F) ns :
  align_cycles rl method md 0 (cycles dataset)
    (initial_namespace uninit dataset) = (ns, Ok tt) ->
  fmap (M:=list) (fmap (M:=list) (fmap (M:=list) length)) (ns_shifts ns)
    = (fun seq => replicate (length seq)
                    (replicate (hd 0 (frame_shape dataset)) 3))
        <$> cycles dataset /\
  fmap (M:=list) (fmap (M:=list) (fmap (M:=list) (fun _ : F => tt)))
    (ns_correlations ns)
    = (fun seq => replicate (length seq)
                    (replicate (hd 0 (frame_shape dataset)) tt))
        <$> cycles dataset.
Proof.
  apply (align_cycles_keeps (fun ns =>
    fmap (M:=list) (fmap (M:=list) (fmap (M:=list) length)) (ns_shifts ns)
      = (fun seq => replicate (length seq)
                      (replicate (hd 0 (frame_shape dataset)) 3))
          <$> cycles dataset /\
    fmap (M:=list) (fmap (M:=list) (fmap (M:=list) (fun _ : F => tt)))
      (ns_correlations ns)
      = (fun seq => replicate (length seq)
                      (replicate (hd 0 (frame_shape dataset)) tt))
          <$> cycles dataset)).
  - intros fi ci p plane ns0 ns1 [Hs Hc] Hstep.
    apply align_plane_cases in Hstep as [Hseed|Hsearch].
    + apply seed_plane_Ok in Hseed as (corrs' & s & r & Hcu & Hsu & _ & ->).
      cbn [ns_shifts ns_correlations set_reference set_shifts
           set_correlations].
      split.
      * rewrite <- Hs. eapply update_slot_fmap; [|exact Hsu].
        intros x x' [= <-]. apply length_fmap.
      * rewrite <- Hc. eapply update_slot_fmap; [|exact Hcu].
        reflexivity.
    + pose proof (search_plane_correlations _ _ _ _ _ _ _ _ _ _ Hsearch)
        as Hsame.
      apply search_plane_Ok in Hsearch
        as (ps & pc & reference & bounds & found & rel & s & r & _ & _ & _
            & _ & _ & _ & _ & _ & Hsu & ->).
      cbn [ns_shifts ns_correlations set_reference set_shifts] in *.
      split; [|exact Hc].
      rewrite <- Hs. eapply update_slot_fmap; [|exact Hsu].
      intros x x' Hx. eapply assign_rows_length, Hx.
  - unfold initial_namespace. cbn [ns_shifts ns_correlations].
    split; rewrite <- list_fmap_compose; apply list_fmap_ext;
      intros _ seq _; unfold compose; rewrite !fmap_replicate; reflexivity.
Qed.

(** X19 (lines 104-111 and 141-158, [_frame_alignment_base]): the shape
    of what the engine returns.  There is one array of shifts and one of
    correlations per cycle; the shifts of a cycle hold, for each of its
    frames and each of the [frame_shape[0]] planes, a pair (y, x), and the
    correlations one number per frame and plane. *)
Theorem result_shape rl cpu uninit (dataset : Dataset F) md method
    n_processes shifts corrs :
  _frame_alignment_base rl cpu uninit dataset md method n_processes
    = Ok (shifts, corrs) ->
  let planes := hd 0 (frame_shape dataset) in
  fmap (M:=list) (fmap (M:=list) (fmap (M:=list) length)) shifts
    = (fun seq => replicate (length seq) (replicate planes 2))
        <$> cycles dataset /\
  fmap (M:=list) (fmap (M:=list) length) corrs
    = (fun seq => replicate (length seq) planes) <$> cycles dataset.
Proof.
  intros Hrun planes.
  apply frame_alignment_base_Ok in Hrun as (ns & Hcycles & Hplanes & ->).
  apply records_shape in Hcycles as [Hs Hc]. fold planes in Hs, Hc.
  pose proof (records_Forall _ _ _ _ _ Hs) as Hall. split.
  - assert (Hrows : Forall (fun row : list Z => length row = 2)
              (concat (concat (fmap (M:=list) (fmap (M:=list)
                 (fmap (M:=list) tl)) (ns_shifts ns))))).
    { apply Forall_concat, Forall_concat.
      apply Forall_fmap. eapply Forall_impl; [exact Hall|]. intros c Hc'.
      apply Forall_fmap. eapply Forall_impl; [exact Hc'|]. intros f Hf.
      apply Forall_fmap. eapply Forall_impl; [exact Hf|]. intros row Hrow.
      cbv beta in *. destruct row; [discriminate|]. cbn in *. lia. }
    apply (align_planes_run _ _ 2 Hrows) in Hplanes as (r & rs & Hcc & ->).
    rewrite Hcc in Hrows.
    assert (Hls : length (alteration_of (foldl (zip_with Z.add) r rs)
                            (Pos.of_nat (S (length rs)))) = 2).
    { unfold alteration_of. rewrite length_fmap.
      apply Forall_cons in Hrows as [Hr Hrs]. apply length_col_sums; auto. }
    rewrite !records_compose.
    rewrite (records_ext _ ((fun n => n - 1) ∘ length)).
    + rewrite <- records_compose, Hs.
      rewrite <- list_fmap_compose. apply list_fmap_ext. intros _ seq _.
      unfold compose. rewrite !fmap_replicate. reflexivity.
    + eapply Forall_impl; [exact Hall|]. intros c Hc'.
      eapply Forall_impl; [exact Hc'|]. intros f Hf.
      eapply Forall_impl; [exact Hf|]. intros row Hrow.
      unfold compose. cbv beta in *. rewrite length_zip_with, Hls.
      destruct row; [discriminate|]. cbn in *. lia.
  - transitivity (fmap (M:=list) (fmap (M:=list) length)
                   (fmap (M:=list) (fmap (M:=list)
                      (fmap (M:=list) (fun _ : F => tt)))
                      (ns_correlations ns))).
    + rewrite <- list_fmap_compose. apply list_fmap_ext. intros _ c _.
      unfold compose. rewrite <- list_fmap_compose. apply list_fmap_ext.
      intros _ f _. unfold compose. rewrite length_fmap. reflexivity.
    + rewrite Hc. rewrite <- list_fmap_compose. apply list_fmap_ext.
      intros _ seq _. unfold compose. rewrite fmap_replicate, length_replicate.
      reflexivity.
Qed.
End ResultShape.

(** ** VolumeTranslation *)

Lemma axis_step (l h m o f : Z) :
  axis_ok l h m ->
  (Z.min (h - m) l + o <= f <= Z.max (l + m) h + o)%Z ->
  axis_ok (Z.min l (f - o)) (Z.max h (f - o)) m /\
  (Z.min l (f - o) <= f - o <= Z.max h (f - o))%Z.
Proof. unfold axis_ok. lia. Qed.

Lemma axis_pinned (m : Z) :
  (m <= 0)%Z -> (Z.min (0 - m) 0 + 0 <? Z.max (0 + m) 0 + 0)%Z = false.
Proof. intros Hm. apply Z.ltb_ge. lia. Qed.

Section Volume.
Context {F Score : Type} `{FloatOps F} `{PyramidEnv F Score}.

Lemma volume_bounds_3 (l0 l1 l2 h0 h1 h2 m0 m1 m2 o0 o1 o2 : Z) :
  volume_bounds (Some [m0; m1; m2]) [l0; l1; l2] [h0; h1; h2] [o0; o1; o2]
  = Ok (Some [((Z.min (h0 - m0) l0 + o0)%Z, (Z.max (l0 + m0) h0 + o0)%Z);
              ((Z.min (h1 - m1) l1 + o1)%Z, (Z.max (l1 + m1) h1 + o1)%Z);
              ((Z.min (h2 - m2) l2 + o2)%Z, (Z.max (l2 + m2) h2 + o2)%Z)]).
Proof. reflexivity. Qed.

Lemma volume_frame_unordered rl md (st : volume_state F) (frame : image F) b :
  volume_bounds md (vs_lo st) (vs_hi st) (vs_offset st) = Ok (Some b) ->
  bounds_ordered (Some b) = false ->
  volume_frame (S rl) md st frame
  = Raise (AssertionError AssertBoundsOrdered).
Proof.
  intros Hb Hun. unfold volume_frame. rewrite Hb. cbn [mbind result_bind].
  rewrite pyramid_align_unfold. unfold pyramid_level. rewrite Hun.
  reflexivity.
Qed.

(** X20 (lines 353-368 and 440, [VolumeTranslation._estimate]): a maximal
    displacement of 0 on an axis cannot be used to pin that axis.  With
    any entry of [max_displacement] at 0 (or below), the bounds of the
    first frame have equal ends on that axis and [pyramid_align] fails
    its assertion [bounds[0] < bounds[1]]: the estimate raises
    AssertionError at the first frame. *)
Theorem volume_pinned_axis_fails rl (md : list Z) (frame : image F)
    (rest : list (image F)) (sequences : list (list (image F))) :
  length md = 3 ->
  Exists (fun m => (m <= 0)%Z) md ->
  VolumeTranslation_estimate (S rl) (Some md) ((frame :: rest) :: sequences)
  = Failed (AssertionError AssertBoundsOrdered).
Proof.
  intros Hl Hex.
  destruct md as [|m0 [|m1 [|m2 [|]]]]; try discriminate.
  unfold VolumeTranslation_estimate.
  cbn [volume_sequences volume_sequence].
  erewrite volume_frame_unordered; [reflexivity|apply volume_bounds_3|].
  cbn [bounds_ordered forallb fst snd].
  rewrite !Exists_cons in Hex.
  destruct Hex as [Hm|[Hm|[Hm|Hm]]]; [| | |inversion Hm];
    rewrite (axis_pinned _ Hm), ?andb_false_r; reflexivity.
Qed.

Lemma np2_3 {A B C} (f : A -> B -> C) (a : list A) (b : list B) c :
  length a = 3 -> length b = 3 -> np2 f a b = Ok c -> c = zip_with f a b.
Proof.
  intros Ha Hb. rewrite np2_same_length by congruence. congruence.
Qed.

Lemma update_reference_offset (sums counts : ndarray F 4) offset d img r :
  length offset = 3 -> length d = 3 ->
  _update_reference sums counts offset d img = Ok r -> length r.2 = 3.
Proof.
  intros Ho Hd Hrun. unfold _update_reference in Hrun.
  apply bind_Ok in Hrun as (at_ & _ & Hrun).
  apply bind_Ok in Hrun as (s1 & _ & Hrun).
  apply bind_Ok in Hrun as (c1 & _ & Hrun).
  apply bind_Ok in Hrun as (o1 & Ho1 & Hrun).
  apply bind_Ok in Hrun as (sc & _ & Hrun).
  injection Hrun as <-. cbn [snd].
  rewrite np2_same_length in Ho1 by (rewrite length_fmap; congruence).
  injection Ho1 as <-. rewrite length_zip_with, length_fmap. lia.
Qed.

(** One frame keeps the invariant, and its displacement lies within the
    new range, which contains the old one. *)
Lemma volume_frame_range rl (md : list Z) (st st' : volume_state F)
    (frame : image F) d :
  (forall r t b d', align_cross_correlation r t (Some b) = Some d' ->
                    within_bounds d' (Some b) = Ok true) ->
  range_ok md st ->
  volume_frame rl (Some md) st frame = Ok (d, st') ->
  range_ok md st' /\ in_range st' d /\
  (forall x, in_range st x -> in_range st' x).
Proof.
  intros Hbase Hinv Hrun.
  destruct Hinv as (l0 & l1 & l2 & h0 & h1 & h2 & m0 & m1 & m2
                    & Elo & Ehi & -> & Ho & A0 & A1 & A2).
  unfold volume_frame in Hrun. rewrite Elo, Ehi in Hrun.
  destruct (vs_offset st) as [|o0 [|o1 [|o2 [|]]]] eqn:Eo; try discriminate.
  rewrite volume_bounds_3 in Hrun. cbn [mbind result_bind] in Hrun.
  apply bind_Ok in Hrun as (found & Hfound & Hrun).
  destruct found as [[fd fr] ft]. cbn [fst snd] in Hrun.
  apply (pyramid_align_in_bounds _ _ _ _ _ _ _ _ _ Hbase) in Hfound.
  apply within_bounds_true in Hfound.
  destruct fd as [|f0 fd]; [inversion Hfound|].
  apply Forall2_cons in Hfound as [B0 Hfound].
  destruct fd as [|f1 fd]; [inversion Hfound|].
  apply Forall2_cons in Hfound as [B1 Hfound].
  destruct fd as [|f2 fd]; [inversion Hfound|].
  apply Forall2_cons in Hfound as [B2 Hfound].
  destruct fd; [|inversion Hfound]. clear Hfound.
  cbn [fst snd] in B0, B1, B2.
  cbn [np2 length Nat.eqb zip_with mbind result_bind assign_rows] in Hrun.
  apply bind_Ok in Hrun as (r & Hr & Hrun).
  apply bind_Ok in Hrun as (reference & _ & Hrun).
  injection Hrun as <- <-.
  apply update_reference_offset in Hr; [|reflexivity..].
  destruct (axis_step l0 h0 m0 o0 f0 A0 B0) as [A0' R0].
  destruct (axis_step l1 h1 m1 o1 f1 A1 B1) as [A1' R1].
  destruct (axis_step l2 h2 m2 o2 f2 A2 B2) as [A2' R2].
  split; [|split].
  - unfold range_ok. cbn [vs_lo vs_hi vs_offset].
    eexists _, _, _, _, _, _, _, _, _. repeat split; eauto; apply A0' || apply A1' || apply A2'.
  - unfold in_range. cbn [vs_lo vs_hi zip zip_with].
    repeat (apply Forall2_cons; split; [cbn [fst snd]; assumption|]).
    constructor.
  - intros x. unfold in_range. cbn [vs_lo vs_hi]. rewrite Elo, Ehi.
    cbn [zip zip_with]. intros Hx.
    destruct x as [|x0 x]; [inversion Hx|].
    apply Forall2_cons in Hx as [X0 Hx].
    destruct x as [|x1 x]; [inversion Hx|].
    apply Forall2_cons in Hx as [X1 Hx].
    destruct x as [|x2 x]; [inversion Hx|].
    apply Forall2_cons in Hx as [X2 Hx].
    destruct x; [|inversion Hx]. cbn [fst snd] in X0, X1, X2.
    repeat (apply Forall2_cons; split; [cbn [fst snd]; lia|]).
    constructor.
Qed.

Lemma volume_sequence_range rl (md : list Z) (frames : list (image F)) :
  (forall r t b d', align_cross_correlation r t (Some b) = Some d' ->
                    within_bounds d' (Some b) = Ok true) ->
  forall (st st' : volume_state F) ds,
  range_ok md st ->
  volume_sequence rl (Some md) st frames = Ok (ds, st') ->
  range_ok md st' /\ Forall (in_range st') ds /\
  (forall x, in_range st x -> in_range st' x).
Proof.
  intros Hbase. induction frames as [|frame rest IH]; intros st st' ds Hinv Hrun.
  - injection Hrun as <- <-. auto.
  - cbn [volume_sequence] in Hrun.
    apply bind_Ok in Hrun as ([d st1] & Hf & Hrun).
    apply bind_Ok in Hrun as ([ds' st2] & Hs & Hrun).
    injection Hrun as <- <-. cbn [fst snd] in *.
    destruct (volume_frame_range _ _ _ _ _ _ Hbase Hinv Hf)
      as (Hinv1 & Hd & Hmono1).
    destruct (IH _ _ _ Hinv1 Hs) as (Hinv2 & Hds & Hmono2).
    split; [exact Hinv2|]. split; [|auto].
    constructor; [auto|exact Hds].
Qed.

Lemma volume_sequences_range rl (md : list Z)
    (sequences : list (list (image F))) :
  (forall r t b d', align_cross_correlation r t (Some b) = Some d' ->
                    within_bounds d' (Some b) = Ok true) ->
  forall (st st' : volume_state F) dss,
  range_ok md st ->
  volume_sequences rl (Some md) st sequences = Ok (dss, st') ->
  range_ok md st' /\ Forall (in_range st') (concat dss) /\
  (forall x, in_range st x -> in_range st' x).
Proof.
  intros Hbase. induction sequences as [|sequence rest IH];
    intros st st' dss Hinv Hrun.
  - injection Hrun as <- <-. cbn [concat]. auto.
  - cbn [volume_sequences] in Hrun.
    apply bind_Ok in Hrun as ([ds st1] & Hf & Hrun).
    apply bind_Ok in Hrun as ([dss' st2] & Hs & Hrun).
    injection Hrun as <- <-. cbn [fst snd concat] in *.
    destruct (volume_sequence_range _ _ _ Hbase _ _ _ Hinv Hf)
      as (Hinv1 & Hd & Hmono1).
    destruct (IH _ _ _ Hinv1 Hs) as (Hinv2 & Hds & Hmono2).
    split; [exact Hinv2|]. split; [|auto].
    apply Forall_app. split; [|exact Hds].
    eapply Forall_impl; [exact Hd|]. auto.
Qed.

(** X21 (lines 353-377, [VolumeTranslation._estimate]): what
    [max_displacement] guarantees.  When the base alignment primitive
    answers within the bounds it is given, the displacements of an
    estimate that returns all lie within [max_displacement] of one
    another on every axis, and within [max_displacement] of zero. *)
Theorem volume_displacements_close rl (md : list Z)
    (dataset : list (list (image F))) result :
  (forall r t b d', align_cross_correlation r t (Some b) = Some d' ->
                    within_bounds d' (Some b) = Ok true) ->
  length md = 3 -> Forall (Z.le 0) md ->
  VolumeTranslation_estimate rl (Some md) dataset = Estimated result ->
  forall d d', d ∈ concat result -> d' ∈ concat result ->
    Forall2 (fun x m => (Z.abs x <= m)%Z) (zip_with Z.sub d d') md /\
    Forall2 (fun x m => (Z.abs x <= m)%Z) d md.
Proof.
  intros Hbase Hl Hpos Hrun d d' Hd Hd'.
  unfold VolumeTranslation_estimate in Hrun.
  destruct dataset as [|[|reference rest] sequences]; try discriminate.
  destruct (volume_sequences rl (Some md) (volume_start reference) _)
    as [[dss st']|] eqn:Hs; [|discriminate].
  injection Hrun as <-. cbn [fst] in Hd, Hd'.
  destruct md as [|m0 [|m1 [|m2 [|]]]]; try discriminate.
  apply Forall_cons in Hpos as [P0 Hpos].
  apply Forall_cons in Hpos as [P1 Hpos].
  apply Forall_cons in Hpos as [P2 _].
  assert (Hstart : range_ok [m0; m1; m2] (volume_start reference)).
  { exists 0%Z, 0%Z, 0%Z, 0%Z, 0%Z, 0%Z, m0, m1, m2.
    unfold axis_ok. cbn [volume_start vs_lo vs_hi vs_offset length].
    repeat split; lia. }
  destruct (volume_sequences_range _ _ _ Hbase _ _ _ Hstart Hs)
    as (Hinv & Hall & _).
  rewrite Forall_forall in Hall.
  pose proof (Hall d Hd) as Rd. pose proof (Hall d' Hd') as Rd'.
  destruct Hinv as (l0 & l1 & l2 & h0 & h1 & h2 & n0 & n1 & n2
                    & Elo & Ehi & [= <- <- <-] & _ & A0 & A1 & A2).
  unfold in_range in Rd, Rd'. rewrite Elo, Ehi in Rd, Rd'.
  cbn [zip zip_with] in Rd, Rd'.
  destruct d as [|x0 [|x1 [|x2 [|]]]];
    try (repeat (apply Forall2_cons in Rd as [_ Rd]); inversion Rd; fail);
    try (inversion Rd; fail).
  destruct d' as [|y0 [|y1 [|y2 [|]]]];
    try (repeat (apply Forall2_cons in Rd' as [_ Rd']); inversion Rd'; fail);
    try (inversion Rd'; fail).
  apply Forall2_cons in Rd as [X0 Rd]. apply Forall2_cons in Rd as [X1 Rd].
  apply Forall2_cons in Rd as [X2 _].
  apply Forall2_cons in Rd' as [Y0 Rd']. apply Forall2_cons in Rd' as [Y1 Rd'].
  apply Forall2_cons in Rd' as [Y2 _].
  cbn [fst snd] in *. unfold axis_ok in *.
  split; cbn [zip_with];
    repeat (apply Forall2_cons; split; [lia|]); constructor.
Qed.

Lemma volume_sequence_length rl md (frames : list (image F)) :
  forall (st st' : volume_state F) ds,
  volume_sequence rl md st frames = Ok (ds, st') -> length ds = length frames.
Proof.
  induction frames as [|frame rest IH]; intros st st' ds Hrun.
  - injection Hrun as <- _. reflexivity.
  - cbn [volume_sequence] in Hrun.
    apply bind_Ok in Hrun as ([d st1] & _ & Hrun).
    apply bind_Ok in Hrun as ([ds' st2] & Hs & Hrun).
    injection Hrun as <- _. cbn [fst snd length] in *. f_equal. eauto.
Qed.

(** X22 (lines 352-377, [VolumeTranslation._estimate]): the estimate has
    one array of displacements per sequence and, in it, one displacement
    per frame. *)
Theorem volume_one_per_frame rl md (dataset : list (list (image F))) result :
  VolumeTranslation_estimate rl md dataset = Estimated result ->
  length <$> result = length <$> dataset.
Proof.
  unfold VolumeTranslation_estimate.
  destruct dataset as [|[|reference rest] sequences]; try discriminate.
  generalize ((reference :: rest) :: sequences). intros dataset.
  destruct (volume_sequences rl md (volume_start reference) dataset)
    as [[dss st']|] eqn:Hs; [|discriminate].
  intros [= <-]. cbn [fst]. revert Hs. generalize (volume_start reference).
  revert dss st'. induction dataset as [|sequence rest' IH];
    intros dss st' st Hrun.
  - injection Hrun as <- _. reflexivity.
  - cbn [volume_sequences] in Hrun.
    apply bind_Ok in Hrun as ([ds st1] & Hf & Hrun).
    apply bind_Ok in Hrun as ([dss' st2] & Hs & Hrun).
    injection Hrun as <- _. cbn [fst snd fmap list_fmap] in *.
    f_equal; [eapply volume_sequence_length; eauto|eauto].
Qed.
End Volume.

(** ** The correlation of shifted images *)

Lemma splice_map_lookup {X} (w : nat * nat) (f : X -> X) (l : list X) i :
  w.1 <= w.2 ->
  splice_map w f l !! i =
  if decide (w.1 <= i < w.2) then f <$> l !! i else l !! i.
Proof.
  destruct w as [s e]. cbn [fst snd]. intros Hw. unfold splice_map.
  cbn [fst snd].
  assert (Hl : l = take s l ++ take (e - s) (drop s l) ++ drop e l).
  { rewrite <- (take_drop s l) at 1. f_equal.
    rewrite <- (take_drop (e - s) (drop s l)) at 1. f_equal.
    rewrite drop_drop. f_equal. lia. }
  set (a := take s l) in *. set (b := take (e - s) (drop s l)) in *.
  set (c := drop e l) in *.
  assert (Ha : length a = s `min` length l) by apply length_take.
  assert (Hb : length b = (e - s) `min` (length l - s)).
  { unfold b. rewrite length_take, length_drop. reflexivity. }
  assert (Hc : length c = length l - e) by apply length_drop.
  clearbody a b c. subst l. rewrite !length_app in Ha, Hb, Hc.
  destruct (decide (i < length a)) as [Hi|Hi].
  - rewrite !lookup_app_l by exact Hi.
    destruct (decide (s <= i < e)); [lia|reflexivity].
  - rewrite !(lookup_app_r a) by lia.
    destruct (decide (i - length a < length b)) as [Hj|Hj].
    + rewrite !lookup_app_l by (rewrite ?length_fmap; exact Hj).
      rewrite list_lookup_fmap.
      destruct (decide (s <= i < e)); [reflexivity|lia].
    + rewrite !lookup_app_r by (rewrite ?length_fmap; lia).
      rewrite length_fmap.
      destruct (decide (s <= i < e)); [|reflexivity].
      rewrite (lookup_ge_None_2 c) by lia. reflexivity.
Qed.

Lemma window_lookup {X Y} (f : X -> Y) (w : nat * nat) (l : list X) k :
  (f <$> take (w.2 - w.1) (drop w.1 l)) !! k =
  if decide (k < w.2 - w.1) then f <$> l !! (w.1 + k) else None.
Proof.
  rewrite list_lookup_fmap.
  destruct (decide (k < w.2 - w.1)) as [Hk|Hk].
  - rewrite lookup_take_lt by exact Hk. rewrite lookup_drop. reflexivity.
  - rewrite lookup_take_ge by lia. reflexivity.
Qed.

Lemma on_window_get {A} (w0 w1 w2 : nat * nat) (f : list A -> list A)
    (a : nd A 4) (x0 x1 x2 c : nat) :
  w0.1 <= w0.2 -> w1.1 <= w1.2 -> w2.1 <= w2.2 ->
  nd_get 4 [x0; x1; x2; c] (on_window [w0; w1; w2] f a) =
  if decide (w0.1 <= x0 < w0.2 /\ w1.1 <= x1 < w1.2 /\ w2.1 <= x2 < w2.2)
  then nd_get 3 [x0; x1; x2] (a : nd (list A) 3) ≫= fun px => f px !! c
  else nd_get 4 [x0; x1; x2; c] a.
Proof.
  intros H0 H1 H2. unfold on_window. cbn [nth nd_get]. cbn [nd] in *.
  rewrite splice_map_lookup by exact H0.
  destruct (decide (w0.1 <= x0 < w0.2)) as [I0|I0].
  2: { destruct (decide _) as [[? _]|_]; [lia|reflexivity]. }
  destruct (lookup x0 _) as [p|]; cbn [fmap option_fmap option_map mbind option_bind].
  2: { destruct (decide _); reflexivity. }
  rewrite splice_map_lookup by exact H1.
  destruct (decide (w1.1 <= x1 < w1.2)) as [I1|I1].
  2: { destruct (decide _) as [(_ & ? & _)|_]; [lia|reflexivity]. }
  destruct (lookup x1 p) as [r|]; cbn [fmap option_fmap option_map mbind option_bind].
  2: { destruct (decide _); reflexivity. }
  rewrite splice_map_lookup by exact H2.
  destruct (decide (w2.1 <= x2 < w2.2)) as [I2|I2].
  2: { destruct (decide _) as [(_ & _ & ?)|_]; [lia|reflexivity]. }
  destruct (decide _) as [_|N]; [|exfalso; apply N; auto].
  destruct (lookup x2 r) as [px|]; cbn [fmap option_fmap option_map mbind option_bind];
    [|reflexivity].
  destruct (f px !! c); reflexivity.
Qed.

Lemma nd_window_get {A} (w0 w1 w2 : nat * nat) (a : nd A 4)
    (k0 k1 k2 c : nat) :
  nd_get 4 [k0; k1; k2; c] (nd_window 4 [w0; w1; w2] a) =
  if decide (k0 < w0.2 - w0.1 /\ k1 < w1.2 - w1.1 /\ k2 < w2.2 - w2.1)
  then nd_get 4 [w0.1 + k0; w1.1 + k1; w2.1 + k2; c] a
  else None.
Proof.
  cbn [nd_window nd_get tl]. cbn [nd] in *.
  rewrite window_lookup.
  destruct (decide (k0 < w0.2 - w0.1)) as [I0|I0].
  2: { destruct (decide _) as [[? _]|_]; [lia|reflexivity]. }
  destruct (lookup (w0.1 + k0) _) as [p|]; cbn [fmap option_fmap option_map mbind option_bind].
  2: { destruct (decide _); reflexivity. }
  rewrite window_lookup.
  destruct (decide (k1 < w1.2 - w1.1)) as [I1|I1].
  2: { destruct (decide _) as [(_ & ? & _)|_]; [lia|reflexivity]. }
  destruct (lookup (w1.1 + k1) p) as [r|]; cbn [fmap option_fmap option_map mbind option_bind].
  2: { destruct (decide _); reflexivity. }
  rewrite window_lookup.
  destruct (decide (k2 < w2.2 - w2.1)) as [I2|I2].
  2: { destruct (decide _) as [(_ & _ & ?)|_]; [lia|reflexivity]. }
  destruct (decide _) as [_|N]; [|exfalso; apply N; auto].
  destruct (lookup (w2.1 + k2) r) as [px|]; cbn [fmap option_fmap option_map mbind option_bind];
    [|reflexivity].
  cbn [fst snd]. rewrite Nat.sub_0_r, drop_0, firstn_all.
  rewrite list_lookup_fmap. destruct (px !! c); reflexivity.
Qed.

Lemma axis_overlap (R I : nat) (d : Z) (x : Z) :
  (Z.of_nat (Z.to_nat (Z.max 0 d)) <= x <
   Z.of_nat (Z.to_nat (Z.max 0 d) +
             Nat.min (I - Z.to_nat (Z.max 0 (- d))) (R - Z.to_nat (Z.max 0 d))))%Z
  <-> overlaps R I d x.
Proof. unfold overlaps. lia. Qed.

Lemma axis_partner (R I : nat) (d : Z) (x : Z) :
  overlaps R I d x ->
  Z.to_nat (Z.max 0 (- d)) + (Z.to_nat x - Z.to_nat (Z.max 0 d)) =
  Z.to_nat (x - d) /\
  Z.to_nat (Z.max 0 d) + (Z.to_nat x - Z.to_nat (Z.max 0 d)) = Z.to_nat x /\
  Z.to_nat x - Z.to_nat (Z.max 0 d) <
  Nat.min (I - Z.to_nat (Z.max 0 (- d))) (R - Z.to_nat (Z.max 0 d)).
Proof. unfold overlaps. lia. Qed.

Lemma overlap_windows_axis rshape ishape displacement rw iw k
    (R I : nat) (d : Z) :
  overlap_windows rshape ishape displacement = Some (rw, iw) ->
  k < 3 -> rshape !! k = Some R -> ishape !! k = Some I ->
  displacement !! k = Some d ->
  rw !! k = Some (Z.to_nat (Z.max 0 d),
                  Z.to_nat (Z.max 0 d) +
                  Nat.min (I - Z.to_nat (Z.max 0 (- d)))
                          (R - Z.to_nat (Z.max 0 d))) /\
  iw !! k = Some (Z.to_nat (Z.max 0 (- d)),
                  Z.to_nat (Z.max 0 (- d)) +
                  Nat.min (I - Z.to_nat (Z.max 0 (- d)))
                          (R - Z.to_nat (Z.max 0 d))).
Proof.
  unfold overlap_windows. intros Hw Hk HR HI Hd.
  destruct displacement as [|d0 [|d1 [|d2 rest]]]; try discriminate.
  injection Hw as <- <-.
  destruct k as [|[|[|?]]]; [| | |lia];
    destruct rshape as [|r0 [|r1 [|r2 ?]]]; try discriminate;
    destruct ishape as [|i0 [|i1 [|i2 ?]]]; try discriminate;
    cbn in HR, HI, Hd |- *; simplify_eq; split; reflexivity.
Qed.

(** X23 (lines 380-387, [shifted_corr]): along each of the first three
    axes the slice taken of the reference is exactly the set of indices
    [x] of the reference whose partner [x - d] is an index of the image,
    and the slice taken of the image is the set of those partners. *)
Theorem shifted_corr_windows_are_overlap rshape ishape displacement rw iw k
    (R I : nat) (d : Z) :
  overlap_windows rshape ishape displacement = Some (rw, iw) ->
  k < 3 -> rshape !! k = Some R -> ishape !! k = Some I ->
  displacement !! k = Some d ->
  exists r i : nat * nat,
    rw !! k = Some r /\ iw !! k = Some i /\
    (forall x : Z,
       (Z.of_nat r.1 <= x < Z.of_nat r.2)%Z <-> overlaps R I d x) /\
    (forall x : Z,
       (Z.of_nat r.1 <= x < Z.of_nat r.2)%Z <->
       (Z.of_nat i.1 <= x - d < Z.of_nat i.2)%Z).
Proof.
  intros Hw Hk HR HI Hd.
  destruct (overlap_windows_axis _ _ _ _ _ _ _ _ _ Hw Hk HR HI Hd) as [Hr Hi].
  eexists _, _. split; [exact Hr|]. split; [exact Hi|]. cbn [fst snd].
  split; intros x; [apply axis_overlap|lia].
Qed.

Lemma overlap_windows_3 (R0 R1 R2 C I0 I1 I2 C' : nat) (d0 d1 d2 : Z) rest :
  overlap_windows [R0; R1; R2; C] [I0; I1; I2; C'] (d0 :: d1 :: d2 :: rest) =
  Some ([(axis_cut d0, axis_cut d0 + axis_common R0 I0 d0);
         (axis_cut d1, axis_cut d1 + axis_common R1 I1 d1);
         (axis_cut d2, axis_cut d2 + axis_common R2 I2 d2)],
        [(axis_cut (- d0), axis_cut (- d0) + axis_common R0 I0 d0);
         (axis_cut (- d1), axis_cut (- d1) + axis_common R1 I1 d1);
         (axis_cut (- d2), axis_cut (- d2) + axis_common R2 I2 d2)]).
Proof. reflexivity. Qed.

Lemma axis_in_window (R I : nat) (d : Z) (x : nat) :
  axis_cut d <= x < axis_cut d + axis_common R I d <->
  overlaps R I d (Z.of_nat x).
Proof. unfold axis_common, axis_cut, overlaps. lia. Qed.

Lemma axis_in_window_image (R I : nat) (d : Z) (y : nat) :
  axis_cut (- d) <= y < axis_cut (- d) + axis_common R I d <->
  overlaps R I d (Z.of_nat y + d).
Proof. unfold axis_common, axis_cut, overlaps. lia. Qed.

Lemma axis_view_partner (R I : nat) (d : Z) (x : nat) :
  axis_cut d <= x < axis_cut d + axis_common R I d ->
  x - axis_cut d < axis_cut d + axis_common R I d - axis_cut d /\
  x - axis_cut d < axis_cut (- d) + axis_common R I d - axis_cut (- d) /\
  axis_cut d + (x - axis_cut d) = x /\
  axis_cut (- d) + (x - axis_cut d) = Z.to_nat (Z.of_nat x - d).
Proof. unfold axis_common, axis_cut. lia. Qed.

Lemma axis_view_index (R I : nat) (d : Z) (k : nat) :
  k < axis_common R I d -> overlaps R I d (Z.of_nat k + Z.max 0 d).
Proof. unfold axis_common, axis_cut, overlaps. lia. Qed.

Section Scoring.
Context {F : Type} `{FloatOps F} `{CorrOps F}.

Lemma shifted_corr_inr (reference image reference' image' : ndarray F 4)
    displacement corr :
  Scorer.shifted_corr reference image displacement
  = inr (corr, reference', image') ->
  exists rw iw ref_means im_means,
    overlap_windows (shape reference) (shape image) displacement
    = Some (rw, iw) /\
    reference' =
      NDArray (shape reference)
        (on_window rw (fun px => zip_with f_sub px ref_means)
                   (data reference)) /\
    image' =
      NDArray (shape image)
        (on_window iw (fun px => zip_with f_sub px im_means) (data image)) /\
    corr =
      f_mean
        (zip_with Scorer.channel_corr
           ((fun c =>
               channel c
                 (pixels (nd_map f_nan_to_num 4
                            (nd_window 4 iw (data image')))))
              <$> seq 0 (default 0 (last (shape image))))
           ((fun c =>
               channel c
                 (pixels (nd_map f_nan_to_num 4
                            (nd_window 4 rw (data reference')))))
              <$> seq 0 (default 0 (last (shape reference))))).
Proof.
  unfold Scorer.shifted_corr. intros Hc.
  destruct (overlap_windows _ _ _) as [[rw iw]|]; [|discriminate].
  destruct (default 0 (last (shape reference)) =? 0); [discriminate|].
  destruct (default 0 (last (shape image)) =? 0); [discriminate|].
  destruct (_ || _); [discriminate|].
  destruct (f_isfinite _); [|discriminate].
  injection Hc as <- <- <-. eexists rw, iw, _, _.
  repeat split; reflexivity.
Qed.

Lemma centred_cell (means : list F) (a : nd F 4) (w0 w1 w2 : nat * nat)
    (x0 x1 x2 c : nat) :
  w0.1 <= w0.2 -> w1.1 <= w1.2 -> w2.1 <= w2.2 ->
  nd_get 4 [x0; x1; x2; c]
    (on_window [w0; w1; w2] (fun px => zip_with f_sub px means) a) =
  if decide (w0.1 <= x0 < w0.2 /\ w1.1 <= x1 < w1.2 /\ w2.1 <= x2 < w2.2)
  then v ← nd_get 4 [x0; x1; x2; c] a; m ← means !! c; Some (f_sub v m)
  else nd_get 4 [x0; x1; x2; c] a.
Proof.
  intros H0' H1' H2'. rewrite on_window_get by assumption.
  destruct (decide _); [|reflexivity].
  cbn [nd_get]. cbn [nd] in *.
  destruct (a !! x0) as [p|]; [|reflexivity]. cbn [mbind option_bind].
  destruct (p !! x1) as [r|]; [|reflexivity]. cbn [mbind option_bind].
  destruct (r !! x2) as [px|]; [|reflexivity]. cbn [mbind option_bind].
  rewrite lookup_zip_with. destruct (px !! c); reflexivity.
Qed.

Lemma nd_get_map {A B} (f : A -> B) n : forall idx (a : nd A n),
  nd_get n idx (nd_map f n a) = f <$> nd_get n idx a.
Proof.
  induction n as [|m IH]; intros idx a.
  - destruct idx; reflexivity.
  - cbn [nd_map nd_get]. cbn [nd] in *. destruct idx as [|i idx'];
      [reflexivity|].
    rewrite list_lookup_fmap. destruct (a !! i) as [child|]; [|reflexivity].
    cbn [fmap option_fmap option_map mbind option_bind]. apply IH.
Qed.

Lemma shifted_corr_cells (reference image reference' image' : ndarray F 4)
    (corr : F) (R0 R1 R2 C I0 I1 I2 C' : nat) (d0 d1 d2 : Z) rest :
  shape reference = [R0; R1; R2; C] -> shape image = [I0; I1; I2; C'] ->
  Scorer.shifted_corr reference image (d0 :: d1 :: d2 :: rest)
  = inr (corr, reference', image') ->
  exists ref_means im_means : list F,
    (forall x0 x1 x2 c,
       get reference' [x0; x1; x2; c] =
       if decide (axis_cut d0 <= x0 < axis_cut d0 + axis_common R0 I0 d0 /\
                  axis_cut d1 <= x1 < axis_cut d1 + axis_common R1 I1 d1 /\
                  axis_cut d2 <= x2 < axis_cut d2 + axis_common R2 I2 d2)
       then v ← get reference [x0; x1; x2; c]; m ← ref_means !! c;
            Some (f_sub v m)
       else get reference [x0; x1; x2; c]) /\
    (forall y0 y1 y2 c,
       get image' [y0; y1; y2; c] =
       if decide
            (axis_cut (- d0) <= y0 < axis_cut (- d0) + axis_common R0 I0 d0 /\
             axis_cut (- d1) <= y1 < axis_cut (- d1) + axis_common R1 I1 d1 /\
             axis_cut (- d2) <= y2 < axis_cut (- d2) + axis_common R2 I2 d2)
       then v ← get image [y0; y1; y2; c]; m ← im_means !! c;
            Some (f_sub v m)
       else get image [y0; y1; y2; c]) /\
    length ref_means = C /\ length im_means = C'.
Proof.
  intros Hr Hi Hc. unfold Scorer.shifted_corr in Hc.
  rewrite Hr, Hi, overlap_windows_3 in Hc. cbn [last default] in Hc.
  destruct (_ =? 0); [discriminate|]. destruct (_ =? 0); [discriminate|].
  destruct (_ || _); [discriminate|].
  destruct (f_isfinite _); [|discriminate].
  injection Hc as _ <- <-. eexists _, _. unfold get. cbn [data].
  split; [|split; [|split]].
  - intros x0 x1 x2 c. apply centred_cell; cbn [fst snd]; lia.
  - intros y0 y1 y2 c. apply centred_cell; cbn [fst snd]; lia.
  - unfold Scorer.channel_means. rewrite length_fmap, length_seq. reflexivity.
  - unfold Scorer.channel_means. rewrite length_fmap, length_seq. reflexivity.
Qed.

(** X24 (lines 380-391, [shifted_corr]): a call that returns leaves the
    shapes of both arguments as they were and changes no element of the
    reference outside the overlap and no element of the image whose
    partner lies outside it. *)
Theorem shifted_corr_changes_overlap_only
    (reference image reference' image' : ndarray F 4)
    (corr : F) (R0 R1 R2 C I0 I1 I2 C' : nat) (d0 d1 d2 : Z) rest :
  shape reference = [R0; R1; R2; C] -> shape image = [I0; I1; I2; C'] ->
  Scorer.shifted_corr reference image (d0 :: d1 :: d2 :: rest)
  = inr (corr, reference', image') ->
  shape reference' = shape reference /\ shape image' = shape image /\
  (forall x0 x1 x2 c : nat,
     ~ (overlaps R0 I0 d0 (Z.of_nat x0) /\ overlaps R1 I1 d1 (Z.of_nat x1) /\
        overlaps R2 I2 d2 (Z.of_nat x2)) ->
     get reference' [x0; x1; x2; c] = get reference [x0; x1; x2; c]) /\
  (forall y0 y1 y2 c : nat,
     ~ (overlaps R0 I0 d0 (Z.of_nat y0 + d0) /\
        overlaps R1 I1 d1 (Z.of_nat y1 + d1) /\
        overlaps R2 I2 d2 (Z.of_nat y2 + d2)) ->
     get image' [y0; y1; y2; c] = get image [y0; y1; y2; c]).
Proof.
  intros Hr Hi Hc.
  destruct (shifted_corr_inr _ _ _ _ _ _ Hc) as (rw & iw & rm0 & im0 & _ & -> & -> & _).
  destruct (shifted_corr_cells _ _ _ _ _ _ _ _ _ _ _ _ _ _ _ _ _ Hr Hi Hc)
    as (rm & im & Href & Him & _).
  split; [reflexivity|]. split; [reflexivity|]. split.
  - intros x0 x1 x2 c Hout. rewrite Href.
    destruct (decide _) as [Hin|_]; [|reflexivity].
    rewrite !axis_in_window in Hin. contradiction.
  - intros y0 y1 y2 c Hout. rewrite Him.
    destruct (decide _) as [Hin|_]; [|reflexivity].
    rewrite !axis_in_window_image in Hin. contradiction.
Qed.

(** X25 (lines 388-391, [shifted_corr]): a call that returns has
    subtracted, in place, one value per channel from every element of the
    reference in the overlap, and one value per channel from every element
    of the image whose partner is in the overlap. *)
Theorem shifted_corr_centres_overlap
    (reference image reference' image' : ndarray F 4)
    (corr : F) (R0 R1 R2 C I0 I1 I2 C' : nat) (d0 d1 d2 : Z) rest :
  shape reference = [R0; R1; R2; C] -> shape image = [I0; I1; I2; C'] ->
  Scorer.shifted_corr reference image (d0 :: d1 :: d2 :: rest)
  = inr (corr, reference', image') ->
  exists ref_means im_means : list F,
    length ref_means = C /\ length im_means = C' /\
    (forall x0 x1 x2 c : nat,
       overlaps R0 I0 d0 (Z.of_nat x0) -> overlaps R1 I1 d1 (Z.of_nat x1) ->
       overlaps R2 I2 d2 (Z.of_nat x2) ->
       get reference' [x0; x1; x2; c] =
       (v ← get reference [x0; x1; x2; c]; m ← ref_means !! c;
        Some (f_sub v m))) /\
    (forall y0 y1 y2 c : nat,
       overlaps R0 I0 d0 (Z.of_nat y0 + d0) ->
       overlaps R1 I1 d1 (Z.of_nat y1 + d1) ->
       overlaps R2 I2 d2 (Z.of_nat y2 + d2) ->
       get image' [y0; y1; y2; c] =
       (v ← get image [y0; y1; y2; c]; m ← im_means !! c;
        Some (f_sub v m))).
Proof.
  intros Hr Hi Hc.
  destruct (shifted_corr_cells _ _ _ _ _ _ _ _ _ _ _ _ _ _ _ _ _ Hr Hi Hc)
    as (rm & im & Href & Him & Hlr & Hli).
  exists rm, im. split; [exact Hlr|]. split; [exact Hli|]. split.
  - intros x0 x1 x2 c O0 O1 O2. rewrite Href.
    destruct (decide _) as [_|Hout]; [reflexivity|].
    rewrite !axis_in_window in Hout. tauto.
  - intros y0 y1 y2 c O0 O1 O2. rewrite Him.
    destruct (decide _) as [_|Hout]; [reflexivity|].
    rewrite !axis_in_window_image in Hout. tauto.
Qed.

(** X26 (lines 380-394, [shifted_corr]): the correlation returned is
    computed from two arrays that hold, at equal indices, the element of
    the reference at [x] and the element of the image at
    [x - displacement], each as the call leaves it and passed through
    [nan_to_num], for the [x] in the overlap and for nothing else. *)
Theorem shifted_corr_pairs
    (reference image reference' image' : ndarray F 4)
    (corr : F) (R0 R1 R2 C I0 I1 I2 C' : nat) (d0 d1 d2 : Z) rest :
  shape reference = [R0; R1; R2; C] -> shape image = [I0; I1; I2; C'] ->
  Scorer.shifted_corr reference image (d0 :: d1 :: d2 :: rest)
  = inr (corr, reference', image') ->
  exists ref im : nd F 4,
    corr =
      f_mean (zip_with Scorer.channel_corr
                ((fun c => channel c (pixels im)) <$> seq 0 C')
                ((fun c => channel c (pixels ref)) <$> seq 0 C)) /\
    (forall x0 x1 x2 c : nat,
       overlaps R0 I0 d0 (Z.of_nat x0) -> overlaps R1 I1 d1 (Z.of_nat x1) ->
       overlaps R2 I2 d2 (Z.of_nat x2) ->
       exists k0 k1 k2 : nat,
         nd_get 4 [k0; k1; k2; c] ref =
         f_nan_to_num <$> get reference' [x0; x1; x2; c] /\
         nd_get 4 [k0; k1; k2; c] im =
         f_nan_to_num <$>
           get image' [Z.to_nat (Z.of_nat x0 - d0); Z.to_nat (Z.of_nat x1 - d1);
                       Z.to_nat (Z.of_nat x2 - d2); c]) /\
    (forall k0 k1 k2 c : nat,
       is_Some (nd_get 4 [k0; k1; k2; c] ref) \/
       is_Some (nd_get 4 [k0; k1; k2; c] im) ->
       overlaps R0 I0 d0 (Z.of_nat k0 + Z.max 0 d0) /\
       overlaps R1 I1 d1 (Z.of_nat k1 + Z.max 0 d1) /\
       overlaps R2 I2 d2 (Z.of_nat k2 + Z.max 0 d2)).
Proof.
  intros Hr Hi Hc.
  destruct (shifted_corr_inr _ _ _ _ _ _ Hc) as (rw & iw & rm & im & Hw & Hr' & Hi' & Hcorr).
  rewrite Hr, Hi, overlap_windows_3 in Hw. injection Hw as <- <-.
  rewrite Hr, Hi in Hcorr. cbn [last default] in Hcorr.
  eexists _, _. split; [exact Hcorr|]. unfold get. split.
  - intros x0 x1 x2 c O0 O1 O2.
    apply axis_in_window, axis_view_partner in O0
      as (A0 & B0 & E0 & P0).
    apply axis_in_window, axis_view_partner in O1
      as (A1 & B1 & E1 & P1).
    apply axis_in_window, axis_view_partner in O2
      as (A2 & B2 & E2 & P2).
    exists (x0 - axis_cut d0), (x1 - axis_cut d1), (x2 - axis_cut d2).
    rewrite !nd_get_map, !nd_window_get. cbn [fst snd].
    destruct (decide _) as [_|N]; [|exfalso; apply N; auto].
    destruct (decide _) as [_|N]; [|exfalso; apply N; auto].
    rewrite E0, E1, E2, P0, P1, P2. split; reflexivity.
  - intros k0 k1 k2 c. rewrite !nd_get_map, !nd_window_get. cbn [fst snd].
    intros [Hs|Hs]; destruct (decide _) as [(H0' & H1' & H2')|_];
      try (destruct Hs; discriminate).
    + split; [|split]; apply axis_view_index;
        [clear -H0'|clear -H1'|clear -H2']; lia.
    + split; [|split]; apply axis_view_index;
        [clear -H0'|clear -H1'|clear -H2']; lia.
Qed.
End Scoring.

(** ** The first frame *)

Lemma nd_any_false {A} (truthy : A -> bool) n : forall (a : nd A n),
  (forall idx v, nd_get n idx a = Some v -> truthy v = false) ->
  nd_any truthy n a = false.
Proof.
  induction n as [|m IH]; intros a Hall.
  - apply (Hall [] a). reflexivity.
  - cbn [nd_any]. cbn [nd] in *. apply not_true_is_false. intros Hex.
    apply existsb_exists in Hex as (child & Hin & Hchild).
    apply list_elem_of_In, list_elem_of_lookup in Hin as [i Hi].
    rewrite IH in Hchild; [discriminate|].
    intros idx v Hv. apply (Hall (i :: idx) v). cbn [nd_get].
    rewrite Hi. exact Hv.
Qed.

Section FirstFrame.
Context {F Score : Type} `{FloatOps F} `{PyramidEnv F Score}.

Lemma seed_keeps_other_planes (sums counts : ndarray F 4) (plane : ndarray F 3)
    (P R C ch p : nat) :
  wf_array sums = true -> wf_array counts = true -> wf_array plane = true ->
  shape sums = [P; R; C; ch] -> shape counts = [P; R; C; ch] ->
  shape plane = [R; C; ch] -> p < P ->
  exists sums' counts',
    _update_reference sums counts [0; 0; 0]%Z [Z.of_nat p; 0; 0]%Z
      (expand_dims0 plane) = Ok (sums', counts', [0; 0; 0]%Z) /\
    wf_array sums' = true /\ wf_array counts' = true /\
    shape sums' = [P; R; C; ch] /\ shape counts' = [P; R; C; ch] /\
    forall q i j c, q <> p ->
      get counts' [q; i; j; c] = get counts [q; i; j; c].
Proof.
  intros Hws Hwc Hwp Hs Hc Hp Hlt.
  pose proof (expand_dims0_wf plane Hwp) as Hwi.
  assert (Hi : shape (expand_dims0 plane) = [1; R; C; ch]).
  { unfold expand_dims0. cbn [shape]. rewrite Hp. reflexivity. }
  destruct (update_reference_shape sums counts (expand_dims0 plane)
              0 0 0 (Z.of_nat p) 0 0 P R C 1 R C ch Hws Hwc Hwi Hs Hc Hi)
    as (sums' & counts' & Hrun & Hws' & Hwc' & Hs' & Hc').
  replace (Z.max 0 (- Z.of_nat p)) with 0%Z in Hrun by lia.
  change (Z.max 0 (- 0)) with 0%Z in Hrun.
  assert (Hsh : [grown P 1 (Z.of_nat p + 0); grown R R (0 + 0);
                 grown C C (0 + 0); ch] = [P; R; C; ch]).
  { unfold grown. repeat f_equal; lia. }
  rewrite Hsh in Hs'. rewrite Hs' in Hc'.
  exists sums', counts'. split; [exact Hrun|].
  split; [exact Hws'|]. split; [exact Hwc'|]. split; [exact Hs'|].
  split; [exact Hc'|].
  intros q i j c Hq.
  destruct (update_reference_step sums counts [0; 0; 0]%Z
              [Z.of_nat p; 0; 0]%Z (expand_dims0 plane) Hws Hwc)
    as (s2 & c2 & o2 & Hrun2 & Ho2 & _ & _ & _ & _ & _ & _ & Hcells).
  { rewrite Hs, Hc. reflexivity. }
  { reflexivity. }
  { split; [reflexivity|]. split; [exact Hwi|]. cbn [snd].
    rewrite Hi, Hs. reflexivity. }
  rewrite Hrun in Hrun2. injection Hrun2 as <- <- <-.
  destruct (get counts [q; i; j; c]) as [v|] eqn:Hv.
  - specialize (Hcells [Z.of_nat q; Z.of_nat i; Z.of_nat j]%Z c v eq_refl).
    unfold cell in Hcells. cbn [zip_with forallb fmap list_fmap app] in Hcells.
    rewrite !Z.add_0_r, !Nat2Z.id in Hcells.
    assert (Hb : forall n, (0 <=? Z.of_nat n)%Z = true)
      by (intros n; apply Z.leb_le; lia).
    rewrite !Hb in Hcells.
    cbn [andb] in Hcells. rewrite (Hcells Hv). f_equal.
    unfold counts_deposit, deposit, cell.
    cbn [fst snd zip_with forallb fmap list_fmap app].
    destruct (0 <=? Z.of_nat q + - Z.of_nat p)%Z eqn:Hqp; [|reflexivity].
    cbn [andb].
    destruct ((0 <=? Z.of_nat i + - 0)%Z && ((0 <=? Z.of_nat j + - 0)%Z && true));
      [|reflexivity].
    unfold get, np_map, expand_dims0. cbn [data nd_map nd_get].
    cbn [fmap list_fmap].
    destruct (Z.to_nat (Z.of_nat q + - Z.of_nat p)) as [|k] eqn:Hk; [lia|].
    reflexivity.
  - destruct (get counts' [q; i; j; c]) as [v'|] eqn:Hv'; [|reflexivity].
    exfalso. apply wf_array_iff in Hwc' as [_ Hshaped'].
    apply wf_array_iff in Hwc as [_ Hshaped].
    pose proof (nd_get_range 4 _ _ _ _ Hshaped' Hv') as Hr.
    rewrite Hc', <- Hc in Hr.
    destruct (nd_get_in_range 4 _ _ _ Hshaped Hr) as [v Hsome].
    unfold get in Hv. congruence.
Qed.

Lemma align_plane_seed (search : search_t F) fi ci method md p plane
    (ns : Namespace F) p_counts :
  np_index (ns_pixel_counts ns) p = Ok p_counts ->
  nd_any f_truthy 3 (data p_counts) = false ->
  align_plane search fi ci method md p plane ns = seed_plane fi ci p plane ns.
Proof.
  intros Hidx Hany. unfold align_plane, sh_bind, sh_read, sh_lift.
  rewrite Hidx, Hany. reflexivity.
Qed.

Lemma seed_plane_run fi ci p plane (ns : Namespace F) corrs s r :
  update_at ci (update_at fi (update_at p (fun _ => Ok f_one)))
    (ns_correlations ns) = Ok corrs ->
  update_at ci (update_at fi (update_at p
    (fun row => Ok ((fun _ => 0%Z) <$> row)))) (ns_shifts ns) = Ok s ->
  _update_reference (ns_pixel_sums ns) (ns_pixel_counts ns) (ns_offset ns)
    [Z.of_nat p; 0%Z; 0%Z] (expand_dims0 plane) = Ok r ->
  seed_plane fi ci p plane ns
  = (set_reference r (set_shifts s (set_correlations corrs ns)), Ok tt).
Proof.
  intros Hc Hs Hr. destruct ns as [o pc ps sh co].
  cbn [ns_correlations ns_shifts ns_pixel_sums ns_pixel_counts ns_offset] in *.
  unfold seed_plane, sh_bind, sh_read, sh_lift, sh_write, set_correlations,
    set_shifts, id.
  cbn [ns_correlations ns_shifts ns_pixel_sums ns_pixel_counts ns_offset].
  rewrite Hc.
  cbn [ns_correlations ns_shifts ns_pixel_sums ns_pixel_counts ns_offset].
  rewrite Hs.
  cbn [ns_correlations ns_shifts ns_pixel_sums ns_pixel_counts ns_offset].
  rewrite Hr. reflexivity.
Qed.

Lemma update_first_slot {X} (g : X -> result X) p (x x' : X)
    (f : list X) (frames : list (list X)) (others : list (list (list X))) :
  f !! p = Some x -> g x = Ok x' ->
  update_at 0 (update_at 0 (update_at p g)) ((f :: frames) :: others)
  = Ok ((<[p := x']> f :: frames) :: others).
Proof.
  intros Hf Hg. unfold update_at. cbn [lookup list_lookup].
  rewrite Hf, Hg. reflexivity.
Qed.

Lemma first_frame_planes (search : search_t F) method md (uninit : F)
    (P R C ch : nat) (frames_c : list (list F)) (others_c : list (list (list F)))
    (frames_s : list (list (list Z))) (others_s : list (list (list (list Z)))) :
  f_truthy f_zero = false ->
  forall (pl : list (ndarray F 3)) (p : nat) (ns : Namespace F),
    p + length pl = P ->
    Forall (fun plane : ndarray F 3 =>
              wf_array plane = true /\ shape plane = [R; C; ch]) pl ->
    ns_offset ns = [0; 0; 0]%Z ->
    wf_array (ns_pixel_sums ns) = true ->
    wf_array (ns_pixel_counts ns) = true ->
    shape (ns_pixel_sums ns) = [P; R; C; ch] ->
    shape (ns_pixel_counts ns) = [P; R; C; ch] ->
    (forall q i j c v, p <= q ->
       get (ns_pixel_counts ns) [q; i; j; c] = Some v -> v = f_zero) ->
    ns_correlations ns
    = ((replicate p f_one ++ replicate (length pl) uninit) :: frames_c)
        :: others_c ->
    ns_shifts ns = (replicate P [0; 0; 0]%Z :: frames_s) :: others_s ->
    exists ns',
      align_planes_from search 0 0 method md p pl ns = (ns', Ok tt) /\
      ns_correlations ns' = (replicate P f_one :: frames_c) :: others_c /\
      ns_shifts ns' = ns_shifts ns.
Proof.
  intros Hz pl. induction pl as [|plane rest IH];
    intros p ns Hlen Hpl Hoff Hws Hwc Hs Hc Hzero Hcorr Hshift.
  - cbn [length] in Hlen. exists ns. split; [reflexivity|].
    split; [|reflexivity]. rewrite Hcorr. cbn [length replicate].
    rewrite app_nil_r. replace p with P by lia. reflexivity.
  - cbn [length] in Hlen. apply Forall_cons in Hpl as [[Hwp Hp] Hpl].
    assert (Hlt : p < P) by lia.
    (* the plane has no data yet *)
    pose proof Hwc as Hwc0. apply wf_array_iff in Hwc0 as [_ Hshaped].
    rewrite Hc in Hshaped. pose proof Hshaped as Hshaped0.
    apply nd_shaped_cons in Hshaped0 as [Hdl Hchildren].
    destruct (lookup_lt_is_Some_2 (data (ns_pixel_counts ns) : list (nd F 3)) p)
      as [child Hchild]; [lia|].
    assert (Hidx : np_index (ns_pixel_counts ns) p
                   = Ok (NDArray (tl (shape (ns_pixel_counts ns))) child)).
    { unfold np_index. rewrite Hchild. reflexivity. }
    assert (Hany : nd_any f_truthy 3 child = false).
    { apply nd_any_false. intros idx v Hv.
      pose proof (nd_get_length 3 idx child v Hv) as Hl.
      destruct idx as [|i [|j [|c [|]]]]; try discriminate.
      rewrite (Hzero p i j c v); [exact Hz|lia|].
      unfold get. cbn [nd_get]. cbn [nd] in *. rewrite Hchild. exact Hv. }
    cbn [align_planes_from]. unfold sh_bind at 1.
    rewrite (align_plane_seed search 0 0 method md p plane ns _ Hidx Hany).
    (* the seed *)
    destruct (seed_keeps_other_planes (ns_pixel_sums ns) (ns_pixel_counts ns)
                plane P R C ch p Hws Hwc Hwp Hs Hc Hp Hlt)
      as (sums' & counts' & Hrun & Hws' & Hwc' & Hs' & Hc' & Hkeep).
    rewrite <- Hoff in Hrun at 1.
    assert (Hcf : (replicate p f_one ++ replicate (length (plane :: rest)) uninit)
                    !! p = Some uninit).
    { rewrite lookup_app_r by (rewrite length_replicate; lia).
      rewrite length_replicate, Nat.sub_diag. reflexivity. }
    assert (Hsf : replicate P [0; 0; 0]%Z !! p = Some [0; 0; 0]%Z)
      by (apply lookup_replicate_2; exact Hlt).
    erewrite seed_plane_run; cycle 1.
    { rewrite Hcorr. apply (update_first_slot _ p uninit f_one); [exact Hcf|reflexivity]. }
    { rewrite Hshift. apply (update_first_slot _ p [0; 0; 0]%Z); [exact Hsf|reflexivity]. }
    { exact Hrun. }
    cbn [fmap list_fmap]. rewrite (list_insert_id _ _ _ Hsf).
    match goal with |- context [align_planes_from _ _ _ _ _ _ _ ?n] =>
      destruct (IH (S p) n) as (ns' & Hrest & Hcorr' & Hshift') end.
    + lia.
    + exact Hpl.
    + reflexivity.
    + exact Hws'.
    + exact Hwc'.
    + exact Hs'.
    + exact Hc'.
    + cbn [set_reference ns_pixel_counts snd fst]. intros q i j c v Hq Hv.
      rewrite Hkeep in Hv by lia. apply (Hzero q i j c v); [lia|exact Hv].
    + cbn [set_reference set_shifts set_correlations ns_correlations].
      f_equal. f_equal. rewrite (replicate_S_end p), <- app_assoc.
      cbn [length replicate app].
      rewrite insert_app_r_alt by (rewrite length_replicate; lia).
      rewrite length_replicate, Nat.sub_diag. reflexivity.
    + reflexivity.
    + exists ns'. split; [exact Hrest|]. split; [exact Hcorr'|].
      rewrite Hshift'. cbn [set_reference set_shifts ns_shifts].
      symmetry. exact Hshift.
Qed.

Lemma update_slot_const {X} (v : X) ci fi q (g : X -> result X)
    (l l' : list (list (list X))) a b c :
  (forall x x', g x = Ok x' -> x' = v) ->
  update_at ci (update_at fi (update_at q g)) l = Ok l' ->
  slot a b c l = Some v -> slot a b c l' = Some v.
Proof.
  intros Hg Hup Hs.
  apply update_at_Ok in Hup as (c0 & c' & Hc0 & Hup & ->).
  apply update_at_Ok in Hup as (f0 & f' & Hf0 & Hup & ->).
  apply update_at_Ok in Hup as (x0 & x' & Hx0 & Hx & ->).
  apply Hg in Hx as ->. unfold slot in *.
  rewrite list_lookup_insert.
  destruct (decide (ci = a /\ ci < length l)) as [[-> _]|_]; [|exact Hs].
  rewrite Hc0 in Hs. cbn [mbind option_bind] in *.
  rewrite list_lookup_insert.
  destruct (decide (fi = b /\ fi < length c0)) as [[-> _]|_]; [|exact Hs].
  rewrite Hf0 in Hs. cbn [mbind option_bind] in *.
  rewrite list_lookup_insert.
  destruct (decide (q = c /\ q < length f0)) as [_|_]; [reflexivity|exact Hs].
Qed.

Lemma planes_of_wf (frame : ndarray F 4) (P R C ch : nat) :
  wf_array frame = true -> shape frame = [P; R; C; ch] ->
  length (planes_of frame) = P /\
  Forall (fun plane : ndarray F 3 =>
            wf_array plane = true /\ shape plane = [R; C; ch])
         (planes_of frame).
Proof.
  intros Hw Hs. apply wf_array_iff in Hw as [_ Hshaped]. rewrite Hs in Hshaped.
  apply nd_shaped_cons in Hshaped as [Hl Hall]. unfold planes_of.
  rewrite Hs. cbn [tl]. split; [rewrite length_fmap; exact Hl|].
  apply Forall_fmap. eapply Forall_impl; [exact Hall|].
  intros child Hchild. cbn [compose]. split; [|reflexivity].
  apply wf_array_iff. cbn [shape data]. split; [reflexivity|exact Hchild].
Qed.

Lemma zeros_wf (sh : list nat) :
  length sh = 4 ->
  wf_array (NDArray (n:=4) sh (nd_full 4 sh (f_zero : F))) = true /\
  forall idx v,
    get (NDArray (n:=4) sh (nd_full 4 sh (f_zero : F))) idx = Some v ->
    v = f_zero.
Proof.
  intros Hl. split.
  - apply wf_array_iff. cbn [shape data]. split; [exact Hl|].
    apply nd_full_shaped. exact Hl.
  - intros idx v Hv. unfold get in Hv. cbn [data] in Hv.
    pose proof (nd_get_range 4 sh idx _ v (nd_full_shaped 4 sh f_zero Hl) Hv)
      as Hr.
    rewrite (nd_get_full 4 sh idx f_zero Hl Hr) in Hv. congruence.
Qed.

Lemma first_frame_run rl method md (uninit : F) (dataset : Dataset F)
    (frame : ndarray F 4) frames others (P R C ch : nat) :
  f_truthy f_zero = false ->
  frame_shape dataset = [P; R; C; ch] ->
  cycles dataset = (frame :: frames) :: others ->
  wf_array frame = true -> shape frame = [P; R; C; ch] ->
  exists ns1,
    _align_frame rl 0 frame 0 method md (initial_namespace uninit dataset)
    = (ns1, Ok tt) /\
    ns_correlations ns1
    = (replicate P f_one :: replicate (length frames) (replicate P uninit))
        :: ((fun seq : list (ndarray F 4) =>
               replicate (length seq) (replicate P uninit)) <$> others) /\
    ns_shifts ns1 = ns_shifts (initial_namespace uninit dataset).
Proof.
  intros Hz Hfs Hcy Hw Hs.
  destruct (planes_of_wf frame P R C ch Hw Hs) as [Hlen Hpl].
  destruct (zeros_wf [P; R; C; ch] eq_refl) as [Hwz Hzero].
  unfold _align_frame, align_frame_with.
  apply (first_frame_planes _ method _ uninit P R C ch
           (replicate (length frames) (replicate P uninit))
           ((fun seq : list (ndarray F 4) =>
               replicate (length seq) (replicate P uninit)) <$> others)
           (replicate (length frames) (replicate P [0; 0; 0]%Z))
           ((fun seq : list (ndarray F 4) =>
               replicate (length seq) (replicate P [0; 0; 0]%Z)) <$> others)
           Hz (planes_of frame) 0).
  - rewrite Hlen. reflexivity.
  - exact Hpl.
  - reflexivity.
  - unfold initial_namespace. cbn [ns_pixel_sums]. rewrite Hfs. exact Hwz.
  - unfold initial_namespace. cbn [ns_pixel_counts]. rewrite Hfs. exact Hwz.
  - unfold initial_namespace. cbn [ns_pixel_sums shape]. exact Hfs.
  - unfold initial_namespace. cbn [ns_pixel_counts shape]. exact Hfs.
  - unfold initial_namespace. cbn [ns_pixel_counts]. rewrite Hfs.
    intros q i j c v _ Hv. exact (Hzero _ _ Hv).
  - unfold initial_namespace. cbn [ns_correlations]. rewrite Hfs, Hcy, Hlen.
    reflexivity.
  - unfold initial_namespace. cbn [ns_shifts]. rewrite Hfs, Hcy. reflexivity.
Qed.

Lemma first_frame_kept rl method md (P : nat) :
  forall fi ci p plane (ns ns' : Namespace F),
    (forall q, q < P -> slot 0 0 q (ns_correlations ns) = Some f_one) ->
    align_plane (default_search rl) fi ci method
      ((fun m => 0%Z :: m) <$> md) p plane ns = (ns', Ok tt) ->
    forall q, q < P -> slot 0 0 q (ns_correlations ns') = Some f_one.
Proof.
  intros fi ci p plane ns ns' Hinv Hstep q Hq.
  apply align_plane_cases in Hstep as [Hseed|Hsearch].
  - apply seed_plane_Ok in Hseed as (corrs & s & r & Hc & _ & _ & ->).
    cbn [set_reference set_shifts set_correlations ns_correlations].
    eapply update_slot_const; [|exact Hc|exact (Hinv q Hq)].
    intros x x' Hx. congruence.
  - rewrite (search_plane_correlations _ _ _ _ _ _ _ _ _ _ Hsearch).
    exact (Hinv q Hq).
Qed.

(** X27 (lines 104-111 and 137-158, [_frame_alignment_base]; lines
    191-207, [_align_frame]): in a run that returns, every plane of the
    first frame of the first cycle was taken as a seed: the correlations
    returned for that frame are all 1. *)
Theorem first_frame_is_reference rl cpu (uninit : F) (dataset : Dataset F)
    md method n_processes shifts corrs
    (frame : ndarray F 4) frames others (P R C ch : nat) :
  f_truthy f_zero = false ->
  frame_shape dataset = [P; R; C; ch] ->
  cycles dataset = (frame :: frames) :: others ->
  wf_array frame = true -> shape frame = [P; R; C; ch] ->
  _frame_alignment_base rl cpu uninit dataset md method n_processes
    = Ok (shifts, corrs) ->
  forall p, p < P -> slot 0 0 p corrs = Some f_one.
Proof.
  intros Hz Hfs Hcy Hw Hs Hrun.
  apply frame_alignment_base_Ok in Hrun as (ns & Hrun & _ & ->).
  destruct (first_frame_run rl method md uninit dataset frame frames others
              P R C ch Hz Hfs Hcy Hw Hs) as (ns1 & Hfirst & Hcorr & _).
  rewrite Hcy in Hrun. cbn [align_cycles align_cycle] in Hrun.
  unfold sh_bind at 1 2 in Hrun. rewrite Hfirst in Hrun.
  destruct (align_cycle rl method md 0 1 frames ns1) as [ns2 [[]|e]] eqn:Hrest;
    [|discriminate].
  assert (H1 : forall q, q < P -> slot 0 0 q (ns_correlations ns1) = Some f_one).
  { intros q Hq. rewrite Hcorr. unfold slot. cbn [lookup list_lookup mbind option_bind].
    apply lookup_replicate_2. exact Hq. }
  assert (H2 : forall q, q < P -> slot 0 0 q (ns_correlations ns2) = Some f_one).
  { eapply (align_cycle_keeps
              (fun ns => forall q, q < P ->
                 slot 0 0 q (ns_correlations ns) = Some f_one));
      [|exact H1|exact Hrest].
    intros fi p plane n n'. apply first_frame_kept. }
  eapply (align_cycles_keeps
            (fun ns => forall q, q < P ->
               slot 0 0 q (ns_correlations ns) = Some f_one));
    [|exact H2|exact Hrun].
  intros fi ci p plane n n'. apply first_frame_kept.
Qed.

Lemma mapM_replicate {A B} (f : A -> result B) (x : A) (y : B) n :
  f x = Ok y -> mapM f (replicate n x) = Ok (replicate n y).
Proof.
  intros Hf. rewrite (mapM_Ok f (fun _ => y)).
  - rewrite fmap_replicate. reflexivity.
  - apply Forall_replicate. exact Hf.
Qed.

Lemma zero_rows_sum k :
  foldl (zip_with Z.add) [0; 0]%Z (replicate k [0; 0]%Z) = [0; 0]%Z.
Proof. induction k as [|k IH]; [reflexivity|exact IH]. Qed.

Lemma align_planes_zero (P : nat) :
  0 < P ->
  _align_planes [[replicate P [0; 0]%Z]] = Ok [[replicate P [0; 0]%Z]].
Proof.
  intros HP. destruct P as [|k]; [lia|].
  rewrite align_planes_unfold. cbn [concat replicate app].
  rewrite app_nil_r, zero_rows_sum. cbv zeta.
  assert (Ha : forall n, alteration_of [0; 0]%Z n = [0; 0]%Z).
  { intros n. unfold alteration_of. cbn [fmap list_fmap hd].
    rewrite Z.quot_0_l by lia. reflexivity. }
  rewrite Ha. change ([0; 0]%Z :: replicate k [0; 0]%Z)
    with (replicate (S k) [0; 0]%Z).
  cbn [mapM]. rewrite (mapM_replicate _ [0; 0]%Z [0; 0]%Z) by reflexivity.
  reflexivity.
Qed.

(** X28 (lines 74-158, [_frame_alignment_base]; lines 191-207,
    [_align_frame]): on a dataset of a single frame the engine returns,
    whatever the method and the maximal displacement, for no search is
    run: every plane gets the zero shift and the correlation 1. *)
Theorem single_frame_dataset rl cpu (uninit : F) (dataset : Dataset F)
    md method n_processes (frame : ndarray F 4) (P R C ch : nat) :
  f_truthy f_zero = false ->
  (1 <= n_pools n_processes cpu)%Z ->
  0 < P ->
  frame_shape dataset = [P; R; C; ch] ->
  cycles dataset = [[frame]] ->
  wf_array frame = true -> shape frame = [P; R; C; ch] ->
  _frame_alignment_base rl cpu uninit dataset md method n_processes
  = Ok ([[replicate P [0; 0]%Z]], [[replicate P f_one]]).
Proof.
  intros Hz Hn HP Hfs Hcy Hw Hs.
  destruct (first_frame_run rl method md uninit dataset frame [] []
              P R C ch Hz Hfs Hcy Hw Hs) as (ns1 & Hfirst & Hcorr & Hshift).
  unfold _frame_alignment_base.
  replace (n_pools n_processes cpu <? 1)%Z with false
    by (symmetry; apply Z.ltb_ge; exact Hn).
  rewrite Hcy. cbn [align_cycles align_cycle]. unfold sh_bind at 1 2.
  rewrite Hfirst. unfold sh_bind, sh_ret. cbn [mbind result_bind].
  rewrite Hshift, Hcorr. unfold initial_namespace. cbn [ns_shifts].
  rewrite Hfs, Hcy. cbn [fmap list_fmap length replicate hd].
  rewrite fmap_replicate. cbn [tl].
  rewrite (align_planes_zero P HP). reflexivity.
Qed.
End FirstFrame.

(** ** Exchanging the two images *)

Lemma axis_common_swap (R I : nat) (d : Z) :
  axis_common I R (- d) = axis_common R I d.
Proof. unfold axis_common. rewrite Z.opp_involutive. apply Nat.min_comm. Qed.

Lemma zip_with_swap {X Y} (f : X -> X -> Y) (l k : list X) :
  (forall a b, f a b = f b a) -> zip_with f l k = zip_with f k l.
Proof.
  intros Hf. revert k. induction l as [|x l IH]; intros [|y k]; cbn;
    try reflexivity.
  rewrite Hf, IH. reflexivity.
Qed.

Section Exchange.
Context {F : Type} `{FloatOps F} `{CorrOps F}.

Lemma channel_corr_swap (i r : list F) :
  (forall a b : F, f_mul a b = f_mul b a) ->
  Scorer.channel_corr i r = Scorer.channel_corr r i.
Proof.
  intros Hm. unfold Scorer.channel_corr.
  rewrite (zip_with_swap f_mul i r Hm), (Hm (f_sum (zip_with f_mul i i))).
  reflexivity.
Qed.

(** X29 (lines 380-396, [shifted_corr]): the two images play the same
    part.  With a commutative multiplication, correlating the image
    against the reference at the negated displacement gives what
    correlating the reference against the image at the displacement
    gives: the same correlation and the same change of each array, or the
    same error. *)
Theorem shifted_corr_symmetric (reference image : ndarray F 4)
    (R0 R1 R2 C I0 I1 I2 C' : nat) (d0 d1 d2 : Z) rest :
  (forall a b : F, f_mul a b = f_mul b a) ->
  shape reference = [R0; R1; R2; C] -> shape image = [I0; I1; I2; C'] ->
  Scorer.shifted_corr image reference (Z.opp <$> d0 :: d1 :: d2 :: rest) =
  match Scorer.shifted_corr reference image (d0 :: d1 :: d2 :: rest) with
  | inl e => inl e
  | inr (corr, reference', image') => inr (corr, image', reference')
  end.
Proof.
  intros Hm Hr Hi. unfold Scorer.shifted_corr.
  cbn [fmap list_fmap]. rewrite Hr, Hi, !overlap_windows_3.
  rewrite !axis_common_swap, !Z.opp_involutive.
  cbn [last default from_option id].
  destruct (C =? 0) eqn:HC; destruct (C' =? 0) eqn:HC'; try reflexivity.
  rewrite orb_comm.
  destruct (_ || _); [reflexivity|].
  rewrite (zip_with_swap Scorer.channel_corr _ _
             (fun i r => channel_corr_swap i r Hm)).
  destruct (f_isfinite _); reflexivity.
Qed.
End Exchange.

(** ** The further properties on the examples *)

Lemma resize_array_only_when_needed_witness :
  exists r, _resize_array demo_zeros [0; -1; 2]%Z [1; 2; 2; 1] = Ok r /\
            shape r = [1; 3; 4; 1].
Proof.
  destruct (resize_array_only_when_needed demo_zeros 0 (-1) 2 1 2 2 1 1 2 2 1
              eq_refl) as (r & Hr & Hs & _).
  exists r. split; [exact Hr|exact Hs].
Defined.

Lemma resize_array_contents_witness :
  exists r, _resize_array demo_image [0; -1; 2]%Z [1; 2; 2; 1] = Ok r /\
            get r [0; 0; 1; 0] = Some 0%Z /\ get r [0; 1; 1; 0] = Some 7%Z.
Proof.
  destruct (resize_array_contents demo_image 0 (-1) 2 1 2 2 1 1 2 2 1
              eq_refl eq_refl) as (r & Hr & Hget).
  exists r. split; [exact Hr|]. split.
  - apply (Hget 0 0 1 0); unfold grown; cbn; lia.
  - apply (Hget 0 1 1 0); unfold grown; cbn; lia.
Defined.

Lemma add_with_offset_window_witness :
  exists r, _add_with_offset Z.add demo_frame demo_image [0; 1; 2]%Z = Ok r /\
            get r [0; 1; 2; 0] = Some 10%Z /\ get r [0; 0; 0; 0] = Some 3%Z.
Proof.
  destruct (add_with_offset_window Z.add demo_frame demo_image 0 1 2
              1 4 4 1 2 2 1 eq_refl eq_refl eq_refl eq_refl
              ltac:(lia) ltac:(lia) ltac:(lia))
    as (r & Hr & _ & Hin & Hout).
  exists r. split; [exact Hr|]. split.
  - destruct (Hin 0 0 0 0 7%Z eq_refl) as (v & Hv & Hrv).
    injection Hv as <-. exact Hrv.
  - rewrite (Hout 0 0 0 0) by lia. reflexivity.
Defined.

Lemma add_with_offset_no_truncation_witness :
  _add_with_offset Z.add demo_zeros demo_image [0; 1; 0]%Z
  = Raise (ValueError Broadcast).
Proof.
  apply (add_with_offset_no_truncation Z.add demo_zeros demo_image 0 1 0
           1 2 2 1 1 2 2 1 eq_refl eq_refl).
  right. left. unfold sticks_out. lia.
Defined.

Lemma add_with_offset_wraps_witness :
  exists r, _add_with_offset Z.add demo_frame demo_image [0; -3; 0]%Z = Ok r /\
            get r [0; 1; 0; 0] = Some 10%Z /\ get r [0; 0; 0; 0] = Some 3%Z.
Proof.
  destruct (add_with_offset_wraps Z.add demo_frame demo_image 0 (-3) 0 0 1 0
              1 4 4 1 2 2 1 eq_refl eq_refl eq_refl eq_refl
              eq_refl eq_refl eq_refl ltac:(lia) ltac:(lia) ltac:(lia))
    as (r & Hr & Hin & Hout).
  exists r. split; [exact Hr|]. split.
  - destruct (Hin 0 0 0 0 7%Z eq_refl) as (v & Hv & Hrv).
    injection Hv as <-. exact Hrv.
  - rewrite (Hout 0 0 0 0) by lia. reflexivity.
Defined.

Lemma update_reference_extent_witness :
  exists sums' counts' offset',
    _update_reference demo_zeros demo_zeros [0; 0; 0]%Z [0; -1; 1]%Z demo_image
      = Ok (sums', counts', offset') /\
    extent offset' (shape sums') = [(0, 1); (-1, 2); (0, 3)]%Z.
Proof.
  destruct (update_reference_extent demo_zeros demo_zeros [0; 0; 0]%Z
              [0; -1; 1]%Z demo_image eq_refl eq_refl eq_refl eq_refl
              ltac:(repeat split; reflexivity))
    as (s & c & o & Hrun & Hs & _).
  exists s, c, o. split; [exact Hrun|exact Hs].
Defined.

Lemma update_all_any_order_witness :
  exists s1 c1 s2 c2 offset',
    update_all demo_zeros demo_zeros [0; 0; 0]%Z demo_updates
      = Ok (s1, c1, offset') /\
    update_all demo_zeros demo_zeros [0; 0; 0]%Z (reverse demo_updates)
      = Ok (s2, c2, offset') /\
    shape s1 = shape s2 /\ shape c1 = shape c2.
Proof.
  apply (update_all_any_order demo_updates (reverse demo_updates) demo_zeros
           demo_zeros [0; 0; 0]%Z eq_refl eq_refl eq_refl eq_refl
           demo_compatible).
  apply perm_swap.
Defined.

Lemma max_levels_limits_depth_witness :
  pyramid_align 2 demo_frame demo_frame [2%Z] (Some 1%Z) None
  <> Raise RecursionError.
Proof.
  apply (max_levels_limits_depth 2 1%Z demo_frame demo_frame [2%Z] None).
  cbn. lia.
Defined.

Lemma narrow_bounds_rejected_witness :
  pyramid_align 2 demo_frame demo_frame [2%Z] None
    (Some [(0, 1); (0, 1); (0, 5)]%Z)
  = Raise (AssertionError AssertBoundsOrdered).
Proof.
  apply (narrow_bounds_rejected 0 demo_frame demo_frame [2%Z] None
           [(0, 1); (0, 1); (0, 5)]%Z [false; true; true] 1 0%Z 1%Z);
    reflexivity.
Defined.

Lemma halved_bounds_cover_witness :
  exists coarse adj,
    in_bounds (Some [(0, 1); (-2, 1); (0, 2)]%Z) coarse = true /\
    adj ∈ adjustments demo_axes /\
    [1; -3; 5]%Z = zip_with Z.add (upscaled demo_axes coarse) adj.
Proof.
  apply (halved_bounds_cover demo_bounds [(0, 1); (-2, 1); (0, 2)]%Z
           demo_axes [1; -3; 5]%Z); reflexivity.
Defined.

Lemma bounded_search_keeps_candidate_witness :
  pyramid_align 6 demo_frame demo_frame [2%Z] None (Some demo_bounds)
  <> Raise (AssertionError AssertNoCandidate).
Proof.
  apply (bounded_search_keeps_candidate 6 demo_frame demo_frame [2%Z] None
           (Some demo_bounds)).
  - intros i s. reflexivity.
  - exact demo_base_in_bounds.
  - reflexivity.
  - reflexivity.
Defined.

Lemma Z_gtb_negtrans a b c :
  Z.gtb a b = true -> Z.gtb a c = true \/ Z.gtb c b = true.
Proof.
  rewrite !Z.gtb_ltb, !Z.ltb_lt. lia.
Qed.

Lemma refine_loop_first_best_witness :
  exists i d s r' t',
    refine_loop demo_axes [0; 0; 1]%Z (Some demo_bounds)
      (adjustments demo_axes) (None, demo_frame, demo_frame)
      = Ok (Some (s, d), r', t') /\
    List.filter (in_bounds (Some demo_bounds))
      (candidates demo_axes [0; 0; 1]%Z (adjustments demo_axes)) !! i
      = Some d.
Proof.
  edestruct (refine_loop_first_best demo_axes [0; 0; 1]%Z (Some demo_bounds)
               demo_frame demo_frame) as (i & d & s & Hrun & Hk & _).
  - exact Z_gtb_irrefl.
  - exact Z_gtb_trans.
  - exact Z_gtb_negtrans.
  - reflexivity.
  - reflexivity.
  - vm_compute. reflexivity.
  - vm_compute. discriminate.
  - eexists i, d, s, _, _. split; [exact Hrun|exact Hk].
Defined.

Lemma correlations_never_computed_witness :
  Forall (Forall (Forall (fun c => c = 5%Z \/ c = 1%Z))) [[[1%Z]; [5%Z]]].
Proof.
  refine (correlations_never_computed (F:=Z) 10 4 5%Z demo_dataset2 None
            "correlation" (Some 1%Z) [[[[0; 0]]; [[0; 0]]]]%Z
            [[[1%Z]; [5%Z]]] _).
  vm_compute. reflexivity.
Defined.


Lemma bounded_plane_search_fails_witness :
  align_plane (default_search 3) 1 0 "correlation" (Some [0; 1; 1]%Z) 0
              demo_plane demo_seeded
  = (demo_seeded, Raise (AssertionError AssertBoundsOrdered)).
Proof.
  apply (bounded_plane_search_fails 2 1 0 0 demo_plane [1; 1]%Z demo_seeded
           (NDArray [4; 4; 1] (nd_full 3 [4; 4; 1] 1%Z)) 0%Z).
  - vm_compute. reflexivity.
  - vm_compute. reflexivity.
  - vm_compute. reflexivity.
  - vm_compute. reflexivity.
  - vm_compute. reflexivity.
  - vm_compute. discriminate.
  - vm_compute. repeat constructor.
  - reflexivity.
  - reflexivity.
  - repeat constructor; lia.
Defined.

Lemma bounded_run_reports_no_shift_witness :
  Forall (Forall (Forall (fun row => row = [0; 0]%Z))) [[[[0; 0]]]]%Z.
Proof.
  apply (bounded_run_reports_no_shift 10 4 0%Z demo_dataset [1; 1]%Z
           "correlation" (Some 1%Z) [[[[0; 0]]]]%Z [[[1%Z]]]).
  - repeat constructor; lia.
  - vm_compute. reflexivity.
Defined.

Lemma negative_max_displacement_is_none_witness :
  _frame_alignment_base 10 4 0%Z demo_dataset2 (Some [-1; 1]%Z) "correlation"
                        (Some 1%Z)
  = _frame_alignment_base 10 4 0%Z demo_dataset2 None "correlation" (Some 1%Z).
Proof.
  apply (negative_max_displacement_is_none 10 4 0%Z demo_dataset2 [-1; 1]%Z).
  apply Exists_cons_hd. lia.
Defined.

Lemma result_shape_witness :
  fmap (M:=list) (fmap (M:=list) (fmap (M:=list) length))
    [[[[0; 0]]; [[0; 0]]]]%Z = [[[2]; [2]]] /\
  fmap (M:=list) (fmap (M:=list) length) [[[1%Z]; [5%Z]]] = [[1; 1]].
Proof.
  apply (result_shape 10 4 5%Z demo_dataset2 None "correlation" (Some 1%Z)
           [[[[0; 0]]; [[0; 0]]]]%Z [[[1%Z]; [5%Z]]]).
  vm_compute. reflexivity.
Defined.

Lemma volume_pinned_axis_fails_witness :
  VolumeTranslation_estimate 3 (Some [0; 1; 1]%Z) [[demo_frame]]
  = Failed (AssertionError AssertBoundsOrdered).
Proof.
  apply (volume_pinned_axis_fails 2 [0; 1; 1]%Z demo_frame [] []).
  - reflexivity.
  - apply Exists_cons_hd. lia.
Defined.

Lemma volume_displacements_close_witness :
  Forall2 (fun x m => (Z.abs x <= m)%Z)
    (zip_with Z.sub [-2; -3; -1]%Z [-2; -3; -1]%Z) [2; 3; 1]%Z /\
  Forall2 (fun x m => (Z.abs x <= m)%Z) [-2; -3; -1]%Z [2; 3; 1]%Z.
Proof.
  apply (volume_displacements_close 5 [2; 3; 1]%Z
           [[demo_frame; demo_frame]; [demo_frame]]
           [[[-2; -3; -1]; [-2; -3; -1]]; [[-2; -3; -1]]]%Z).
  - exact demo_base_in_bounds.
  - reflexivity.
  - repeat constructor; lia.
  - vm_compute. reflexivity.
  - apply list_elem_of_here.
  - apply list_elem_of_here.
Defined.

Lemma volume_one_per_frame_witness :
  length <$> [[[0; 0; 0]; [0; 0; 0]]; [[0; 0; 0]]]%Z
  = length <$> [[demo_frame; demo_frame]; [demo_frame]].
Proof.
  apply (volume_one_per_frame 5 None
           [[demo_frame; demo_frame]; [demo_frame]]).
  vm_compute. reflexivity.
Defined.

Lemma shifted_corr_windows_are_overlap_witness :
  exists r i : nat * nat,
    [(0, 1); (1, 2); (0, 2)] !! 1 = Some r /\
    [(0, 1); (0, 1); (1, 3)] !! 1 = Some i /\
    (forall x : Z,
       (Z.of_nat r.1 <= x < Z.of_nat r.2)%Z <-> overlaps 2 2 1 x) /\
    (forall x : Z,
       (Z.of_nat r.1 <= x < Z.of_nat r.2)%Z <->
       (Z.of_nat i.1 <= x - 1 < Z.of_nat i.2)%Z).
Proof.
  apply (shifted_corr_windows_are_overlap [1; 2; 3; 1] [1; 2; 3; 1]
           [0; 1; -1]%Z _ _ 1 2 2 1%Z).
  - reflexivity.
  - lia.
  - reflexivity.
  - reflexivity.
  - reflexivity.
Defined.

Lemma shifted_corr_changes_overlap_only_witness :
  exists corr r' t',
    Scorer.shifted_corr demo_reference demo_target [0; 1; -1]%Z
    = inr (corr, r', t') /\
    get r' [0; 0; 1; 0] = Some 2%Z /\ get t' [0; 1; 1; 0] = Some 50%Z.
Proof.
  assert (Hrun : Scorer.shifted_corr demo_reference demo_target [0; 1; -1]%Z
                 = inr (0%Z,
                        NDArray (n:=4) [1; 2; 3; 1]
                          [[[[1]; [2]; [3]]; [[0]; [1]; [6]]]]%Z,
                        NDArray (n:=4) [1; 2; 3; 1]
                          [[[[10]; [-5]; [5]]; [[40]; [50]; [60]]]]%Z))
    by (vm_compute; reflexivity).
  destruct (shifted_corr_changes_overlap_only (F:=Z)
              demo_reference demo_target _ _ _ 1 2 3 1 1 2 3 1 0 1 (-1) []
              eq_refl eq_refl Hrun) as (_ & _ & Hr & Ht).
  eexists _, _, _. split; [exact Hrun|]. split.
  - rewrite (Hr 0 0 1 0); [reflexivity|]. unfold overlaps. lia.
  - rewrite (Ht 0 1 1 0); [reflexivity|]. unfold overlaps. lia.
Defined.

Lemma shifted_corr_centres_overlap_witness :
  exists corr r' t' (ref_means im_means : list Z),
    Scorer.shifted_corr demo_reference demo_target [0; 1; -1]%Z
    = inr (corr, r', t') /\
    get r' [0; 1; 1; 0]
    = (v ← get demo_reference [0; 1; 1; 0]; m ← ref_means !! 0;
       Some (v - m)%Z) /\
    get t' [0; 0; 2; 0]
    = (v ← get demo_target [0; 0; 2; 0]; m ← im_means !! 0; Some (v - m)%Z).
Proof.
  assert (Hrun : Scorer.shifted_corr demo_reference demo_target [0; 1; -1]%Z
                 = inr (0%Z,
                        NDArray (n:=4) [1; 2; 3; 1]
                          [[[[1]; [2]; [3]]; [[0]; [1]; [6]]]]%Z,
                        NDArray (n:=4) [1; 2; 3; 1]
                          [[[[10]; [-5]; [5]]; [[40]; [50]; [60]]]]%Z))
    by (vm_compute; reflexivity).
  destruct (shifted_corr_centres_overlap (F:=Z)
              demo_reference demo_target _ _ _ 1 2 3 1 1 2 3 1 0 1 (-1) []
              eq_refl eq_refl Hrun) as (rm & im & _ & _ & Hr & Ht).
  eexists _, _, _, rm, im. split; [exact Hrun|]. split.
  - apply (Hr 0 1 1 0); unfold overlaps; lia.
  - apply (Ht 0 0 2 0); unfold overlaps; lia.
Defined.

Lemma shifted_corr_pairs_witness :
  exists (ref im : nd Z 4) (k0 k1 k2 : nat),
    nd_get 4 [k0; k1; k2; 0] ref = Some 1%Z /\
    nd_get 4 [k0; k1; k2; 0] im = Some 5%Z.
Proof.
  assert (Hrun : Scorer.shifted_corr demo_reference demo_target [0; 1; -1]%Z
                 = inr (0%Z,
                        NDArray (n:=4) [1; 2; 3; 1]
                          [[[[1]; [2]; [3]]; [[0]; [1]; [6]]]]%Z,
                        NDArray (n:=4) [1; 2; 3; 1]
                          [[[[10]; [-5]; [5]]; [[40]; [50]; [60]]]]%Z))
    by (vm_compute; reflexivity).
  destruct (shifted_corr_pairs (F:=Z)
              demo_reference demo_target _ _ _ 1 2 3 1 1 2 3 1 0 1 (-1) []
              eq_refl eq_refl Hrun) as (ref & im & _ & Hpair & _).
  destruct (Hpair 0 1 1 0) as (k0 & k1 & k2 & Hr & Hi);
    [unfold overlaps; lia..|].
  exists ref, im, k0, k1, k2. split; [exact Hr|exact Hi].
Defined.

Lemma first_frame_is_reference_witness :
  slot 0 0 0 [[[1%Z]; [5%Z]]] = Some 1%Z.
Proof.
  refine (first_frame_is_reference (F:=Z) 10 4 5%Z demo_dataset2 None
            "correlation" (Some 1%Z) [[[[0; 0]]; [[0; 0]]]]%Z
            [[[1%Z]; [5%Z]]] demo_frame [demo_frame] [] 1 4 4 1
            _ _ _ _ _ _ 0 _).
  - reflexivity.
  - reflexivity.
  - reflexivity.
  - reflexivity.
  - reflexivity.
  - vm_compute. reflexivity.
  - lia.
Defined.

Lemma single_frame_dataset_witness :
  _frame_alignment_base 3 4 5%Z demo_dataset (Some [1; 1]%Z) "ECC" None
  = Ok ([[replicate 1 [0; 0]%Z]], [[replicate 1 1%Z]]).
Proof.
  refine (single_frame_dataset (F:=Z) 3 4 5%Z demo_dataset (Some [1; 1]%Z)
            "ECC" None demo_frame 1 4 4 1 _ _ _ _ _ _ _).
  - reflexivity.
  - vm_compute. discriminate.
  - lia.
  - reflexivity.
  - reflexivity.
  - reflexivity.
  - reflexivity.
Defined.

Lemma shifted_corr_symmetric_witness :
  Scorer.shifted_corr demo_target demo_reference (Z.opp <$> [0; 1; -1]%Z) =
  match Scorer.shifted_corr demo_reference demo_target [0; 1; -1]%Z with
  | inl e => inl e
  | inr (corr, reference', image') => inr (corr, image', reference')
  end.
Proof.
  apply (shifted_corr_symmetric (F:=Z) demo_reference demo_target
           1 2 3 1 1 2 3 1 0 1 (-1) []).
  - intros a b. cbn. lia.
  - reflexivity.
  - reflexivity.
Defined.
